(** * PGN game records: reading and writing (projects/lib/src/pgngame.cpp)

    A shallow embedding of [PgnGame]: the item scanner [PgnGame::readItem],
    the parsing constructor [PgnGame::PgnGame(QTextStream&, int)] and the
    writer [PgnGame::write], followed by the properties of the game record
    they maintain.

    The Qt classes the file uses are modelled by what the code relies on:
    a [QChar] is a Latin-1 character, a [QString] a list of them, a
    [QTextStream] a buffer with a read position and a status.  The chess
    board ([Chess::Board]) is an interface; the code is generic in it. *)

From Stdlib Require Import List Ascii ZArith Lia Bool Arith.
From Stdlib Require String Decimal DecimalPos.
Import ListNotations String.StringSyntax.

Local Open Scope char_scope.
Local Open Scope nat_scope.
Local Open Scope list_scope.

(** ** Characters and strings *)

Definition QChar := ascii.
Definition QString := list QChar.

Bind Scope string_scope with String.string.

(** A string literal as a [QString]. *)
Definition qs (s : String.string) : QString := String.list_ascii_of_string s.

Definition LF : QChar := ascii_of_nat 10.
Definition CR : QChar := ascii_of_nat 13.
Definition QUOTE : QChar := ascii_of_nat 34.

Module QCh.

(** The default-constructed [QChar], used by the scanner as "no bracket". *)
Definition null : QChar := Ascii.zero.

Definition eqb (a b : QChar) : bool := Ascii.eqb a b.

Definition isNull (c : QChar) : bool := eqb c null.

(** [QChar::isSpace] on Latin-1: the controls 9..13, the space, NEL and
    the no-break space. *)
Definition isSpace (c : QChar) : bool :=
  let n := nat_of_ascii c in
  ((9 <=? n) && (n <=? 13)) || (n =? 32) || (n =? 133) || (n =? 160).

(** [QChar::isDigit] on Latin-1: the decimal digits. *)
Definition isDigit (c : QChar) : bool :=
  let n := nat_of_ascii c in (48 <=? n) && (n <=? 57).

End QCh.

Infix "=c?" := QCh.eqb (at level 70, no associativity).

Module QStr.

Fixpoint eqb (a b : QString) : bool :=
  match a, b with
  | [], [] => true
  | x :: a', y :: b' => (x =c? y) && eqb a' b'
  | _, _ => false
  end.

Definition isEmpty (s : QString) : bool :=
  match s with [] => true | _ :: _ => false end.

Fixpoint dropSpaces (s : QString) : QString :=
  match s with
  | c :: s' => if QCh.isSpace c then dropSpaces s' else s
  | [] => []
  end.

(** [QString::trimmed]: white space removed from both ends. *)
Definition trimmed (s : QString) : QString :=
  rev (dropSpaces (rev (dropSpaces s))).

(** The fields of [s] separated by [sep], empty fields included. *)
Fixpoint split (sep : QChar) (s : QString) : list QString :=
  match s with
  | [] => [[]]
  | c :: s' =>
      if c =c? sep then [] :: split sep s'
      else match split sep s' with
           | f :: fs => (c :: f) :: fs
           | [] => [[c]]
           end
  end.

Fixpoint join (sep : QChar) (fs : list QString) : QString :=
  match fs with
  | [] => []
  | [f] => f
  | f :: fs' => f ++ sep :: join sep fs'
  end.

(** [QString::section(sep, start, end)] with the default flags and a
    non-negative [start]; [None] stands for the default [end = -1]
    (up to the last field). *)
Definition section (sep : QChar) (start : nat) (end_ : option nat)
           (s : QString) : QString :=
  let fields := skipn start (split sep s) in
  join sep (match end_ with
            | Some e => firstn (S e - start) fields
            | None => fields
            end).

(** [QString::replace(c, "")]: every occurrence of [c] removed. *)
Definition remove (c : QChar) (s : QString) : QString :=
  filter (fun x => negb (x =c? c)) s.

Definition digitOfChar (c : QChar) : Z := Z.of_nat (nat_of_ascii c) - 48.

Fixpoint digitsValue (acc : Z) (s : QString) : option Z :=
  match s with
  | [] => Some acc
  | c :: s' =>
      if QCh.isDigit c then digitsValue (10 * acc + digitOfChar c) s'
      else None
  end.

Definition unsignedValue (s : QString) : option Z :=
  match s with
  | [] => None
  | _ :: _ => digitsValue 0 s
  end.

Definition INT_MIN : Z := - 2 ^ 31.
Definition INT_MAX : Z := 2 ^ 31 - 1.

(** [QString::toInt(&ok)] in base 10: an optional sign and decimal
    digits, within the range of [int]; [None] is [ok = false]. *)
Definition toInt (s : QString) : option Z :=
  let v := match s with
           | "-" :: s' => option_map Z.opp (unsignedValue s')
           | "+" :: s' => unsignedValue s'
           | _ => unsignedValue s
           end in
  match v with
  | Some n => if (INT_MIN <=? n)%Z && (n <=? INT_MAX)%Z then Some n else None
  | None => None
  end.

Definition charOfDigit (d : nat) : QChar := ascii_of_nat (48 + d).

Fixpoint ofUint (u : Decimal.uint) : QString :=
  match u with
  | Decimal.Nil => []
  | Decimal.D0 u' => charOfDigit 0 :: ofUint u'
  | Decimal.D1 u' => charOfDigit 1 :: ofUint u'
  | Decimal.D2 u' => charOfDigit 2 :: ofUint u'
  | Decimal.D3 u' => charOfDigit 3 :: ofUint u'
  | Decimal.D4 u' => charOfDigit 4 :: ofUint u'
  | Decimal.D5 u' => charOfDigit 5 :: ofUint u'
  | Decimal.D6 u' => charOfDigit 6 :: ofUint u'
  | Decimal.D7 u' => charOfDigit 7 :: ofUint u'
  | Decimal.D8 u' => charOfDigit 8 :: ofUint u'
  | Decimal.D9 u' => charOfDigit 9 :: ofUint u'
  end.

(** [QString::number(int)]: the decimal numeral of [n]. *)
Definition number (n : Z) : QString :=
  match Z.to_int n with
  | Decimal.Pos u => ofUint u
  | Decimal.Neg u => "-" :: ofUint u
  end.

End QStr.

Infix "=s?" := QStr.eqb (at level 70, no associativity).

(** ** Text streams *)

Inductive Status := Ok | ReadPastEnd | ReadCorruptData.

Definition Status_eqb (a b : Status) : bool :=
  match a, b with
  | Ok, Ok | ReadPastEnd, ReadPastEnd | ReadCorruptData, ReadCorruptData => true
  | _, _ => false
  end.

(** A [QTextStream] opened for reading: the text behind it, the read
    position [pos()] counted in characters, and [status()]. *)
Record QTextStream := mkStream {
  buffer : QString;
  position : nat;
  status : Status
}.

Module TS.

(** The text not read yet. *)
Definition remaining (s : QTextStream) : QString :=
  skipn (position s) (buffer s).

Definition advance (n : nat) (s : QTextStream) : QTextStream :=
  mkStream (buffer s) (position s + n) (status s).

(** [QTextStream::setStatus]: a status other than [Ok] is kept. *)
Definition setStatus (st : Status) (s : QTextStream) : QTextStream :=
  match status s with
  | Ok => mkStream (buffer s) (position s) st
  | _ => s
  end.

Fixpoint spaces (s : QString) : nat :=
  match s with
  | c :: s' => if QCh.isSpace c then S (spaces s') else 0
  | [] => 0
  end.

(** [in.skipWhiteSpace()] *)
Definition skipWhiteSpace (s : QTextStream) : QTextStream :=
  advance (spaces (remaining s)) s.

(** [in >> c]: the next character, or the null character and
    [ReadPastEnd] when nothing is left. *)
Definition readChar (s : QTextStream) : QChar * QTextStream :=
  match remaining s with
  | c :: _ => (c, advance 1 s)
  | [] => (QCh.null, setStatus ReadPastEnd s)
  end.

Fixpoint upToLF (s : QString) : QString :=
  match s with
  | c :: s' => if c =c? LF then [] else c :: upToLF s'
  | [] => []
  end.

Definition chopCR (line : QString) : QString :=
  match rev line with
  | c :: l' => if c =c? CR then rev l' else line
  | [] => line
  end.

(** [in.readLine()]: the text up to the next line feed, which is consumed
    and not returned, and neither is a carriage return before it; at the
    end of the text, what is left. *)
Definition readLine (s : QTextStream) : QString * QTextStream :=
  let line := upToLF (remaining s) in
  match skipn (length line) (remaining s) with
  | _ :: _ => (chopCR line, advance (S (length line)) s)
  | [] => (line, advance (length line) s)
  end.

Definition pos (s : QTextStream) : Z := Z.of_nat (position s).

(** [in.seek(p)]: refused, leaving the stream as it is, outside the text. *)
Definition seek (p : Z) (s : QTextStream) : QTextStream :=
  if ((0 <=? p) && (p <=? Z.of_nat (length (buffer s))))%Z
  then mkStream (buffer s) (Z.to_nat p) (status s)
  else s.

(** A stream on [text], nothing read yet. *)
Definition open (text : QString) : QTextStream := mkStream text 0 Ok.

End TS.

(** ** The chess library, as far as [PgnGame] uses it *)

(** [Chess::Variant], with the variants the file names. *)
Inductive Variant := StandardChess | CapablancaChess.

(** [Chess::MoveNotation]: the file names one notation. *)
Inductive MoveNotation := StandardAlgebraic.

(** [Chess::Result], with the values the file names. *)
Inductive Result :=
| WhiteMates | BlackMates | Stalemate | DrawByMaterial | DrawByRepetition
| DrawByFiftyMoves | DrawByAgreement | WhiteResigns | BlackResigns
| NoResult | ResultError.

Definition Result_eqb (a b : Result) : bool :=
  match a, b with
  | WhiteMates, WhiteMates | BlackMates, BlackMates | Stalemate, Stalemate
  | DrawByMaterial, DrawByMaterial | DrawByRepetition, DrawByRepetition
  | DrawByFiftyMoves, DrawByFiftyMoves | DrawByAgreement, DrawByAgreement
  | WhiteResigns, WhiteResigns | BlackResigns, BlackResigns
  | NoResult, NoResult | ResultError, ResultError => true
  | _, _ => false
  end.

(** [Chess::Board] and [Chess::Move], and the start positions
    [Chess::standardFen], [Chess::capablancaFen] and [Chess::gothicFen],
    are declared outside this file: they are an interface here.  A method
    that changes the board returns the new one; [setBoard] also tells
    whether the position was accepted. *)
Class ChessBoard (Board Move : Type) := {
  newBoard : Variant -> Board;
  setBoard : Board -> QString -> bool * Board;
  fenString : Board -> QString;
  moveFromString : Board -> QString -> Move;
  isLegalMove : Board -> Move -> bool;
  makeMove : Board -> Move -> Board;
  moveString : Board -> Move -> MoveNotation -> QString;
  moveHistory : Board -> list Move;
  startingFen : Board -> QString;
  variant : Board -> Variant;
  isRandomVariant : Board -> bool;
  standardFen : QString;
  capablancaFen : QString;
  gothicFen : QString
}.

(** ** The game record *)

Inductive PgnItem :=
| PgnMove | PgnMoveNumber | PgnTag | PgnComment | PgnNag | PgnResult
| PgnError.

Definition PgnItem_eqb (a b : PgnItem) : bool :=
  match a, b with
  | PgnMove, PgnMove | PgnMoveNumber, PgnMoveNumber | PgnTag, PgnTag
  | PgnComment, PgnComment | PgnNag, PgnNag | PgnResult, PgnResult
  | PgnError, PgnError => true
  | _, _ => false
  end.

Infix "=i?" := PgnItem_eqb (at level 70, no associativity).

Record PgnGame (Move : Type) := mkPgnGame {
  m_whitePlayer : QString;
  m_blackPlayer : QString;
  m_moves : list Move;
  m_fen : QString;
  m_variant : Variant;
  m_isRandomVariant : bool;
  m_result : Result;
  m_isEmpty : bool;
  m_round : Z
}.

Arguments mkPgnGame {Move}.
Arguments m_whitePlayer {Move}.
Arguments m_blackPlayer {Move}.
Arguments m_moves {Move}.
Arguments m_fen {Move}.
Arguments m_variant {Move}.
Arguments m_isRandomVariant {Move}.
Arguments m_result {Move}.
Arguments m_isEmpty {Move}.
Arguments m_round {Move}.

(** What [qDebug] is called with. *)
Inductive Diagnostic :=
| NoTerminationMarker
| TerminationMarkerDiffers
| InvalidResult (param : QString)
| InvalidFen (fen : QString)
| NoTagsFound
| IllegalMove (str : QString)
| InvalidNag (str : QString).

Definition resultToString (result : Result) : QString :=
  match result with
  | WhiteMates | BlackResigns => qs "1-0"
  | BlackMates | WhiteResigns => qs "0-1"
  | Stalemate | DrawByMaterial | DrawByRepetition | DrawByFiftyMoves
  | DrawByAgreement => qs "1/2-1/2"
  | _ => qs "*"
  end.

Definition resultFromString (str : QString) : Result :=
  if str =s? qs "*" then NoResult
  else if str =s? qs "1-0" then WhiteMates
  else if str =s? qs "0-1" then BlackMates
  else if str =s? qs "1/2-1/2" then DrawByAgreement
  else ResultError.

(** ** The constructor [PgnGame::PgnGame] from a [ChessGame] *)

(** A [ChessGame], as far as the constructor looks at it: the names of its
    players, its board and its result. *)
Record ChessGame (Board : Type) := mkChessGame {
  whitePlayer_name : QString;
  blackPlayer_name : QString;
  chessboard : Board;
  result : Result
}.

Arguments mkChessGame {Board}.
Arguments whitePlayer_name {Board}.
Arguments blackPlayer_name {Board}.
Arguments chessboard {Board}.
Arguments result {Board}.

(** Lines 27-42.  The constructor does not initialise [m_round]: [round]
    is whatever the member holds. *)
Definition PgnGame_ofGame {Board Move : Type} {CB : ChessBoard Board Move}
           (game : ChessGame Board) (round : Z) : PgnGame Move :=
  let board := chessboard game in
  mkPgnGame (whitePlayer_name game) (blackPlayer_name game)
            (moveHistory board) (startingFen board) (variant board)
            (isRandomVariant board) (result game) false round.

(** ** [PgnGame::readItem] *)

(** The local variables of [readItem] that live across its loop. *)
Record Scan := mkScan {
  itemType : PgnItem;
  openingBracket : QChar;
  closingBracket : QChar;
  bracketLevel : Z;
  str : QString
}.

Definition Scan_init : Scan := mkScan PgnMove QCh.null QCh.null 0 [].

Definition setItemType (t : PgnItem) (sc : Scan) : Scan :=
  mkScan t (openingBracket sc) (closingBracket sc) (bracketLevel sc) (str sc).

Definition setOpeningBracket (c : QChar) (sc : Scan) : Scan :=
  mkScan (itemType sc) c (closingBracket sc) (bracketLevel sc) (str sc).

Definition setClosingBracket (c : QChar) (sc : Scan) : Scan :=
  mkScan (itemType sc) (openingBracket sc) c (bracketLevel sc) (str sc).

Definition setBracketLevel (n : Z) (sc : Scan) : Scan :=
  mkScan (itemType sc) (openingBracket sc) (closingBracket sc) n (str sc).

Definition setStr (t : QString) (sc : Scan) : Scan :=
  mkScan (itemType sc) (openingBracket sc) (closingBracket sc)
         (bracketLevel sc) t.

(** How one pass through the body of the loop ends: with [continue] (or by
    reaching the end of the body), with [break], or with [return]. *)
Inductive Step :=
| Continue (sc : Scan) (s : QTextStream)
| Break (sc : Scan) (s : QTextStream)
| Return (item : PgnItem) (s : QTextStream) (d : list Diagnostic).

(** A block of the body either falls through to the next one or leaves
    the body. *)
Inductive Flow :=
| Next (sc : Scan)
| Leave (r : Step).

Definition bind (f : Flow) (k : Scan -> Flow) : Flow :=
  match f with
  | Next sc => k sc
  | Leave r => Leave r
  end.

Definition andThen (f : Flow) (k : Scan -> Step) : Step :=
  match f with
  | Next sc => k sc
  | Leave r => r
  end.

Notation "sc <- f ;; k" := (bind f (fun sc => k))
  (at level 61, f at next level, right associativity).

Section Reader.

Context {Board Move : Type} {CB : ChessBoard Board Move}.

Definition setWhitePlayer (v : QString) (g : PgnGame Move) : PgnGame Move :=
  mkPgnGame v (m_blackPlayer g) (m_moves g) (m_fen g) (m_variant g)
            (m_isRandomVariant g) (m_result g) (m_isEmpty g) (m_round g).

Definition setBlackPlayer (v : QString) (g : PgnGame Move) : PgnGame Move :=
  mkPgnGame (m_whitePlayer g) v (m_moves g) (m_fen g) (m_variant g)
            (m_isRandomVariant g) (m_result g) (m_isEmpty g) (m_round g).

Definition setMoves (v : list Move) (g : PgnGame Move) : PgnGame Move :=
  mkPgnGame (m_whitePlayer g) (m_blackPlayer g) v (m_fen g) (m_variant g)
            (m_isRandomVariant g) (m_result g) (m_isEmpty g) (m_round g).

Definition setFen (v : QString) (g : PgnGame Move) : PgnGame Move :=
  mkPgnGame (m_whitePlayer g) (m_blackPlayer g) (m_moves g) v (m_variant g)
            (m_isRandomVariant g) (m_result g) (m_isEmpty g) (m_round g).

Definition setResult (v : Result) (g : PgnGame Move) : PgnGame Move :=
  mkPgnGame (m_whitePlayer g) (m_blackPlayer g) (m_moves g) (m_fen g)
            (m_variant g) (m_isRandomVariant g) v (m_isEmpty g) (m_round g).

Definition setIsEmpty (v : bool) (g : PgnGame Move) : PgnGame Move :=
  mkPgnGame (m_whitePlayer g) (m_blackPlayer g) (m_moves g) (m_fen g)
            (m_variant g) (m_isRandomVariant g) (m_result g) v (m_round g).

(** Lines 96-126: what the first character of a token decides. *)
Definition atTokenStart (c : QChar) (sc : Scan) (s : QTextStream) : Flow :=
  if c =c? ";" then
    let (line, s') := TS.readLine s in
    Leave (Break (setStr line (setItemType PgnComment sc)) s')
  else if c =c? "%" then
    Leave (Continue sc (snd (TS.readLine s)))
  else if c =c? "." then
    Leave (Continue sc (TS.skipWhiteSpace s))
  else if c =c? "$" then
    Leave (Continue (setItemType PgnNag sc) s)
  else if QCh.isDigit c && (itemType sc =i? PgnMove) then
    Next (setItemType PgnMoveNumber sc)
  else Next sc.

(** Lines 128-155: a bracket that opens a tag or a comment. *)
Definition atBracket (g : PgnGame Move) (c : QChar) (sc : Scan)
           (s : QTextStream) : Flow :=
  let opened (sc' : Scan) : Flow :=
    if negb (QCh.isNull (closingBracket sc'))
    then Next (setOpeningBracket c sc') else Next sc' in
  if c =c? "[" then
    if 0 <? length (m_moves g) then
      Leave (Return PgnError (TS.seek (TS.pos s - 1) s)
                    [NoTerminationMarker])
    else opened (setClosingBracket "]" (setItemType PgnTag sc))
  else if c =c? "(" then
    opened (setClosingBracket ")" (setItemType PgnComment sc))
  else if c =c? "{" then
    opened (setClosingBracket "}" (setItemType PgnComment sc))
  else opened sc.

(** Lines 157-173: bracket counting, the end of a token, or one more
    character of it. *)
Definition accumulate (c : QChar) (sc : Scan) (s : QTextStream) : Step :=
  if c =c? openingBracket sc then
    Continue (setBracketLevel (bracketLevel sc + 1) sc) s
  else if c =c? closingBracket sc then
    let sc' := setBracketLevel (bracketLevel sc - 1) sc in
    if (bracketLevel sc' <=? 0)%Z then Break sc' s else Continue sc' s
  else if (itemType sc =i? PgnMove) && QCh.isSpace c then Break sc s
  else if (itemType sc =i? PgnMoveNumber)
          && (QCh.isSpace c || (c =c? ".")) then Break sc s
  else if (itemType sc =i? PgnNag) && QCh.isSpace c then Break sc s
  else Continue (setStr (str sc ++ [c]) sc) s.

(** The body of the loop (lines 88-173). *)
Definition readItem_body (g : PgnGame Move) (sc : Scan) (s0 : QTextStream)
  : Step :=
  let (c, s) := TS.readChar s0 in
  if m_isEmpty g && negb (itemType sc =i? PgnTag) && negb (c =c? "[")
  then Continue sc s
  else if ((c =c? LF) || (c =c? CR)) && negb (itemType sc =i? PgnComment)
  then Break sc s
  else
    andThen
      (if QCh.isNull (openingBracket sc) then
         sc0 <- (if QStr.isEmpty (str sc) then atTokenStart c sc s
                 else Next sc) ;;
         atBracket g c sc0 s
       else Next sc)
      (fun sc1 => accumulate c sc1 s).

(** How the loop ends: its condition fails or the body breaks, with the
    locals and the stream as they are then, or the body returns. *)
Inductive Scanned :=
| Stopped (sc : Scan) (s : QTextStream)
| Returned (item : PgnItem) (s : QTextStream) (d : list Diagnostic).

(** The loop of lines 86-174, run for at most [fuel] passes; [None] when
    they do not suffice. *)
Fixpoint readItem_loop (fuel : nat) (g : PgnGame Move) (sc : Scan)
         (s : QTextStream) : option Scanned :=
  match fuel with
  | O => None
  | S fuel' =>
      if Status_eqb (status s) Ok then
        match readItem_body g sc s with
        | Continue sc' s' => readItem_loop fuel' g sc' s'
        | Break sc' s' => Some (Stopped sc' s')
        | Return item s' d => Some (Returned item s' d)
        end
      else Some (Stopped sc s)
  end.

(** Every pass reads a character or ends the loop, so this many passes
    always suffice ([readItem_loop_total]). *)
Definition passes (s : QTextStream) : nat := S (S (length (TS.remaining s))).

Record ReadResult := mkRead {
  item : PgnItem;
  game : PgnGame Move;
  stream : QTextStream;
  board : Board;
  debug : list Diagnostic
}.

Definition isResultToken (t : QString) : bool :=
  (t =s? qs "*") || (t =s? qs "1/2-1/2") || (t =s? qs "1-0")
  || (t =s? qs "0-1").

(** Lines 196-215: the tag [tag] with the value [param]. *)
Definition applyTag (tag param : QString) (g : PgnGame Move)
           (s : QTextStream) (b : Board) : ReadResult :=
  if tag =s? qs "White" then mkRead PgnTag (setWhitePlayer param g) s b []
  else if tag =s? qs "Black" then
    mkRead PgnTag (setBlackPlayer param g) s b []
  else if tag =s? qs "Result" then
    let g' := setResult (resultFromString param) g in
    mkRead PgnTag g' s b
           (if Result_eqb (m_result g') ResultError
            then [InvalidResult param] else [])
  else if tag =s? qs "FEN" then
    let g' := setFen param g in
    let (ok, b') := setBoard b (m_fen g') in
    if ok then mkRead PgnTag g' s b' []
    else mkRead PgnError g' s b' [InvalidFen (m_fen g')]
  else mkRead PgnTag g s b [].

(** Lines 191-215: a tag, whose token is [t]. *)
Definition readTag (t : QString) (g : PgnGame Move) (s : QTextStream)
           (b : Board) : ReadResult :=
  let tag := QStr.section " " 0 (Some 0) t in
  let param := QStr.remove QUOTE (QStr.section " " 1 None t) in
  applyTag tag param g s b.

(** Lines 216-235: a move, whose token is [t]. *)
Definition readMove (t : QString) (g : PgnGame Move) (s : QTextStream)
           (b : Board) : ReadResult :=
  if m_isEmpty g then mkRead PgnError g s b [NoTagsFound]
  else
    let move := moveFromString b t in
    if isLegalMove b move then
      mkRead PgnMove (setMoves (m_moves g ++ [move]) g) s (makeMove b move) []
    else mkRead PgnError g s b [IllegalMove t].

(** Lines 236-245: a numeric annotation glyph, whose token is [t]. *)
Definition readNag (t : QString) (g : PgnGame Move) (s : QTextStream)
           (b : Board) : ReadResult :=
  match QStr.toInt t with
  | Some nag =>
      if (nag <? 0)%Z || (255 <? nag)%Z
      then mkRead PgnError g s b [InvalidNag t]
      else mkRead PgnNag g s b []
  | None => mkRead PgnError g s b [InvalidNag t]
  end.

(** Lines 176-247: what is done with the token once the loop is over. *)
Definition readItem_finish (g : PgnGame Move) (sc : Scan) (s : QTextStream)
           (b : Board) : ReadResult :=
  let t := QStr.trimmed (str sc) in
  if QStr.isEmpty t then mkRead PgnError g s b []
  else if ((itemType sc =i? PgnMove) || (itemType sc =i? PgnMoveNumber))
          && isResultToken t then
    let result := resultFromString t in
    mkRead PgnResult (setResult result g) s b
           (if negb (Result_eqb result (m_result g))
            then [TerminationMarkerDiffers] else [])
  else
    match itemType sc with
    | PgnTag => readTag t g s b
    | PgnMove => readMove t g s b
    | PgnNag => readNag t g s b
    | other => mkRead other g s b []
    end.

(** What [readItem] does once its loop has ended. *)
Definition readItem_after (g : PgnGame Move) (b : Board) (r : Scanned)
  : ReadResult :=
  match r with
  | Stopped sc s => readItem_finish g sc s b
  | Returned it s d => mkRead it g s b d
  end.

(** [readItem], from the head of its loop with the locals [sc]. *)
Definition readItem_from (sc : Scan) (g : PgnGame Move) (s : QTextStream)
           (b : Board) : ReadResult :=
  match readItem_loop (passes s) g sc s with
  | Some r => readItem_after g b r
  | None => mkRead PgnError g s b []
  end.

Definition readItem (g : PgnGame Move) (s : QTextStream) (b : Board)
  : ReadResult :=
  readItem_from Scan_init g (TS.skipWhiteSpace s) b.

(** ** [PgnGame::PgnGame(QTextStream&, int)] *)

(** The record and the board as the constructor has them before its loop
    (lines 251-256). *)
Definition startBoard : Board :=
  snd (setBoard (newBoard StandardChess) standardFen).

Definition startGame : PgnGame Move :=
  mkPgnGame [] [] [] (fenString startBoard) StandardChess false NoResult
            true 0.

(** The constructor at some point of its loop: the record, the stream,
    its board, and what it has told [qDebug] so far. *)
Record Parser := mkParser {
  p_game : PgnGame Move;
  p_stream : QTextStream;
  p_board : Board;
  p_debug : list Diagnostic
}.

(** The condition of the loop (lines 258-259). *)
Definition parse_cond (maxMoves : Z) (p : Parser) : bool :=
  Status_eqb (status (p_stream p)) Ok
  && (Z.of_nat (length (m_moves (p_game p))) <? maxMoves)%Z.

(** The body of the loop (lines 261-267): whether the loop goes on, and
    the state after the body. *)
Definition parse_body (p : Parser) : bool * Parser :=
  let r := readItem (p_game p) (p_stream p) (p_board p) in
  let after (g : PgnGame Move) :=
    mkParser g (stream r) (board r) (p_debug p ++ debug r) in
  match item r with
  | PgnError => (false, after (game r))
  | PgnTag => (true, after (setIsEmpty false (game r)))
  | PgnResult => (false, after (game r))
  | _ => (true, after (game r))
  end.

Fixpoint parse_loop (fuel : nat) (maxMoves : Z) (p : Parser)
  : option Parser :=
  match fuel with
  | O => None
  | S fuel' =>
      if parse_cond maxMoves p then
        let (goOn, p') := parse_body p in
        if goOn then parse_loop fuel' maxMoves p' else Some p'
      else Some p
  end.

(** The states of the loop at the head of each of its passes, followed
    by the state a [break] leaves. *)
Fixpoint parse_trace (fuel : nat) (maxMoves : Z) (p : Parser)
  : list Parser :=
  match fuel with
  | O => [p]
  | S fuel' =>
      if parse_cond maxMoves p then
        let (goOn, p') := parse_body p in
        if goOn then p :: parse_trace fuel' maxMoves p' else [p; p']
      else [p]
  end.

Definition parse_start (s : QTextStream) : Parser :=
  mkParser startGame s startBoard [].

(** The constructor, with the stream, the board and the diagnostics it
    leaves behind. *)
Definition parse (s : QTextStream) (maxMoves : Z) : Parser :=
  match parse_loop (passes s) maxMoves (parse_start s) with
  | Some p => p
  | None => parse_start s
  end.

Definition PgnGame_read (s : QTextStream) (maxMoves : Z) : PgnGame Move :=
  p_game (parse s maxMoves).

End Reader.

Arguments ReadResult : clear implicits.
Arguments Parser : clear implicits.

(** ** [PgnGame::write] *)

(** A [QDate]. *)
Record QDate := mkDate { year : nat; month : nat; day : nat }.

Module Date.

(** [n] in decimal, with zeros in front up to [width] digits. *)
Definition padded (width n : nat) : QString :=
  let digits := QStr.number (Z.of_nat n) in
  repeat "0" (width - length digits) ++ digits.

(** [QDate::toString("yyyy.MM.dd")] *)
Definition toString (d : QDate) : QString :=
  padded 4 (year d) ++ "." :: padded 2 (month d) ++ "." :: padded 2 (day d).

End Date.

(** The files [QFile] gives access to: the text of each one that exists,
    and whether [open(QIODevice::Append)] will succeed on a name. *)
Record Files := mkFiles {
  contents : QString -> option QString;
  appendable : QString -> bool
}.

(** What a successful [open(QIODevice::Append)] followed by writing [text]
    leaves: the file is created when it was not there. *)
Definition appendTo (name text : QString) (fs : Files) : Files :=
  mkFiles (fun n => if n =s? name
                    then Some (match contents fs n with
                               | Some old => old ++ text
                               | None => text
                               end)
                    else contents fs n)
          (appendable fs).

Section Writer.

Context {Board Move : Type} {CB : ChessBoard Board Move}.

(** Lines 276-295: the value of the [Variant] tag, empty for none, and
    whether a [FEN] tag is written. *)
Definition variantAndFen (g : PgnGame Move) : QString * bool :=
  match m_variant g with
  | StandardChess =>
      (if m_isRandomVariant g then qs "Fischerandom" else [],
       negb (m_fen g =s? standardFen))
  | CapablancaChess =>
      let (variantString, useFen) :=
        if m_fen g =s? capablancaFen then (qs "Capablanca", false)
        else if m_fen g =s? gothicFen then (qs "Gothic", false)
        else ([], true) in
      (if m_isRandomVariant g then qs "Capablancarandom" else variantString,
       useFen)
  end.

(** One tag pair on a line of its own. *)
Definition tagLine (name value : QString) : QString :=
  "[" :: name ++ " " :: QUOTE :: value ++ QUOTE :: "]" :: [LF].

(** Lines 305-312. *)
Definition write_tags (g : PgnGame Move) (date : QString) : QString :=
  let (variantString, useFen) := variantAndFen g in
  tagLine (qs "Date") date
  ++ tagLine (qs "White") (m_whitePlayer g)
  ++ tagLine (qs "Black") (m_blackPlayer g)
  ++ tagLine (qs "Result") (resultToString (m_result g))
  ++ (if negb (QStr.isEmpty variantString)
      then tagLine (qs "Variant") variantString else [])
  ++ (if useFen then tagLine (qs "FEN") (m_fen g) else []).

(** The loop of lines 316-324 from index [i], with [moves] the moves from
    [i] on and [b] the board at that point. *)
Fixpoint write_moves (b : Board) (i : Z) (moves : list Move) : QString :=
  match moves with
  | [] => []
  | m :: rest =>
      (if (Z.rem i 8 =? 0)%Z then [LF] else [])
      ++ (if (Z.rem i 2 =? 0)%Z
          then QStr.number (Z.quot i 2 + 1) ++ qs ". " else [])
      ++ moveString b m StandardAlgebraic ++ qs " "
      ++ write_moves (makeMove b m) (i + 1) rest
  end.

(** The board the writer replays the game on (lines 314-315). *)
Definition replayBoard (g : PgnGame Move) : Board :=
  snd (setBoard (newBoard (m_variant g)) (m_fen g)).

(** Everything a non-empty record sends to [out]. *)
Definition write_text (g : PgnGame Move) (today : QDate) : QString :=
  write_tags g (Date.toString today)
  ++ write_moves (replayBoard g) 0 (m_moves g)
  ++ resultToString (m_result g) ++ [LF; LF].

(** [write(filename)], on the files [fs] and on the day [today]. *)
Definition write (g : PgnGame Move) (filename : QString) (today : QDate)
           (fs : Files) : Files :=
  if m_isEmpty g then fs
  else if appendable fs filename
       then appendTo filename (write_text g today) fs
       else fs.

End Writer.

(** ** A board to run the code on

    Moves are their own notation; a position is accepted unless it is
    empty, and a move is legal unless it names the ninth rank. *)
Module TestBoard.

Record Board := mkBoard { kind : Variant; fen : QString;
                          history : list QString }.

Definition legal (m : QString) : bool :=
  negb (existsb (fun c => c =c? "9") m) && negb (QStr.isEmpty m).

#[export] Instance ops : ChessBoard Board QString := {|
  newBoard v := mkBoard v [] [];
  setBoard b f :=
    if QStr.isEmpty f then (false, b) else (true, mkBoard (kind b) f []);
  fenString b := fen b;
  moveFromString _ t := t;
  isLegalMove _ m := legal m;
  makeMove b m := mkBoard (kind b) (fen b) (history b ++ [m]);
  moveString _ m _ := m;
  moveHistory b := history b;
  startingFen b := fen b;
  variant b := kind b;
  isRandomVariant _ := false;
  standardFen :=
    qs "rnbqkbnr/pppppppp/8/8/8/8/PPPPPPPP/RNBQKBNR w KQkq - 0 1";
  capablancaFen :=
    qs "rnabqkbcnr/pppppppppp/10/10/10/10/PPPPPPPPPP/RNABQKBCNR w KQkq - 0 1";
  gothicFen :=
    qs "rnbqckabnr/pppppppppp/10/10/10/10/PPPPPPPPPP/RNBQCKABNR w KQkq - 0 1"
|}.

End TestBoard.

(** Scenario 1 of the specification. *)
Definition scenario1 : QString :=
  tagLine (qs "White") (qs "A") ++ tagLine (qs "Black") (qs "B")
  ++ tagLine (qs "Result") (qs "1-0")
  ++ qs "1. e4 e5 2. Nf3 1-0" ++ [LF; LF].

(** ** Notions the properties are stated with *)

(** [ahead s s']: [s'] is [s] after some more of the text was read. *)
Definition ahead (s s' : QTextStream) : Prop :=
  buffer s' = buffer s /\ status s' = status s
  /\ position s <= position s'.

(** What is left of the loops' work: the text not read, and one more
    pass while the status is [Ok]. *)
Definition work (s : QTextStream) : nat :=
  length (TS.remaining s) + (if Status_eqb (status s) Ok then 1 else 0).

(** The stream a [continue] or a [break] of the body leaves. *)
Definition leaves (r : Step) (s' : QTextStream) : Prop :=
  match r with
  | Continue _ s | Break _ s => s = s'
  | Return _ _ _ => False
  end.

(** Whether [c] occurs in [s]. *)
Definition occurs (c : QChar) (s : QString) : bool :=
  existsb (fun x => x =c? c) s.


(** The move text as the specification words it, ply by ply. *)
Section MoveText.

Context {Board Move : Type} {CB : ChessBoard Board Move}.

(** The board before ply [i]: the start board after the plies before it. *)
Definition boardBefore (b0 : Board) (moves : list Move) (i : nat) : Board :=
  fold_left makeMove (firstn i moves) b0.

(** What ply [i] contributes: a line break when [i] is a multiple of 8, the
    move number [i / 2 + 1] and a period when [i] is even, and the move in
    standard algebraic notation as the board before the ply gives it. *)
Definition plyText (b0 : Board) (moves : list Move) (i : nat) : QString :=
  match nth_error moves i with
  | Some m =>
      (if i mod 8 =? 0 then [LF] else [])
      ++ (if i mod 2 =? 0
          then QStr.number (Z.of_nat (i / 2 + 1)) ++ qs ". " else [])
      ++ moveString (boardBefore b0 moves i) m StandardAlgebraic ++ qs " "
  | None => []
  end.

Definition moveText (b0 : Board) (moves : list Move) : QString :=
  flat_map (plyText b0 moves) (seq 0 (length moves)).

End MoveText.


Section Passes.

Context {Board Move : Type} {CB : ChessBoard Board Move}.

(** The locals and the stream at the head of the loop of [readItem] after
    [n] passes from [sc] and [s], when each of them is entered and ends
    with [continue]; [None] otherwise. *)
Fixpoint afterPasses (n : nat) (g : PgnGame Move) (sc : Scan)
         (s : QTextStream) : option (Scan * QTextStream) :=
  match n with
  | O => Some (sc, s)
  | S n' =>
      if Status_eqb (status s) Ok then
        match readItem_body g sc s with
        | Continue sc' s' => afterPasses n' g sc' s'
        | _ => None
        end
      else None
  end.

(** [scans g sc s sc' s']: from the head of the loop with [sc] and [s],
    some passes that all continue lead to its head with [sc'] and
    [s']. *)
Inductive scans (g : PgnGame Move)
  : Scan -> QTextStream -> Scan -> QTextStream -> Prop :=
| scans_here sc s : scans g sc s sc s
| scans_pass sc s sc1 s1 sc' s' :
    status s = Ok -> readItem_body g sc s = Continue sc1 s1 ->
    scans g sc1 s1 sc' s' -> scans g sc s sc' s'.

(** While the record is empty the loop is in one of two situations: it
    waits for a [[], with nothing accumulated, or it is inside a tag. *)
Definition awaitsTag (sc : Scan) : Prop :=
  itemType sc = PgnMove /\ str sc = []
  /\ QCh.isNull (openingBracket sc) = true.

Definition insideTag (sc : Scan) : Prop :=
  itemType sc = PgnTag /\ QCh.isNull (openingBracket sc) = false.

End Passes.


(** *** Text that survives a round trip *)

(** A character that a tag keeps as it is: no bracket of a tag, no end of
    line. *)
Definition tagChar (c : QChar) : bool :=
  negb ((c =c? "[") || (c =c? "]") || (c =c? LF) || (c =c? CR)).

(** A tag value that is read back as it was written: made of such
    characters, and without the quote that is stripped from it. *)
Definition tagSafe (v : QString) : bool :=
  forallb (fun c => tagChar c && negb (c =c? QUOTE)) v.

(** A character that goes into a token outside brackets as it is. *)
Definition plainChar (c : QChar) : bool :=
  negb (QCh.isSpace c || QCh.isNull c
        || (c =c? "[") || (c =c? "(") || (c =c? "{")).

(** A character a token can start with. *)
Definition firstChar (c : QChar) : bool :=
  plainChar c
  && negb ((c =c? ";") || (c =c? "%") || (c =c? ".") || (c =c? "$")).

(** The notation of a move that [readItem] takes for a move: it starts
    like a token but not with a digit, goes on with plain characters, and
    is no result. *)
Definition moveToken (t : QString) : bool :=
  match t with
  | c :: t' =>
      firstChar c && negb (QCh.isDigit c) && forallb plainChar t'
      && negb (isResultToken t)
  | [] => false
  end.

(** [reading s text]: the stream is good and [text] is what is left. *)
Definition reading (s : QTextStream) (text : QString) : Prop :=
  status s = Ok /\ TS.remaining s = text.

(** What is at the head of a text is no white space. *)
Definition solidHead (s : QString) : Prop :=
  match s with
  | c :: _ => QCh.isSpace c = false
  | [] => True
  end.

(** The locals of [readItem] outside brackets, and inside a tag. *)
Definition outside (t : PgnItem) (acc : QString) : Scan :=
  mkScan t QCh.null QCh.null 0 acc.

Definition inTag (level : Z) (acc : QString) : Scan :=
  mkScan PgnTag "[" "]" level acc.

Section Replay.

Context {Board Move : Type} {CB : ChessBoard Board Move}.

(** The moves can be played from board [b] one after the other, and the
    notation the board gives for each is a token which the board decodes
    to that move again. *)
Fixpoint playable (b : Board) (moves : list Move) : Prop :=
  match moves with
  | [] => True
  | m :: rest =>
      moveToken (moveString b m StandardAlgebraic) = true
      /\ moveFromString b (moveString b m StandardAlgebraic) = m
      /\ isLegalMove b m = true
      /\ playable (makeMove b m) rest
  end.

(** The position the record starts from is what a reader ends up with:
    the standard one, which the reader's board reports, or one written as
    a FEN tag, which the reader's board accepts and which takes it to the
    board the writer replays the game on. *)
Definition startsAlike (g : PgnGame Move) : Prop :=
  if m_fen g =s? standardFen
  then fenString (startBoard (Board:=Board)) = standardFen
  else setBoard startBoard (m_fen g) = (true, replayBoard g).

(** Some passes of the constructor's loop, each of which goes on. *)
Inductive runs (maxMoves : Z)
  : Parser Board Move -> Parser Board Move -> Prop :=
| runs_here p : runs maxMoves p p
| runs_pass p p1 p' :
    parse_cond maxMoves p = true -> parse_body p = (true, p1) ->
    runs maxMoves p1 p' -> runs maxMoves p p'.

End Replay.


(** The name of a tag as the writer writes it: a word of characters a tag
    keeps, starting with no white space. *)
Definition tagName (name : QString) : bool :=
  match name with
  | c :: _ => negb (QCh.isSpace c)
  | [] => false
  end && forallb tagChar name && negb (occurs " " name).


(** *** Records and streams to run the code on *)

Module Sample.

Import TestBoard.

Definition board0 : TestBoard.Board := startBoard.

(** A finished game of three plies. *)
Definition threePlies : PgnGame QString :=
  mkPgnGame (qs "A") (qs "B") [qs "e4"; qs "e5"; qs "Nf3"] standardFen
            StandardChess false WhiteMates false 0.

(** A game of seventeen plies. *)
Definition seventeenPlies : PgnGame QString :=
  mkPgnGame (qs "Anna Linn") (qs "Bo")
            [qs "e4"; qs "e5"; qs "Nf3"; qs "Nc6"; qs "Bb5"; qs "a6";
             qs "Ba4"; qs "Nf6"; qs "O-O"; qs "Be7"; qs "Re1"; qs "b5";
             qs "Bb3"; qs "d6"; qs "c3"; qs "O-O"; qs "h3"]
            standardFen StandardChess false NoResult false 0.

(** A game from a shuffled start position. *)
Definition shuffled : PgnGame QString :=
  mkPgnGame (qs "Anna Linn") (qs "Bo") [qs "e4"; qs "e5"]
            (qs "bnrqkrnb/pppppppp/8/8/8/8/PPPPPPPP/BNRQKRNB w KQkq - 0 1")
            StandardChess true DrawByAgreement false 0.

(** The same three plies, lost by resignation. *)
Definition resigned : PgnGame QString :=
  mkPgnGame (qs "A") (qs "B") [qs "e4"; qs "e5"; qs "Nf3"] standardFen
            StandardChess false BlackResigns false 0.

(** A Capablanca game from the start position of that variant. *)
Definition capablanca : PgnGame QString :=
  mkPgnGame (qs "A") (qs "B") [qs "e4"] capablancaFen CapablancaChess
            false NoResult false 0.

(** A Capablanca game from the gothic start position. *)
Definition gothic (random : bool) : PgnGame QString :=
  mkPgnGame (qs "A") (qs "B") [qs "e4"] gothicFen CapablancaChess random
            NoResult false 0.

(** The record while a game is being read, one move in. *)
Definition oneMoveIn : PgnGame QString :=
  mkPgnGame (qs "A") (qs "B") [qs "e4"] standardFen StandardChess false
            NoResult false 0.

Definition today : QDate := mkDate 2009 3 14.

Definition noFiles : Files := mkFiles (fun _ => None) (fun _ => true).

(** A move, then the first tag of the next game. *)
Definition nextGame : QString := qs "e5[White " ++ QUOTE :: qs "C" ++ [QUOTE; "]"].

(** Scenario 2 of the specification. *)
Definition illegalMove : QString :=
  tagLine (qs "White") (qs "A") ++ tagLine (qs "Black") (qs "B")
  ++ qs "1. e4 e9".

(** A comment with a bracket in it. *)
Definition bracketComment : QString := qs "{[%clk 0:05:00]} e5".

(** A FEN tag without a position. *)
Definition emptyFen : QString := tagLine (qs "FEN") [].

(** What the reader makes of the text the writer produces. *)
Definition readBack (g : PgnGame QString) : PgnGame QString :=
  PgnGame_read (TS.open (write_text g today)) 1000.

(** [readItem] meeting the next game, a bracket in a comment, a glyph out
    of range, and, on an empty record, a move before any tag. *)
Definition atNextGame : ReadResult TestBoard.Board QString :=
  readItem oneMoveIn (TS.open nextGame) board0.

Definition atBracketComment : ReadResult TestBoard.Board QString :=
  readItem oneMoveIn (TS.open bracketComment) board0.

Definition atGlyph : ReadResult TestBoard.Board QString :=
  readItem oneMoveIn (TS.open (qs "$256 e5")) board0.

Definition atEarlyMove : ReadResult TestBoard.Board QString :=
  readItem startGame (TS.open (qs "1. e4 [White")) board0.

(** The constructor about to read a FEN tag without a position. *)
Definition beforeEmptyFen : Parser TestBoard.Board QString :=
  mkParser startGame (TS.open emptyFen) board0 [].

Definition atEmptyFen : ReadResult TestBoard.Board QString :=
  readItem (p_game beforeEmptyFen) (p_stream beforeEmptyFen)
           (p_board beforeEmptyFen).

End Sample.


(** *** Notions for the further properties *)

Section Legal.

Context {Board Move : Type} {CB : ChessBoard Board Move}.

(** The moves are legal one after the other from board [b]. *)
Fixpoint legalFrom (b : Board) (moves : list Move) : bool :=
  match moves with
  | [] => true
  | m :: rest => isLegalMove b m && legalFrom (makeMove b m) rest
  end.

(** [b0] is the board of the start position of record [g], as a reader
    has it: the reader's first board, whose position the record holds, or
    the board an accepted [setBoard] of the record's position left. *)
Definition startsFrom (g : PgnGame Move) (b0 : Board) : Prop :=
  (b0 = startBoard /\ m_fen g = fenString (startBoard (Board:=Board)))
  \/ (exists b, setBoard b (m_fen g) = (true, b0)).

(** The reader's board is the start board after the moves of the record,
    each legal when made. *)
Definition replays (p : Parser Board Move) : Prop :=
  exists b0,
    startsFrom (p_game p) b0
    /\ legalFrom b0 (m_moves (p_game p)) = true
    /\ p_board p = fold_left makeMove (m_moves (p_game p)) b0.

End Legal.

(** The locals of [readItem] inside a comment in brackets. *)
Definition inComment (o cl : QChar) (level : Z) (acc : QString) : Scan :=
  mkScan PgnComment o cl level acc.

(** [body] keeps a comment opened by [o] open from nesting depth [level]
    on, and leaves it at depth 1, where a [cl] closes it. *)
Fixpoint nested (o cl : QChar) (level : Z) (body : QString) : bool :=
  match body with
  | [] => (level =? 1)%Z
  | c :: rest =>
      if c =c? o then nested o cl (level + 1) rest
      else if c =c? cl then (1 <? level)%Z && nested o cl (level - 1) rest
      else nested o cl level rest
  end.

(** What is accumulated of a comment: its text without the brackets. *)
Definition commentText (o cl : QChar) (body : QString) : QString :=
  filter (fun c => negb ((c =c? o) || (c =c? cl))) body.


Section Written.

Context {Board Move : Type} {CB : ChessBoard Board Move}.

(** A record that is read back as written: not empty, of the standard
    variant, its names and its start position free of what a tag cannot
    hold, its start position one the reader arrives at and its moves
    played and decoded by the board. *)
Definition readable (g : PgnGame Move) : Prop :=
  m_isEmpty g = false /\ m_variant g = StandardChess
  /\ tagSafe (m_whitePlayer g) = true /\ tagSafe (m_blackPlayer g) = true
  /\ tagSafe (m_fen g) = true
  /\ startsAlike g /\ playable (replayBoard g) (m_moves g).

(** [g'] is what reading makes of [g], apart from the moves: a record
    that is not empty, with the players, the start position and the
    variant of [g], and the result its result token stands for. *)
Definition headerOf (g' g : PgnGame Move) : Prop :=
  m_isEmpty g' = false
  /\ m_whitePlayer g' = m_whitePlayer g
  /\ m_blackPlayer g' = m_blackPlayer g
  /\ m_result g' = resultFromString (resultToString (m_result g))
  /\ m_fen g' = m_fen g /\ m_variant g' = m_variant g.

End Written.

(** * Properties *)

(** ** Characters, strings and streams *)

Lemma QCh_eqb_eq (a b : QChar) : (a =c? b) = true <-> a = b.
Proof. apply Ascii.eqb_eq. Qed.

Lemma QCh_eqb_neq (a b : QChar) : (a =c? b) = false <-> a <> b.
Proof. apply Ascii.eqb_neq. Qed.

Lemma QCh_eqb_refl (a : QChar) : (a =c? a) = true.
Proof. apply Ascii.eqb_refl. Qed.

Lemma QStr_eqb_eq (a b : QString) : (a =s? b) = true <-> a = b.
Proof.
  revert b; induction a as [|x a IH]; intros [|y b]; simpl;
    try (split; congruence).
  rewrite andb_true_iff, QCh_eqb_eq, IH. split.
  - intros [-> ->]; reflexivity.
  - intros H; injection H; auto.
Qed.

Lemma QStr_eqb_refl (a : QString) : (a =s? a) = true.
Proof. apply QStr_eqb_eq; reflexivity. Qed.

Lemma QStr_eqb_neq (a b : QString) : (a =s? b) = false <-> a <> b.
Proof.
  rewrite <- QStr_eqb_eq. destruct (a =s? b); split; congruence.
Qed.

Lemma Status_eqb_eq (a b : Status) : Status_eqb a b = true <-> a = b.
Proof. destruct a, b; simpl; split; congruence. Qed.

Module TSFacts.

Import TS.

Lemma ahead_refl s : ahead s s.
Proof. unfold ahead; auto. Qed.

Lemma ahead_trans s1 s2 s3 : ahead s1 s2 -> ahead s2 s3 -> ahead s1 s3.
Proof. unfold ahead; intros (-> & -> & ?) (-> & -> & ?); repeat split; lia. Qed.

Lemma ahead_advance n s : ahead s (advance n s).
Proof. unfold ahead, advance; simpl; repeat split; lia. Qed.

Lemma ahead_skipWhiteSpace s : ahead s (skipWhiteSpace s).
Proof. apply ahead_advance. Qed.

Lemma ahead_readLine s : ahead s (snd (readLine s)).
Proof.
  unfold readLine.
  destruct (skipn (length (upToLF (remaining s))) (remaining s));
    apply ahead_advance.
Qed.

Lemma ahead_remaining s s' :
  ahead s s' -> length (remaining s') <= length (remaining s).
Proof.
  unfold ahead, remaining; intros (-> & _ & H).
  rewrite !length_skipn; lia.
Qed.

Lemma remaining_advance n s :
  remaining (advance n s) = skipn n (remaining s).
Proof.
  unfold remaining, advance; simpl.
  rewrite skipn_skipn. f_equal; lia.
Qed.

(** The two outcomes of [in >> c]. *)
Lemma readChar_cons s c r :
  remaining s = c :: r ->
  readChar s = (c, advance 1 s) /\ remaining (advance 1 s) = r.
Proof.
  intros H; unfold readChar; rewrite H; split; [reflexivity|].
  rewrite remaining_advance, H; reflexivity.
Qed.

Lemma readChar_nil s :
  remaining s = [] -> status s = Ok ->
  readChar s = (QCh.null, mkStream (buffer s) (position s) ReadPastEnd).
Proof.
  intros H Hs; unfold readChar, setStatus; rewrite H, Hs; reflexivity.
Qed.

Lemma ahead_work s s' : ahead s s' -> work s' <= work s.
Proof.
  intros H; pose proof (ahead_remaining _ _ H) as Hl.
  destruct H as (_ & Hst & _); unfold work; rewrite Hst; lia.
Qed.

(** [in >> c] on a good stream uses up some of the work. *)
Lemma readChar_work s :
  status s = Ok -> work (snd (readChar s)) < work s.
Proof.
  intros Hs; unfold work; rewrite Hs; simpl.
  destruct (remaining s) as [|c r] eqn:E.
  - rewrite (readChar_nil _ E Hs); simpl.
    unfold remaining in *; simpl; rewrite E; simpl; lia.
  - destruct (readChar_cons _ _ _ E) as [-> E']; simpl.
    rewrite E'; simpl. destruct (Status_eqb _ _); lia.
Qed.

Lemma passes_work s : work s < passes s.
Proof. unfold work, passes; destruct (Status_eqb _ _); lia. Qed.

End TSFacts.

(** ** The loop of [readItem] *)

Section ScanFacts.

Context {Board Move : Type} {CB : ChessBoard Board Move}.
Import TS TSFacts.

Lemma atTokenStart_ahead c sc s r s' :
  atTokenStart c sc s = Leave r -> leaves r s' -> ahead s s'.
Proof.
  unfold atTokenStart.
  destruct (c =c? ";").
  { pose proof (ahead_readLine s) as H. destruct (readLine s) as [l s1].
    intros [= <-]; simpl in *; intros <-; exact H. }
  destruct (c =c? "%").
  { intros [= <-]; simpl; intros <-; apply ahead_readLine. }
  destruct (c =c? ".").
  { intros [= <-]; simpl; intros <-; apply ahead_skipWhiteSpace. }
  destruct (c =c? "$").
  { intros [= <-]; simpl; intros <-; apply ahead_refl. }
  destruct (_ && _); discriminate.
Qed.

Lemma atBracket_ahead (g : PgnGame Move) c sc s r s' :
  atBracket g c sc s = Leave r -> leaves r s' -> ahead s s'.
Proof.
  unfold atBracket.
  repeat match goal with
         | |- context [if ?b then _ else _] => destruct b
         end; try discriminate.
  intros [= <-]; simpl; tauto.
Qed.

Lemma accumulate_ahead c sc s s' :
  leaves (accumulate c sc s) s' -> ahead s s'.
Proof.
  unfold accumulate.
  repeat match goal with
         | |- context [if ?b then _ else _] => destruct b
         end; simpl; intros <-; apply ahead_refl.
Qed.

(** A pass that does not return leaves the stream at or after the
    character it has read. *)
Lemma readItem_body_ahead (g : PgnGame Move) sc s s' :
  leaves (readItem_body g sc s) s' -> ahead (snd (readChar s)) s'.
Proof.
  unfold readItem_body. destruct (readChar s) as [c s1]; simpl.
  destruct (_ && _ && _); [simpl; intros <-; apply ahead_refl|].
  destruct (_ && _); [simpl; intros <-; apply ahead_refl|].
  destruct (QCh.isNull (openingBracket sc)); simpl;
    [|apply accumulate_ahead].
  destruct (QStr.isEmpty (str sc)); simpl.
  - destruct (atTokenStart c sc s1) as [sc0|r] eqn:E1; simpl.
    + destruct (atBracket g c sc0 s1) as [sc1|r] eqn:E2; simpl.
      * apply accumulate_ahead.
      * apply (atBracket_ahead _ _ _ _ _ _ E2).
    + apply (atTokenStart_ahead _ _ _ _ _ E1).
  - destruct (atBracket g c sc s1) as [sc1|r] eqn:E2; simpl.
    + apply accumulate_ahead.
    + apply (atBracket_ahead _ _ _ _ _ _ E2).
Qed.

Lemma readItem_body_work (g : PgnGame Move) sc s s' :
  status s = Ok -> leaves (readItem_body g sc s) s' -> work s' < work s.
Proof.
  intros Hs H. apply readItem_body_ahead, ahead_work in H.
  pose proof (readChar_work s Hs). lia.
Qed.

(** More passes than needed change nothing. *)
Lemma readItem_loop_mono fuel (g : PgnGame Move) sc s r :
  readItem_loop fuel g sc s = Some r ->
  forall fuel', fuel <= fuel' -> readItem_loop fuel' g sc s = Some r.
Proof.
  revert sc s; induction fuel as [|fuel IH]; intros sc s; [discriminate|].
  intros H [|fuel'] Hle; [lia|]. simpl in *.
  destruct (Status_eqb (status s) Ok); [|exact H].
  destruct (readItem_body g sc s); try exact H.
  apply IH; [exact H|lia].
Qed.

Lemma readItem_loop_enough fuel (g : PgnGame Move) sc s :
  work s < fuel -> exists r, readItem_loop fuel g sc s = Some r.
Proof.
  revert sc s; induction fuel as [|fuel IH]; intros sc s Hw; [lia|].
  simpl. destruct (Status_eqb (status s) Ok) eqn:Hs; [|eauto].
  apply Status_eqb_eq in Hs.
  destruct (readItem_body g sc s) as [sc' s'| |] eqn:E; eauto.
  apply IH.
  assert (work s' < work s); [|lia].
  apply (readItem_body_work g sc s s' Hs). rewrite E; reflexivity.
Qed.

(** The loop of [readItem] always ends within [passes s] passes. *)
Lemma readItem_loop_total (g : PgnGame Move) sc s :
  exists r, readItem_loop (passes s) g sc s = Some r.
Proof. apply readItem_loop_enough, passes_work. Qed.

(** So a result found with any number of passes is the result. *)
Lemma readItem_loop_passes fuel (g : PgnGame Move) sc s r :
  readItem_loop fuel g sc s = Some r ->
  readItem_loop (passes s) g sc s = Some r.
Proof.
  intros H. destruct (readItem_loop_total g sc s) as [r' H'].
  pose proof (readItem_loop_mono _ _ _ _ _ H (Nat.max fuel (passes s))
                                 (Nat.le_max_l _ _)) as H1.
  pose proof (readItem_loop_mono _ _ _ _ _ H' (Nat.max fuel (passes s))
                                 (Nat.le_max_r _ _)) as H2.
  congruence.
Qed.

Lemma readItem_from_loop fuel (g : PgnGame Move) sc s r (b : Board) :
  readItem_loop fuel g sc s = Some r ->
  readItem_from sc g s b = readItem_after g b r.
Proof.
  intros H; unfold readItem_from.
  rewrite (readItem_loop_passes _ _ _ _ _ H); reflexivity.
Qed.

Lemma scans_trans (g : PgnGame Move) sc s sc1 s1 sc2 s2 :
  scans g sc s sc1 s1 -> scans g sc1 s1 sc2 s2 -> scans g sc s sc2 s2.
Proof.
  induction 1; intros; [assumption|].
  eapply scans_pass; eauto.
Qed.

Lemma scans_loop (g : PgnGame Move) sc s sc' s' :
  scans g sc s sc' s' ->
  forall fuel r, readItem_loop fuel g sc' s' = Some r ->
                 exists fuel', readItem_loop fuel' g sc s = Some r.
Proof.
  induction 1 as [|sc s sc1 s1 sc' s' Hs E _ IH]; intros fuel r H;
    [eauto|].
  destruct (IH _ _ H) as [f Hf]. exists (S f); simpl.
  rewrite Hs, E; exact Hf.
Qed.

(** The passes that continue do not matter to the rest of the call. *)
Lemma scans_readItem_from (g : PgnGame Move) sc s sc' s' (b : Board) :
  scans g sc s sc' s' ->
  readItem_from sc g s b = readItem_from sc' g s' b.
Proof.
  intros H. destruct (readItem_loop_total g sc' s') as [r Hr].
  destruct (scans_loop _ _ _ _ _ H _ _ Hr) as [f Hf].
  rewrite (readItem_from_loop _ _ _ _ _ _ Hf).
  rewrite (readItem_from_loop _ _ _ _ _ _ Hr). reflexivity.
Qed.

(** The ways the loop ends, seen from [readItem]. *)
Lemma readItem_from_break (g : PgnGame Move) sc s sc' s' (b : Board) :
  status s = Ok -> readItem_body g sc s = Break sc' s' ->
  readItem_from sc g s b = readItem_finish g sc' s' b.
Proof.
  intros Hs E. apply (readItem_from_loop 1 g sc s (Stopped sc' s')); simpl.
  rewrite Hs, E; reflexivity.
Qed.

Lemma readItem_from_return (g : PgnGame Move) sc s it s' d (b : Board) :
  status s = Ok -> readItem_body g sc s = Return it s' d ->
  readItem_from sc g s b = mkRead it g s' b d.
Proof.
  intros Hs E. apply (readItem_from_loop 1 g sc s (Returned it s' d)); simpl.
  rewrite Hs, E; reflexivity.
Qed.

Lemma readItem_from_end (g : PgnGame Move) sc s (b : Board) :
  status s <> Ok -> readItem_from sc g s b = readItem_finish g sc s b.
Proof.
  intros Hs. apply (readItem_from_loop 1 g sc s (Stopped sc s)); simpl.
  destruct (Status_eqb (status s) Ok) eqn:E; [|reflexivity].
  apply Status_eqb_eq in E; contradiction.
Qed.

End ScanFacts.

(** ** One call of [readItem] *)

Section ReadFacts.

Context {Board Move : Type} {CB : ChessBoard Board Move}.
Import TS TSFacts.

(** The only [return] inside the loop is the one of line 137. *)
Lemma readItem_body_return (g : PgnGame Move) sc s it s' d :
  readItem_body g sc s = Return it s' d ->
  it = PgnError /\ d = [NoTerminationMarker] /\ m_moves g <> []
  /\ s' = seek (pos (snd (readChar s)) - 1) (snd (readChar s)).
Proof.
  unfold readItem_body. destruct (readChar s) as [c s1]; simpl.
  destruct (_ && _ && _); [discriminate|].
  destruct (_ && _); [discriminate|].
  assert (Hacc : forall sc1, accumulate c sc1 s1 <> Return it s' d).
  { intros sc1; unfold accumulate.
    repeat match goal with
           | |- context [if ?b then _ else _] => destruct b
           end; discriminate. }
  assert (Hbr : forall sc0,
             andThen (atBracket g c sc0 s1) (fun sc1 => accumulate c sc1 s1)
             = Return it s' d ->
             it = PgnError /\ d = [NoTerminationMarker] /\ m_moves g <> []
             /\ s' = seek (pos s1 - 1) s1).
  { intros sc0; unfold atBracket; cbv zeta.
    destruct (c =c? "[").
    - destruct (m_moves g) as [|m ms]; simpl.
      + intros H; destruct (Hacc _ H).
      + intros [= <- <- <-]; repeat split; discriminate.
    - repeat match goal with
             | |- context [if ?b then _ else _] => destruct b
             end; simpl; intros H; destruct (Hacc _ H). }
  destruct (QCh.isNull (openingBracket sc)); simpl;
    [|intros H; destruct (Hacc _ H)].
  destruct (QStr.isEmpty (str sc)); simpl; [|apply Hbr].
  unfold atTokenStart.
  destruct (c =c? ";"); [destruct (readLine s1); discriminate|].
  destruct (c =c? "%"); [discriminate|].
  destruct (c =c? "."); [discriminate|].
  destruct (c =c? "$"); [discriminate|].
  destruct (_ && _); simpl; apply Hbr.
Qed.

Lemma readItem_loop_returned fuel (g : PgnGame Move) sc s it s' d :
  readItem_loop fuel g sc s = Some (Returned it s' d) ->
  it = PgnError /\ d = [NoTerminationMarker] /\ m_moves g <> [].
Proof.
  revert sc s; induction fuel as [|fuel IH]; intros sc s; [discriminate|].
  simpl. destruct (Status_eqb (status s) Ok); [|discriminate].
  destruct (readItem_body g sc s) eqn:E; [apply IH|discriminate|].
  intros [= -> -> ->].
  destruct (readItem_body_return _ _ _ _ _ _ E) as (? & ? & ? & _); auto.
Qed.

(** A loop that ends without returning has read something, if the stream
    was good. *)
Lemma readItem_loop_work fuel (g : PgnGame Move) sc s sc' s' :
  readItem_loop fuel g sc s = Some (Stopped sc' s') ->
  work s' <= work s /\ (status s = Ok -> work s' < work s).
Proof.
  revert sc s; induction fuel as [|fuel IH]; intros sc s; [discriminate|].
  simpl. destruct (Status_eqb (status s) Ok) eqn:Hs.
  - apply Status_eqb_eq in Hs.
    destruct (readItem_body g sc s) as [sc1 s1|sc1 s1|] eqn:E;
      [|intros [= -> ->]|discriminate].
    + intros H. apply IH in H.
      assert (work s1 < work s)
        by (apply (readItem_body_work g sc s s1 Hs); rewrite E; reflexivity).
      split; [|intros _]; lia.
    + assert (work s' < work s)
        by (apply (readItem_body_work g sc s s' Hs); rewrite E; reflexivity).
      split; [|intros _]; lia.
  - intros [= -> ->]. split; [lia|].
    intros H; rewrite H in Hs; discriminate.
Qed.

(** What the code after the loop leaves alone. *)
Lemma readItem_finish_stream (g : PgnGame Move) sc s (b : Board) :
  stream (readItem_finish g sc s b) = s.
Proof.
  unfold readItem_finish, readTag, applyTag, readMove, readNag.
  repeat match goal with
         | |- context [if ?c then _ else _] => destruct c
         | |- context [match ?c with _ => _ end] => destruct c
         end; reflexivity.
Qed.

(** An item appends at most one move, and only a [PgnMove] does. *)
Lemma readItem_finish_moves (g : PgnGame Move) sc s (b : Board) :
  let r := readItem_finish g sc s b in
  m_moves (game r) = m_moves g
  \/ (item r = PgnMove /\ exists m, m_moves (game r) = m_moves g ++ [m]).
Proof.
  unfold readItem_finish, readTag, applyTag, readMove, readNag.
  repeat match goal with
         | |- context [if ?c then _ else _] => destruct c
         | |- context [match ?c with _ => _ end] => destruct c
         end; simpl; eauto.
Qed.

Lemma readItem_moves (g : PgnGame Move) s (b : Board) :
  let r := readItem g s b in
  m_moves (game r) = m_moves g
  \/ (item r = PgnMove /\ exists m, m_moves (game r) = m_moves g ++ [m]).
Proof.
  unfold readItem, readItem_from.
  destruct (readItem_loop _ _ _ _) as [[sc' s'|it s' d]|]; simpl; auto.
  apply readItem_finish_moves.
Qed.

(** A call on a good stream that does not fail has read something. *)
Lemma readItem_work (g : PgnGame Move) s (b : Board) :
  status s = Ok ->
  item (readItem g s b) = PgnError
  \/ work (stream (readItem g s b)) < work s.
Proof.
  intros Hs. unfold readItem, readItem_from.
  destruct (readItem_loop _ _ _ _) as [[sc' s'|it s' d]|] eqn:E; simpl; auto.
  - right. rewrite readItem_finish_stream.
    apply readItem_loop_work in E. destruct E as [_ E].
    pose proof (ahead_work _ _ (ahead_skipWhiteSpace s)).
    assert (status (skipWhiteSpace s) = Ok) by exact Hs.
    specialize (E H0). lia.
  - left. apply readItem_loop_returned in E; tauto.
Qed.

End ReadFacts.

(** ** The loop of the constructor *)

Section ParseFacts.

Context {Board Move : Type} {CB : ChessBoard Board Move}.
Import TS TSFacts.

Lemma parse_cond_true maxMoves (p : Parser Board Move) :
  parse_cond maxMoves p = true ->
  status (p_stream p) = Ok
  /\ (Z.of_nat (length (m_moves (p_game p))) < maxMoves)%Z.
Proof.
  unfold parse_cond; rewrite andb_true_iff, Status_eqb_eq, Z.ltb_lt; auto.
Qed.

Lemma parse_body_stream (p : Parser Board Move) :
  p_stream (snd (parse_body p))
  = stream (readItem (p_game p) (p_stream p) (p_board p)).
Proof. unfold parse_body; destruct (item _); reflexivity. Qed.

Lemma parse_body_goOn (p : Parser Board Move) :
  fst (parse_body p) = true ->
  item (readItem (p_game p) (p_stream p) (p_board p)) <> PgnError.
Proof. unfold parse_body; destruct (item _); simpl; congruence. Qed.

Lemma parse_body_moves (p : Parser Board Move) :
  m_moves (p_game (snd (parse_body p)))
  = m_moves (game (readItem (p_game p) (p_stream p) (p_board p))).
Proof. unfold parse_body; destruct (item _); reflexivity. Qed.

(** A pass after which the loop goes on has read something. *)
Lemma parse_body_work maxMoves (p : Parser Board Move) :
  parse_cond maxMoves p = true -> fst (parse_body p) = true ->
  work (p_stream (snd (parse_body p))) < work (p_stream p).
Proof.
  intros Hc Hg. apply parse_cond_true in Hc. destruct Hc as [Hs _].
  rewrite parse_body_stream.
  destruct (readItem_work (p_game p) (p_stream p) (p_board p) Hs) as [E|H];
    [|exact H].
  destruct (parse_body_goOn p Hg E).
Qed.

Lemma parse_loop_mono fuel maxMoves (p : Parser Board Move) q :
  parse_loop fuel maxMoves p = Some q ->
  forall fuel', fuel <= fuel' -> parse_loop fuel' maxMoves p = Some q.
Proof.
  revert p; induction fuel as [|fuel IH]; intros p; [discriminate|].
  intros H [|fuel'] Hle; [lia|]. simpl in *.
  destruct (parse_cond maxMoves p); [|exact H].
  destruct (parse_body p) as [[|] p']; [|exact H].
  apply IH; [exact H|lia].
Qed.

Lemma parse_loop_enough fuel maxMoves (p : Parser Board Move) :
  work (p_stream p) < fuel -> exists q, parse_loop fuel maxMoves p = Some q.
Proof.
  revert p; induction fuel as [|fuel IH]; intros p Hw; [lia|].
  simpl. destruct (parse_cond maxMoves p) eqn:Hc; [|eauto].
  pose proof (parse_body_work maxMoves p Hc) as Hb.
  destruct (parse_body p) as [[|] p']; [|eauto].
  simpl in Hb. apply IH. specialize (Hb eq_refl). lia.
Qed.

(** The constructor's loop always ends within [passes s] passes. *)
Lemma parse_loop_total maxMoves (s : QTextStream) :
  exists q, parse_loop (passes s) maxMoves (parse_start s) = Some q.
Proof. apply parse_loop_enough, passes_work. Qed.

Lemma parse_loop_parse fuel maxMoves (s : QTextStream) q :
  parse_loop fuel maxMoves (parse_start s) = Some q -> parse s maxMoves = q.
Proof.
  intros H. unfold parse.
  destruct (parse_loop_total maxMoves s) as [q' H']. rewrite H'.
  pose proof (parse_loop_mono _ _ _ _ H (Nat.max fuel (passes s))
                              (Nat.le_max_l _ _)) as H1.
  pose proof (parse_loop_mono _ _ _ _ H' (Nat.max fuel (passes s))
                              (Nat.le_max_r _ _)) as H2.
  congruence.
Qed.

(** The state the loop ends in is the last one of its trace. *)
Lemma parse_loop_trace fuel maxMoves (p : Parser Board Move) q :
  parse_loop fuel maxMoves p = Some q ->
  In q (parse_trace fuel maxMoves p).
Proof.
  revert p; induction fuel as [|fuel IH]; intros p; [discriminate|].
  simpl. destruct (parse_cond maxMoves p).
  - destruct (parse_body p) as [[|] p'].
    + intros H; right; apply IH, H.
    + intros [= ->]; simpl; auto.
  - intros [= ->]; simpl; auto.
Qed.

(** The bound on the moves is kept by every pass of the loop. *)
Lemma parse_trace_bounded fuel maxMoves (p : Parser Board Move) :
  (Z.of_nat (length (m_moves (p_game p))) <= Z.max 0 maxMoves)%Z ->
  Forall (fun q =>
            (Z.of_nat (length (m_moves (p_game q))) <= Z.max 0 maxMoves)%Z)
         (parse_trace fuel maxMoves p).
Proof.
  revert p; induction fuel as [|fuel IH]; intros p Hp; simpl;
    [repeat constructor; exact Hp|].
  destruct (parse_cond maxMoves p) eqn:Hc;
    [|repeat constructor; exact Hp].
  apply parse_cond_true in Hc. destruct Hc as [_ Hlt].
  assert (Hq : (Z.of_nat (length (m_moves (p_game (snd (parse_body p)))))
                <= Z.max 0 maxMoves)%Z).
  { rewrite parse_body_moves.
    destruct (readItem_moves (p_game p) (p_stream p) (p_board p))
      as [->|(_ & m & ->)]; [exact Hp|].
    rewrite length_app; simpl. lia. }
  destruct (parse_body p) as [[|] p']; simpl in Hq.
  - constructor; [exact Hp|apply IH, Hq].
  - repeat constructor; assumption.
Qed.

End ParseFacts.

(** ** The variant of a record *)

Section VariantFacts.

Context {Board Move : Type} {CB : ChessBoard Board Move}.

(** No item changes the variant of the record or its random flag. *)
Lemma readItem_finish_variant (g : PgnGame Move) sc s (b : Board) :
  m_variant (game (readItem_finish g sc s b)) = m_variant g
  /\ m_isRandomVariant (game (readItem_finish g sc s b))
     = m_isRandomVariant g.
Proof.
  unfold readItem_finish, readTag, applyTag, readMove, readNag.
  repeat match goal with
         | |- context [if ?c then _ else _] => destruct c
         | |- context [match ?c with _ => _ end] => destruct c
         end; simpl; auto.
Qed.

Lemma readItem_variant (g : PgnGame Move) s (b : Board) :
  m_variant (game (readItem g s b)) = m_variant g
  /\ m_isRandomVariant (game (readItem g s b)) = m_isRandomVariant g.
Proof.
  unfold readItem, readItem_from.
  destruct (readItem_loop _ _ _ _) as [[sc' s'|it s' d]|]; simpl; auto.
  apply readItem_finish_variant.
Qed.

Lemma parse_body_variant (p : Parser Board Move) :
  m_variant (p_game (snd (parse_body p))) = m_variant (p_game p)
  /\ m_isRandomVariant (p_game (snd (parse_body p)))
     = m_isRandomVariant (p_game p).
Proof.
  pose proof (readItem_variant (p_game p) (p_stream p) (p_board p)) as H.
  unfold parse_body. destruct (item _); exact H.
Qed.

Lemma parse_loop_variant fuel maxMoves (p q : Parser Board Move) :
  parse_loop fuel maxMoves p = Some q ->
  m_variant (p_game q) = m_variant (p_game p)
  /\ m_isRandomVariant (p_game q) = m_isRandomVariant (p_game p).
Proof.
  revert p; induction fuel as [|fuel IH]; intros p; [discriminate|].
  simpl. destruct (parse_cond maxMoves p); [|intros [= <-]; auto].
  pose proof (parse_body_variant p) as [H1 H2].
  destruct (parse_body p) as [[|] p']; simpl in H1, H2.
  - intros H. apply IH in H. destruct H as [-> ->]. auto.
  - intros [= <-]. auto.
Qed.

(** The reader builds records of the standard variant only: no tag, and
    so no [Variant] tag, changes that. *)
Lemma read_standard (s : QTextStream) (maxMoves : Z) :
  m_variant (PgnGame_read (Board:=Board) s maxMoves) = StandardChess
  /\ m_isRandomVariant (PgnGame_read (Board:=Board) s maxMoves) = false.
Proof.
  unfold PgnGame_read, parse.
  destruct (parse_loop _ _ _) as [q|] eqn:E; [|auto].
  apply parse_loop_variant in E. exact E.
Qed.

(** A record made from a game is not empty; so a record of another
    variant than the standard one, however it was made, is not empty. *)
Lemma ofGame_not_empty (game : ChessGame Board) (round : Z) :
  m_isEmpty (PgnGame_ofGame (Move:=Move) game round) = false.
Proof. reflexivity. Qed.

Lemma capablanca_not_empty (g : PgnGame Move) :
  (exists s maxMoves, g = PgnGame_read (Board:=Board) s maxMoves)
  \/ (exists game round, g = PgnGame_ofGame game round) ->
  m_variant g = CapablancaChess -> m_isEmpty g = false.
Proof.
  intros [(s & maxMoves & ->)|(game & round & ->)] H.
  - rewrite (proj1 (read_standard s maxMoves)) in H. discriminate.
  - reflexivity.
Qed.

End VariantFacts.

(** ** Properties of the constructor and of the writer *)

Section Claims.

Context {Board Move : Type} {CB : ChessBoard Board Move}.
Import TS TSFacts.

(** C2, as amended: whatever the stream and whatever [maxMoves], the number
    of moves of the record is at most [max 0 maxMoves] at the head of
    every pass of the constructor's loop, in the state a [break] leaves,
    and in the record the constructor builds: it never exceeds a
    [maxMoves] that is not negative. *)
Theorem parse_moves_bounded (s : QTextStream) (maxMoves : Z) :
  (forall fuel,
      Forall (fun q : Parser Board Move =>
                (Z.of_nat (length (m_moves (p_game q))) <= Z.max 0 maxMoves)%Z)
             (parse_trace fuel maxMoves (parse_start s)))
  /\ (Z.of_nat (length (m_moves (PgnGame_read (Board:=Board) s maxMoves)))
      <= Z.max 0 maxMoves)%Z.
Proof.
  assert (H0 : (Z.of_nat (length (m_moves (p_game (parse_start
                 (Board:=Board) (Move:=Move) s)))) <= Z.max 0 maxMoves)%Z)
    by (simpl; lia).
  split.
  - intros fuel. apply parse_trace_bounded, H0.
  - unfold PgnGame_read, parse.
    destruct (parse_loop _ _ _) as [q|] eqn:E; [|exact H0].
    apply parse_loop_trace in E.
    pose proof (parse_trace_bounded (passes s) maxMoves _ H0) as HF.
    rewrite Forall_forall in HF. apply (HF _ E).
Qed.

(** While the record is empty and no [[] is left in the text, the loop of
    [readItem] drops every character. *)
Lemma readItem_loop_discards fuel (g : PgnGame Move) sc s r :
  m_isEmpty g = true -> itemType sc = PgnMove ->
  occurs "[" (remaining s) = false ->
  readItem_loop fuel g sc s = Some r -> exists s', r = Stopped sc s'.
Proof.
  intros Hg Hsc. revert s; induction fuel as [|fuel IH]; intros s Hno;
    [discriminate|].
  simpl. destruct (Status_eqb (status s) Ok) eqn:Hs;
    [|intros [= <-]; eauto].
  apply Status_eqb_eq in Hs.
  unfold readItem_body. rewrite Hg, Hsc; simpl.
  destruct (remaining s) as [|c rest] eqn:E.
  - rewrite (readChar_nil _ E Hs); simpl.
    apply IH. unfold remaining in *; simpl; rewrite E; reflexivity.
  - destruct (readChar_cons _ _ _ E) as [-> E'].
    simpl in Hno. apply orb_false_iff in Hno. destruct Hno as [Hc Hrest].
    rewrite Hc; simpl. apply IH. rewrite E'; exact Hrest.
Qed.

Lemma occurs_skipn c n s : occurs c s = false -> occurs c (skipn n s) = false.
Proof.
  revert s; induction n as [|n IH]; intros [|x s]; simpl; auto.
  intros H; apply orb_false_iff in H. apply IH; tauto.
Qed.

Lemma readItem_discards (g : PgnGame Move) s (b : Board) :
  m_isEmpty g = true -> occurs "[" (remaining s) = false ->
  item (readItem g s b) = PgnError /\ game (readItem g s b) = g.
Proof.
  intros Hg Hno. unfold readItem, readItem_from.
  destruct (readItem_loop_total g Scan_init (skipWhiteSpace s)) as [r Hr].
  rewrite Hr.
  apply readItem_loop_discards in Hr; auto.
  - destruct Hr as [s' ->]; simpl. split; reflexivity.
  - unfold skipWhiteSpace. rewrite remaining_advance.
    apply occurs_skipn, Hno.
Qed.

(** C5: a stream in which no [[] is left to read gives an empty record
    without moves, whatever [maxMoves] is. *)
Theorem parse_without_bracket (s : QTextStream) (maxMoves : Z) :
  occurs "[" (remaining s) = false ->
  m_isEmpty (PgnGame_read (Board:=Board) s maxMoves) = true
  /\ m_moves (PgnGame_read (Board:=Board) s maxMoves) = [].
Proof.
  intros Hno.
  assert (H : p_game (parse (Board:=Board) s maxMoves) = startGame);
    [|unfold PgnGame_read; rewrite H; split; reflexivity].
  unfold parse, passes; simpl.
  destruct (parse_cond maxMoves (parse_start s)); [|reflexivity].
  unfold parse_body, parse_start at 1 2 3; simpl.
  destruct (readItem_discards startGame s startBoard eq_refl Hno) as [-> ->].
  reflexivity.
Qed.

(** C6: writing an empty record leaves every file as it is. *)
Theorem write_empty (g : PgnGame Move) (filename : QString) (today : QDate)
        (fs : Files) :
  m_isEmpty g = true -> write g filename today fs = fs.
Proof. intros H; unfold write; rewrite H; reflexivity. Qed.

Lemma rem_of_nat (i k : nat) :
  k <> 0 -> (Z.rem (Z.of_nat i) (Z.of_nat k) =? 0)%Z = (i mod k =? 0).
Proof.
  intros Hk. rewrite Z.rem_mod_nonneg by lia.
  rewrite <- Nat2Z.inj_mod.
  destruct (i mod k =? 0) eqn:E.
  - apply Nat.eqb_eq in E; rewrite E; reflexivity.
  - apply Nat.eqb_neq in E. apply Z.eqb_neq; lia.
Qed.

Lemma quot_of_nat (i : nat) :
  (Z.quot (Z.of_nat i) 2 + 1)%Z = Z.of_nat (i / 2 + 1).
Proof.
  rewrite Z.quot_div_nonneg by lia.
  rewrite Nat2Z.inj_add, (Nat2Z.inj_div i 2); reflexivity.
Qed.

(** The loop of the writer from ply [length pre] on, against the
    ply-by-ply text. *)
Lemma write_moves_plies (b0 : Board) (post pre : list Move) :
  write_moves (fold_left makeMove pre b0) (Z.of_nat (length pre)) post
  = flat_map (plyText b0 (pre ++ post)) (seq (length pre) (length post)).
Proof.
  revert pre; induction post as [|m post IH]; intros pre; [reflexivity|].
  cbn [write_moves length seq flat_map].
  assert (Hn : nth_error (pre ++ m :: post) (length pre) = Some m)
    by (rewrite nth_error_app2, Nat.sub_diag by lia; reflexivity).
  assert (Hb : boardBefore b0 (pre ++ m :: post) (length pre)
               = fold_left makeMove pre b0).
  { unfold boardBefore. rewrite firstn_app, Nat.sub_diag, firstn_all.
    simpl; rewrite app_nil_r; reflexivity. }
  unfold plyText at 1. rewrite Hn, Hb.
  rewrite quot_of_nat.
  change 8%Z with (Z.of_nat 8). change 2%Z with (Z.of_nat 2).
  rewrite (rem_of_nat (length pre) 8), (rem_of_nat (length pre) 2) by lia.
  rewrite <- !app_assoc. do 3 f_equal.
  specialize (IH (pre ++ [m])).
  rewrite fold_left_app, length_app, <- app_assoc in IH; simpl in IH.
  replace (Z.of_nat (length pre) + 1)%Z
    with (Z.of_nat (length pre + 1)) by lia.
  rewrite IH. replace (length pre + 1) with (S (length pre)) by lia.
  reflexivity.
Qed.

(** C7: a record that is not empty, written to a file that can be opened,
    appends its tags, then ply by ply the text of [plyText] (a line break
    before ply [i] exactly when [i] is a multiple of 8, the number
    [i / 2 + 1] with a period exactly when [i] is even, the notation taken
    from the board before the move is made), then the result and an empty
    line. *)
Theorem write_move_text (g : PgnGame Move) (filename : QString)
        (today : QDate) (fs : Files) :
  m_isEmpty g = false -> appendable fs filename = true ->
  write g filename today fs
  = appendTo filename
             (write_tags g (Date.toString today)
              ++ moveText (replayBoard g) (m_moves g)
              ++ resultToString (m_result g) ++ [LF; LF]) fs.
Proof.
  intros He Ha. unfold write, write_text. rewrite He, Ha.
  f_equal. f_equal. f_equal.
  apply (write_moves_plies (replayBoard g) (m_moves g) []).
Qed.


Lemma afterPasses_scans n (g : PgnGame Move) sc s sc' s' :
  afterPasses n g sc s = Some (sc', s') -> scans g sc s sc' s'.
Proof.
  revert sc s; induction n as [|n IH]; intros sc s; simpl.
  - intros [= -> ->]; constructor.
  - destruct (Status_eqb (status s) Ok) eqn:Hs; [|discriminate].
    apply Status_eqb_eq in Hs.
    destruct (readItem_body g sc s) as [sc1 s1| |] eqn:E; try discriminate.
    intros H. eapply scans_pass; eauto.
Qed.

(** *** The empty record *)

Lemma accumulate_keeps c sc s :
  match accumulate c sc s with
  | Continue sc' _ | Break sc' _ =>
      itemType sc' = itemType sc /\ openingBracket sc' = openingBracket sc
  | Return _ _ _ => False
  end.
Proof.
  unfold accumulate.
  repeat match goal with
         | |- context [if ?b then _ else _] => destruct b
         end; simpl; auto.
Qed.

(** A pass keeps an empty record waiting for a tag or inside one. *)
Lemma readItem_body_empty (g : PgnGame Move) sc s :
  m_isEmpty g = true -> awaitsTag sc \/ insideTag sc ->
  match readItem_body g sc s with
  | Continue sc' _ | Break sc' _ => awaitsTag sc' \/ insideTag sc'
  | Return _ _ _ => True
  end.
Proof.
  intros Hg [(Ht & Hstr & Ho)|(Ht & Ho)]; unfold readItem_body;
    destruct (readChar s) as [c s1]; rewrite Hg, Ht; simpl.
  - destruct (c =c? "[") eqn:Hc; simpl;
      [|left; unfold awaitsTag; auto].
    apply QCh_eqb_eq in Hc; subst c. simpl.
    rewrite Ho, Hstr; simpl.
    unfold atBracket; cbv zeta.
    change ("[" =c? "[") with true; cbv iota.
    destruct (0 <? length (m_moves g)); simpl; [exact I|].
    unfold accumulate; simpl. right; split; reflexivity.
  - destruct ((c =c? LF) || (c =c? CR)); simpl;
      [right; split; assumption|].
    rewrite Ho; simpl.
    pose proof (accumulate_keeps c sc s1) as H.
    destruct (accumulate c sc s1); auto;
      right; destruct H as [H1 H2]; split; congruence.
Qed.

Lemma readItem_loop_empty fuel (g : PgnGame Move) sc s sc' s' :
  m_isEmpty g = true -> awaitsTag sc \/ insideTag sc ->
  readItem_loop fuel g sc s = Some (Stopped sc' s') ->
  awaitsTag sc' \/ insideTag sc'.
Proof.
  intros Hg. revert sc s; induction fuel as [|fuel IH]; intros sc s Hsc;
    [discriminate|].
  simpl. destruct (Status_eqb (status s) Ok); [|intros [= <- <-]; exact Hsc].
  pose proof (readItem_body_empty g sc s Hg Hsc) as H.
  destruct (readItem_body g sc s) as [sc1 s1|sc1 s1|]; [|intros [= <- <-]|].
  - apply IH; assumption.
  - exact H.
  - discriminate.
Qed.

Lemma readTag_kind t (g : PgnGame Move) s (b : Board) :
  (item (readTag t g s b) = PgnTag \/ item (readTag t g s b) = PgnError)
  /\ ~ In NoTagsFound (debug (readTag t g s b)).
Proof.
  unfold readTag, applyTag.
  repeat match goal with
         | |- context [if ?c then _ else _] => destruct c
         | |- context [let (_, _) := ?c in _] => destruct c
         end; simpl; split; auto; intros [H|[]]; discriminate.
Qed.

(** What the code after the loop does in these two situations. *)
Lemma readItem_finish_empty (g : PgnGame Move) sc s (b : Board) :
  awaitsTag sc \/ insideTag sc ->
  (item (readItem_finish g sc s b) = PgnTag
   \/ item (readItem_finish g sc s b) = PgnError)
  /\ ~ In NoTagsFound (debug (readItem_finish g sc s b)).
Proof.
  unfold readItem_finish. intros [(Ht & Hstr & _)|(Ht & _)].
  - rewrite Hstr; simpl. split; auto.
  - rewrite Ht; simpl.
    destruct (QStr.isEmpty _); simpl; [split; auto|].
    apply readTag_kind.
Qed.

(** C10: as long as the record is empty, [readItem] gives a tag or an
    error and never reports "No tags found": the branch of line 218 is
    not taken. *)
Theorem readItem_empty_record (g : PgnGame Move) (s : QTextStream)
        (b : Board) :
  m_isEmpty g = true ->
  (item (readItem g s b) = PgnTag \/ item (readItem g s b) = PgnError)
  /\ ~ In NoTagsFound (debug (readItem g s b)).
Proof.
  intros Hg. unfold readItem, readItem_from.
  destruct (readItem_loop _ _ _ _) as [[sc' s'|it s' d]|] eqn:E; simpl.
  - apply readItem_finish_empty.
    apply (readItem_loop_empty _ _ _ _ _ _ Hg) in E; [exact E|].
    left; repeat split; reflexivity.
  - apply readItem_loop_returned in E. destruct E as (-> & -> & _).
    split; auto. intros [H|[]]; discriminate.
  - split; auto.
Qed.

(** When the record is not empty the branch is not taken either: no call
    of [readItem] reports "No tags found". *)
Lemma readItem_never_no_tags (g : PgnGame Move) (s : QTextStream)
      (b : Board) :
  ~ In NoTagsFound (debug (readItem g s b)).
Proof.
  unfold readItem, readItem_from.
  destruct (readItem_loop _ _ _ _) as [[sc' s'|it s' d]|] eqn:E; simpl;
    [| |tauto].
  - destruct (m_isEmpty g) eqn:Hg.
    + apply readItem_finish_empty.
      apply (readItem_loop_empty _ _ _ _ _ _ Hg) in E; [exact E|].
      left; repeat split; reflexivity.
    + unfold readItem_finish, readTag, applyTag, readMove, readNag.
      rewrite Hg.
      repeat match goal with
             | |- context [if ?c then _ else _] => destruct c
             | |- context [match ?c with _ => _ end] => destruct c
             end; simpl; intuition discriminate.
  - apply readItem_loop_returned in E. destruct E as (_ & -> & _).
    intros [H|[]]; discriminate.
Qed.

(** *** Numeric annotation glyphs *)

(** C9: when the loop of [readItem] ends on a numeric annotation glyph, the
    call fails exactly when the trimmed token is no integer or an integer
    outside 0..255, and gives [PgnNag] otherwise; either way the record,
    and so its moves, and the board are as before: the value is not
    kept. *)
Theorem readItem_nag (g : PgnGame Move) (s : QTextStream) (b : Board)
        (fuel : nat) (sc' : Scan) (s' : QTextStream) :
  readItem_loop fuel g Scan_init (skipWhiteSpace s) = Some (Stopped sc' s') ->
  itemType sc' = PgnNag ->
  let r := readItem g s b in
  (item r = PgnError <->
   match QStr.toInt (QStr.trimmed (str sc')) with
   | Some nag => (nag < 0 \/ 255 < nag)%Z
   | None => True
   end)
  /\ (item r = PgnError \/ item r = PgnNag)
  /\ game r = g /\ board r = b /\ stream r = s'.
Proof.
  intros Hl Ht r. subst r. unfold readItem.
  rewrite (readItem_from_loop _ _ _ _ _ b Hl); simpl.
  unfold readItem_finish. rewrite Ht; simpl.
  destruct (QStr.trimmed (str sc')) as [|c t] eqn:Et; simpl.
  - repeat split; auto.
  - unfold readNag.
    destruct (QStr.toInt (c :: t)) as [nag|]; [|simpl; repeat split; auto].
    destruct (nag <? 0)%Z eqn:E1; simpl.
    + apply Z.ltb_lt in E1. repeat split; auto.
    + apply Z.ltb_ge in E1. destruct (255 <? nag)%Z eqn:E2; simpl.
      * apply Z.ltb_lt in E2. repeat split; auto.
      * apply Z.ltb_ge in E2. repeat split; auto; try discriminate.
        intros [?|?]; lia.
Qed.

(** *** A tag after the moves *)

Lemma remaining_position s c rest :
  remaining s = c :: rest -> position s < length (buffer s).
Proof.
  unfold remaining; intros H.
  assert (length (skipn (position s) (buffer s)) > 0)
    by (rewrite H; simpl; lia).
  rewrite length_skipn in H0. lia.
Qed.

Lemma seek_back s c rest :
  remaining s = c :: rest -> seek (pos (advance 1 s) - 1) (advance 1 s) = s.
Proof.
  intros H. apply remaining_position in H.
  unfold seek, pos, advance; simpl.
  replace (Z.of_nat (position s + 1) - 1)%Z with (Z.of_nat (position s))
    by lia.
  rewrite Nat2Z.id.
  destruct (_ && _) eqn:E.
  - destruct s; reflexivity.
  - apply andb_false_iff in E. destruct E as [E|E];
      [apply Z.leb_gt in E|apply Z.leb_gt in E]; lia.
Qed.

(** C3, as amended: with moves in the record, when the loop of [readItem]
    reads a [[] while no bracket is open, the call fails and reports "No
    termination marker"; the stream is put back by one character, to where
    the [[] is the next one read, and the record and the board are as
    before. *)
Theorem readItem_tag_after_moves (g : PgnGame Move) (s : QTextStream)
        (b : Board) (n : nat) (sc' : Scan) (s' : QTextStream)
        (rest : QString) :
  m_moves g <> [] ->
  afterPasses n g Scan_init (skipWhiteSpace s) = Some (sc', s') ->
  QCh.isNull (openingBracket sc') = true ->
  status s' = Ok -> remaining s' = "[" :: rest ->
  let r := readItem g s b in
  item r = PgnError /\ debug r = [NoTerminationMarker]
  /\ game r = g /\ board r = b
  /\ stream r = s'
  /\ pos (stream r) = (pos (snd (readChar s')) - 1)%Z
  /\ fst (readChar (stream r)) = "[".
Proof.
  intros Hm Hn Ho Hs Hr r. subst r. unfold readItem.
  rewrite (scans_readItem_from _ _ _ _ _ b (afterPasses_scans _ _ _ _ _ _ Hn)).
  assert (E : readItem_body g sc' s'
              = Return PgnError s' [NoTerminationMarker]).
  { unfold readItem_body.
    destruct (readChar_cons _ _ _ Hr) as [-> _].
    change ("[" =c? "[") with true. rewrite andb_false_r.
    change (("[" =c? LF) || ("[" =c? CR)) with false. cbv iota.
    rewrite Ho.
    assert (Hb : forall sc0, atBracket g "[" sc0 (advance 1 s')
                             = Leave (Return PgnError s'
                                             [NoTerminationMarker])).
    { intros sc0. unfold atBracket; cbv zeta.
      change ("[" =c? "[") with true; cbv iota.
      destruct (m_moves g); [congruence|]. simpl.
      rewrite (seek_back _ _ _ Hr). reflexivity. }
    destruct (QStr.isEmpty (str sc')); simpl.
    - change (atTokenStart "[" sc' (advance 1 s')) with (Next sc').
      simpl. rewrite Hb; reflexivity.
    - rewrite Hb; reflexivity. }
  rewrite (readItem_from_return _ _ _ _ _ _ b Hs E); simpl.
  destruct (readChar_cons _ _ _ Hr) as [-> _]. simpl.
  repeat split; auto. unfold pos, advance; simpl. lia.
Qed.

(** *** The FEN tag *)

Lemma readTag_fen t (g : PgnGame Move) s (b : Board) value :
  QStr.section " " 0 (Some 0) t = qs "FEN" ->
  QStr.remove QUOTE (QStr.section " " 1 None t) = value ->
  readTag t g s b
  = if fst (setBoard b value)
    then mkRead PgnTag (setFen value g) s (snd (setBoard b value)) []
    else mkRead PgnError (setFen value g) s (snd (setBoard b value))
                [InvalidFen value].
Proof.
  intros H1 H2. unfold readTag, applyTag. rewrite H1, H2.
  change (qs "FEN" =s? qs "White") with false.
  change (qs "FEN" =s? qs "Black") with false.
  change (qs "FEN" =s? qs "Result") with false.
  change (qs "FEN" =s? qs "FEN") with true. cbv iota. simpl m_fen.
  destruct (setBoard b value) as [[|] b']; reflexivity.
Qed.

(** C4: when the loop of the constructor calls [readItem] and the item is
    a FEN tag, the record's start position becomes the value of the tag
    and the board is what [setBoard] leaves.  If [setBoard] refuses the
    value, the call fails, reporting "Invalid FEN", and the constructor's
    loop ends there, with the stream just after the tag; if it accepts,
    the call gives [PgnTag] and the loop goes on from that board. *)
Theorem readItem_fen_tag (maxMoves : Z) (p : Parser Board Move)
        (fuel n : nat) (sc' : Scan) (s' : QTextStream) (value : QString) :
  parse_cond maxMoves p = true ->
  readItem_loop fuel (p_game p) Scan_init (skipWhiteSpace (p_stream p))
  = Some (Stopped sc' s') ->
  itemType sc' = PgnTag ->
  QStr.section " " 0 (Some 0) (QStr.trimmed (str sc')) = qs "FEN" ->
  QStr.remove QUOTE (QStr.section " " 1 None (QStr.trimmed (str sc')))
  = value ->
  let r := readItem (p_game p) (p_stream p) (p_board p) in
  let g' := setFen value (p_game p) in
  let b' := snd (setBoard (p_board p) value) in
  game r = g' /\ m_fen (game r) = value /\ board r = b' /\ stream r = s'
  /\ if fst (setBoard (p_board p) value)
     then item r = PgnTag
          /\ parse_loop (S n) maxMoves p
             = parse_loop n maxMoves
                          (mkParser (setIsEmpty false g') s' b' (p_debug p))
     else item r = PgnError /\ debug r = [InvalidFen value]
          /\ parse_loop (S n) maxMoves p
             = Some (mkParser g' s' b' (p_debug p ++ [InvalidFen value])).
Proof.
  intros Hc Hl Ht Htag Hval r g' b'.
  assert (Hr : r = if fst (setBoard (p_board p) value)
                   then mkRead PgnTag g' s' b' []
                   else mkRead PgnError g' s' b' [InvalidFen value]).
  { subst r. unfold readItem.
    rewrite (readItem_from_loop _ _ _ _ _ (p_board p) Hl); simpl.
    unfold readItem_finish. rewrite Ht; simpl.
    destruct (QStr.trimmed (str sc')) as [|c t] eqn:Et;
      [discriminate Htag|]. simpl QStr.isEmpty. cbv iota.
    apply readTag_fen; assumption. }
  assert (Hb : parse_body p
               = match item r with
                 | PgnError =>
                     (false, mkParser (game r) (stream r) (board r)
                                      (p_debug p ++ debug r))
                 | PgnTag =>
                     (true, mkParser (setIsEmpty false (game r)) (stream r)
                                     (board r) (p_debug p ++ debug r))
                 | PgnResult =>
                     (false, mkParser (game r) (stream r) (board r)
                                      (p_debug p ++ debug r))
                 | _ => (true, mkParser (game r) (stream r) (board r)
                                        (p_debug p ++ debug r))
                 end) by reflexivity.
  cbn [parse_loop]. rewrite Hc, Hb. clearbody r. subst r.
  destruct (fst (setBoard (p_board p) value)); simpl;
    rewrite ?app_nil_r; repeat split; reflexivity.
Qed.

End Claims.

(** ** Strings that are read back as written *)

Arguments QCh.eqb : simpl never.
Arguments QCh.isSpace : simpl never.
Arguments QCh.isDigit : simpl never.
Arguments QCh.isNull : simpl never.

(** [c] is not the character [k], because [k] fails a test [c] passes. *)
Ltac differs c k :=
  let E := fresh "E" in
  destruct (c =c? k) eqn:E;
  [apply QCh_eqb_eq in E; subst c; discriminate|reflexivity].

Module QStrFacts.

Import QStr.

Lemma dropSpaces_solid s : solidHead s -> dropSpaces s = s.
Proof. destruct s as [|c s]; simpl; [reflexivity|intros ->; reflexivity]. Qed.

Lemma trimmed_solid s : solidHead s -> solidHead (rev s) -> trimmed s = s.
Proof.
  intros H1 H2. unfold trimmed.
  rewrite (dropSpaces_solid s H1), (dropSpaces_solid _ H2).
  apply rev_involutive.
Qed.

Lemma solidHead_rev_last s c :
  QCh.isSpace c = false -> solidHead (rev (s ++ [c])).
Proof. intros H; rewrite rev_app_distr; exact H. Qed.

Lemma split_nonnil sep s : split sep s <> [].
Proof.
  destruct s as [|c s]; simpl; [discriminate|].
  destruct (c =c? sep); [discriminate|].
  destruct (split sep s); discriminate.
Qed.

Lemma split_app sep a b :
  occurs sep a = false -> split sep (a ++ sep :: b) = a :: split sep b.
Proof.
  induction a as [|c a IH]; simpl.
  - intros _. rewrite QCh_eqb_refl; reflexivity.
  - intros H. apply orb_false_iff in H. destruct H as [Hc Ha].
    rewrite Hc, (IH Ha); reflexivity.
Qed.

Lemma join_split sep s : join sep (split sep s) = s.
Proof.
  induction s as [|c s IH]; [reflexivity|].
  simpl. destruct (c =c? sep) eqn:E.
  - apply QCh_eqb_eq in E; subst c.
    pose proof (split_nonnil sep s).
    simpl. destruct (split sep s) as [|f fs]; [contradiction|].
    rewrite IH; reflexivity.
  - destruct (split sep s) as [|f fs] eqn:Es; [destruct (split_nonnil _ _ Es)|].
    rewrite <- IH. simpl. destruct fs; reflexivity.
Qed.

(** The two sections [readItem] takes of a tag. *)
Lemma section_name sep name rest :
  occurs sep name = false ->
  section sep 0 (Some 0) (name ++ sep :: rest) = name.
Proof.
  intros H. unfold section. rewrite (split_app _ _ _ H). reflexivity.
Qed.

Lemma section_rest sep name rest :
  occurs sep name = false ->
  section sep 1 None (name ++ sep :: rest) = rest.
Proof.
  intros H. unfold section. rewrite (split_app _ _ _ H). simpl.
  apply join_split.
Qed.

Lemma remove_absent c s : occurs c s = false -> remove c s = s.
Proof.
  induction s as [|x s IH]; simpl; [reflexivity|].
  intros H. apply orb_false_iff in H. destruct H as [Hx Hs].
  rewrite Hx; simpl. rewrite (IH Hs); reflexivity.
Qed.

Lemma remove_quoted v :
  occurs QUOTE v = false -> remove QUOTE (QUOTE :: v ++ [QUOTE]) = v.
Proof.
  intros H. unfold remove. simpl. rewrite filter_app. simpl.
  fold (remove QUOTE v). rewrite (remove_absent _ _ H). apply app_nil_r.
Qed.

Lemma tagSafe_unquoted v : tagSafe v = true -> occurs QUOTE v = false.
Proof.
  induction v as [|c v IH]; simpl; [reflexivity|].
  rewrite andb_true_iff, andb_true_iff, negb_true_iff.
  intros [[_ ->] H]. rewrite (IH H). reflexivity.
Qed.

Lemma tagSafe_tagChars v : tagSafe v = true -> forallb tagChar v = true.
Proof.
  induction v as [|c v IH]; simpl; [reflexivity|].
  rewrite andb_true_iff, andb_true_iff.
  intros [[-> _] H]. rewrite (IH H). reflexivity.
Qed.

(** Numerals are made of digits. *)
Lemma ofUint_digits u : forallb QCh.isDigit (ofUint u) = true.
Proof. induction u; simpl; try rewrite IHu; reflexivity. Qed.

Lemma number_of_nat k :
  forallb QCh.isDigit (number (Z.of_nat k)) = true
  /\ number (Z.of_nat k) <> [].
Proof.
  unfold number. destruct (Z.of_nat k) as [|p|p] eqn:E; simpl.
  - split; [reflexivity|discriminate].
  - split; [apply ofUint_digits|].
    pose proof (DecimalPos.Unsigned.to_uint_nonnil p) as H.
    destruct (Pos.to_uint p); [contradiction|..]; discriminate.
  - lia.
Qed.

Lemma digit_safe c : QCh.isDigit c = true -> tagChar c && negb (c =c? QUOTE) = true.
Proof.
  intros H. unfold tagChar.
  replace (c =c? "[") with false by (symmetry; differs c "[").
  replace (c =c? "]") with false by (symmetry; differs c "]").
  replace (c =c? LF) with false by (symmetry; differs c LF).
  replace (c =c? CR) with false by (symmetry; differs c CR).
  replace (c =c? QUOTE) with false by (symmetry; differs c QUOTE).
  reflexivity.
Qed.

Lemma digits_safe t : forallb QCh.isDigit t = true -> tagSafe t = true.
Proof.
  induction t as [|c t IH]; simpl; [reflexivity|].
  rewrite andb_true_iff. intros [Hc Ht].
  rewrite (digit_safe c Hc), (IH Ht). reflexivity.
Qed.

Lemma tagSafe_app a b :
  tagSafe a = true -> tagSafe b = true -> tagSafe (a ++ b) = true.
Proof. intros Ha Hb. unfold tagSafe. rewrite forallb_app. fold (tagSafe a). fold (tagSafe b). rewrite Ha, Hb; reflexivity. Qed.

Lemma padded_safe w n : tagSafe (Date.padded w n) = true.
Proof.
  unfold Date.padded. apply tagSafe_app.
  - induction (w - _) as [|k IHk]; [reflexivity|exact IHk].
  - apply digits_safe, number_of_nat.
Qed.

(** The date of the [Date] tag is read back as written. *)
Lemma date_safe d : tagSafe (Date.toString d) = true.
Proof.
  unfold Date.toString.
  apply tagSafe_app; [apply padded_safe|].
  apply (tagSafe_app ["."]); [reflexivity|].
  apply tagSafe_app; [apply padded_safe|].
  apply (tagSafe_app ["."]); [reflexivity|].
  apply padded_safe.
Qed.

Lemma result_safe r : tagSafe (resultToString r) = true.
Proof. destruct r; reflexivity. Qed.

End QStrFacts.

(** ** Reading what the writer wrote *)

Section StreamText.

Import TS TSFacts.

Lemma reading_char s c rest :
  reading s (c :: rest) ->
  readChar s = (c, advance 1 s) /\ reading (advance 1 s) rest.
Proof.
  intros [Hs Hr]. destruct (readChar_cons _ _ _ Hr) as [E1 E2].
  repeat split; assumption.
Qed.

Lemma spaces_app ws rest :
  forallb QCh.isSpace ws = true -> solidHead rest ->
  spaces (ws ++ rest) = length ws.
Proof.
  induction ws as [|c ws IH]; simpl.
  - intros _. destruct rest as [|c rest]; simpl; [reflexivity|].
    intros ->; reflexivity.
  - rewrite andb_true_iff. intros [-> Hws] Hr. rewrite (IH Hws Hr).
    reflexivity.
Qed.

(** [skipWhiteSpace] stops at what is no white space. *)
Lemma reading_skip s ws rest :
  reading s (ws ++ rest) -> forallb QCh.isSpace ws = true ->
  solidHead rest -> reading (skipWhiteSpace s) rest.
Proof.
  intros [Hs Hr] Hws Hrest. split; [exact Hs|].
  unfold skipWhiteSpace. rewrite remaining_advance, Hr.
  rewrite (spaces_app _ _ Hws Hrest).
  rewrite skipn_app, Nat.sub_diag, skipn_all. reflexivity.
Qed.

End StreamText.

Section PassFacts.

Context {Board Move : Type} {CB : ChessBoard Board Move}.
Import TS TSFacts.

Lemma plainChar_facts c :
  plainChar c = true ->
  QCh.isSpace c = false /\ QCh.isNull c = false
  /\ (c =c? "[") = false /\ (c =c? "(") = false /\ (c =c? "{") = false
  /\ (c =c? LF) = false /\ (c =c? CR) = false.
Proof.
  unfold plainChar. rewrite negb_true_iff, !orb_false_iff.
  intros ((((H1 & H2) & H3) & H4) & H5).
  repeat split; try assumption.
  - differs c LF.
  - differs c CR.
Qed.

Lemma space_facts c :
  QCh.isSpace c = true ->
  QCh.isNull c = false
  /\ (c =c? "[") = false /\ (c =c? "(") = false /\ (c =c? "{") = false.
Proof.
  intros H. repeat split.
  - unfold QCh.isNull. differs c QCh.null.
  - differs c "[".
  - differs c "(".
  - differs c "{".
Qed.

(** The first character of a token decides between a move and a move
    number. *)
Lemma pass_token_first (g : PgnGame Move) s c rest :
  reading s (c :: rest) -> m_isEmpty g = false -> firstChar c = true ->
  readItem_body g (outside PgnMove []) s
  = Continue (outside (if QCh.isDigit c then PgnMoveNumber else PgnMove) [c])
             (advance 1 s).
Proof.
  intros Hr Hg Hc. destruct (reading_char _ _ _ Hr) as [E _].
  unfold firstChar in Hc. rewrite andb_true_iff, negb_true_iff in Hc.
  destruct Hc as [Hp Hc]. rewrite !orb_false_iff in Hc.
  destruct Hc as (((C1 & C2) & C3) & C4).
  destruct (plainChar_facts c Hp) as (P1 & P2 & P3 & P4 & P5 & P6 & P7).
  unfold readItem_body. rewrite E, Hg. simpl.
  rewrite P6, P7. simpl.
  unfold atTokenStart. rewrite C1, C2, C3, C4. simpl.
  unfold QCh.isNull in P2.
  destruct (QCh.isDigit c); simpl; unfold atBracket; cbv zeta;
    rewrite P3, P4, P5; simpl; unfold accumulate; simpl;
    rewrite P2, P1; simpl; rewrite ?orb_false_r; try reflexivity.
  rewrite C3. reflexivity.
Qed.

(** One more character of a token. *)
Lemma pass_token_char (g : PgnGame Move) s c rest t acc :
  reading s (c :: rest) -> m_isEmpty g = false -> acc <> [] ->
  plainChar c = true ->
  t = PgnMove \/ (t = PgnMoveNumber /\ (c =c? ".") = false) ->
  readItem_body g (outside t acc) s
  = Continue (outside t (acc ++ [c])) (advance 1 s).
Proof.
  intros Hr Hg Hacc Hp Ht. destruct (reading_char _ _ _ Hr) as [E _].
  destruct (plainChar_facts c Hp) as (P1 & P2 & P3 & P4 & P5 & P6 & P7).
  unfold readItem_body. rewrite E, Hg. simpl.
  rewrite P6, P7. simpl.
  destruct acc as [|a acc]; [congruence|]. simpl.
  unfold atBracket; cbv zeta. rewrite P3, P4, P5. simpl.
  unfold accumulate; simpl. unfold QCh.isNull in P2. rewrite P2, P1.
  destruct Ht as [->|[-> Hd]]; simpl; [reflexivity|].
  rewrite Hd. reflexivity.
Qed.

(** The character that ends a token. *)
Lemma pass_token_end (g : PgnGame Move) s c rest t acc :
  reading s (c :: rest) -> m_isEmpty g = false -> acc <> [] ->
  (t = PgnMove /\ QCh.isSpace c = true)
  \/ (t = PgnMoveNumber /\ (QCh.isSpace c = true \/ c = ".")) ->
  readItem_body g (outside t acc) s = Break (outside t acc) (advance 1 s).
Proof.
  intros Hr Hg Hacc Ht. destruct (reading_char _ _ _ Hr) as [E _].
  unfold readItem_body. rewrite E, Hg. simpl.
  assert (Htc : (t =i? PgnComment) = false)
    by (destruct Ht as [[-> _]|[-> _]]; reflexivity).
  rewrite Htc. simpl. rewrite andb_true_r.
  destruct ((c =c? LF) || (c =c? CR)); [reflexivity|].
  destruct acc as [|a acc]; [congruence|]. simpl.
  destruct Ht as [[-> Hc]|[-> [Hc| ->]]].
  - destruct (space_facts c Hc) as (S1 & S2 & S3 & S4).
    unfold atBracket; cbv zeta. rewrite S2, S3, S4. simpl.
    unfold accumulate; simpl. unfold QCh.isNull in S1. rewrite S1, Hc.
    reflexivity.
  - destruct (space_facts c Hc) as (S1 & S2 & S3 & S4).
    unfold atBracket; cbv zeta. rewrite S2, S3, S4. simpl.
    unfold accumulate; simpl. unfold QCh.isNull in S1. rewrite S1, Hc.
    reflexivity.
  - reflexivity.
Qed.

(** The bracket that opens a tag, with no move in the record. *)
Lemma pass_tag_open (g : PgnGame Move) s rest :
  reading s ("[" :: rest) -> m_moves g = [] ->
  readItem_body g (outside PgnMove []) s
  = Continue (inTag 1 []) (advance 1 s).
Proof.
  intros Hr Hg. destruct (reading_char _ _ _ Hr) as [E _].
  unfold readItem_body. rewrite E. simpl.
  change ("[" =c? "[") with true. simpl. rewrite andb_false_r.
  unfold atBracket; cbv zeta. rewrite Hg. reflexivity.
Qed.

(** One more character of a tag. *)
Lemma pass_tag_char (g : PgnGame Move) s c rest acc :
  reading s (c :: rest) -> tagChar c = true ->
  readItem_body g (inTag 1 acc) s
  = Continue (inTag 1 (acc ++ [c])) (advance 1 s).
Proof.
  intros Hr Hc. destruct (reading_char _ _ _ Hr) as [E _].
  unfold tagChar in Hc. rewrite negb_true_iff, !orb_false_iff in Hc.
  destruct Hc as (((C1 & C2) & C3) & C4).
  unfold readItem_body. rewrite E. simpl.
  rewrite andb_false_r, C3, C4. simpl.
  unfold accumulate; simpl. rewrite C1, C2. reflexivity.
Qed.

(** The bracket that closes a tag. *)
Lemma pass_tag_close (g : PgnGame Move) s rest acc :
  reading s ("]" :: rest) ->
  readItem_body g (inTag 1 acc) s = Break (inTag 0 acc) (advance 1 s).
Proof.
  intros Hr. destruct (reading_char _ _ _ Hr) as [E _].
  unfold readItem_body. rewrite E. simpl.
  rewrite andb_false_r. reflexivity.
Qed.

End PassFacts.

Section Items.

Context {Board Move : Type} {CB : ChessBoard Board Move}.
Import TS TSFacts QStrFacts.

(** The characters of a token after its first, one pass each. *)
Lemma scans_token_chars (g : PgnGame Move) cs :
  forall s rest t acc,
    reading s (cs ++ rest) -> m_isEmpty g = false -> acc <> [] ->
    forallb plainChar cs = true ->
    t = PgnMove \/ (t = PgnMoveNumber /\ occurs "." cs = false) ->
    exists s', scans g (outside t acc) s (outside t (acc ++ cs)) s'
               /\ reading s' rest.
Proof.
  induction cs as [|c cs IH]; intros s rest t acc Hr Hg Hacc Hp Ht.
  - exists s. rewrite app_nil_r. split; [constructor|exact Hr].
  - simpl in Hp. apply andb_true_iff in Hp. destruct Hp as [Hc Hp].
    destruct (reading_char _ _ _ Hr) as [_ Hr1].
    assert (Ht1 : t = PgnMove \/ (t = PgnMoveNumber /\ (c =c? ".") = false)).
    { destruct Ht as [->|[-> H]]; [auto|right].
      simpl in H. apply orb_false_iff in H. tauto. }
    assert (Ht2 : t = PgnMove \/ (t = PgnMoveNumber /\ occurs "." cs = false)).
    { destruct Ht as [->|[-> H]]; [auto|right].
      simpl in H. apply orb_false_iff in H. tauto. }
    destruct (IH (advance 1 s) rest t (acc ++ [c]) Hr1 Hg) as (s' & Hsc & Hr');
      try assumption.
    { destruct acc; discriminate. }
    exists s'. split; [|exact Hr'].
    eapply scans_pass; [exact (proj1 Hr)| |].
    + apply (pass_token_char g s c (cs ++ rest)); assumption.
    + rewrite <- app_assoc in Hsc. exact Hsc.
Qed.

(** The characters of a tag, one pass each. *)
Lemma scans_tag_chars (g : PgnGame Move) cs :
  forall s rest acc,
    reading s (cs ++ rest) -> forallb tagChar cs = true ->
    exists s', scans g (inTag 1 acc) s (inTag 1 (acc ++ cs)) s'
               /\ reading s' rest.
Proof.
  induction cs as [|c cs IH]; intros s rest acc Hr Hp.
  - exists s. rewrite app_nil_r. split; [constructor|exact Hr].
  - simpl in Hp. apply andb_true_iff in Hp. destruct Hp as [Hc Hp].
    destruct (reading_char _ _ _ Hr) as [_ Hr1].
    destruct (IH (advance 1 s) rest (acc ++ [c]) Hr1 Hp) as (s' & Hsc & Hr').
    exists s'. split; [|exact Hr'].
    eapply scans_pass; [exact (proj1 Hr)| |].
    + apply (pass_tag_char g s c (cs ++ rest)); assumption.
    + rewrite <- app_assoc in Hsc. exact Hsc.
Qed.

(** A token outside brackets, white space before it and its end after
    it: [readItem] goes on with exactly the token. *)
Lemma readItem_token (g : PgnGame Move) s (b : Board) ws c cs term rest :
  reading s (ws ++ c :: cs ++ term :: rest) ->
  forallb QCh.isSpace ws = true -> m_isEmpty g = false ->
  firstChar c = true -> forallb plainChar cs = true ->
  (QCh.isDigit c = false /\ QCh.isSpace term = true)
  \/ (QCh.isDigit c = true /\ occurs "." cs = false
      /\ (QCh.isSpace term = true \/ term = ".")) ->
  exists s',
    readItem g s b
    = readItem_finish g (outside (if QCh.isDigit c then PgnMoveNumber
                                  else PgnMove) (c :: cs)) s' b
    /\ reading s' rest.
Proof.
  intros Hr Hws Hg Hc Hcs Hterm.
  assert (Hpc : plainChar c = true)
    by (unfold firstChar in Hc; apply andb_true_iff in Hc; tauto).
  destruct (plainChar_facts c Hpc) as (Hsp & _).
  pose proof (reading_skip s ws _ Hr Hws Hsp) as Hr0.
  destruct (reading_char _ _ _ Hr0) as [_ Hr1].
  set (t := if QCh.isDigit c then PgnMoveNumber else PgnMove).
  assert (Ht : t = PgnMove \/ (t = PgnMoveNumber /\ occurs "." cs = false)).
  { subst t. destruct Hterm as [[-> _]|[-> [H _]]]; auto. }
  destruct (scans_token_chars g cs (advance 1 (skipWhiteSpace s))
                              (term :: rest) t [c] Hr1 Hg)
    as (s1 & Hsc & Hr2); try assumption; [discriminate|].
  destruct (reading_char _ _ _ Hr2) as [_ Hr3].
  exists (advance 1 s1). split; [|exact Hr3].
  unfold readItem. change Scan_init with (outside PgnMove []).
  rewrite (scans_readItem_from g (outside PgnMove [])
                               (skipWhiteSpace s) (outside t ([c] ++ cs)) s1).
  - apply readItem_from_break; [exact (proj1 Hr2)|].
    apply (pass_token_end g s1 term rest); try assumption; [discriminate|].
    subst t. destruct Hterm as [[-> H]|[-> [_ H]]]; auto.
  - eapply scans_pass; [exact (proj1 Hr0)| |exact Hsc].
    apply (pass_token_first g _ c (cs ++ term :: rest)); assumption.
Qed.

(** A tag pair on its line, white space before it: [readItem] goes on
    with the name, a space and the quoted value. *)
Lemma readItem_tagLine (g : PgnGame Move) s (b : Board) ws name value rest :
  reading s (ws ++ tagLine name value ++ rest) ->
  forallb QCh.isSpace ws = true -> m_moves g = [] ->
  forallb tagChar name = true -> tagSafe value = true ->
  exists s',
    readItem g s b
    = readItem_finish g (inTag 0 (name ++ " " :: QUOTE :: value ++ [QUOTE]))
                      s' b
    /\ reading s' (LF :: rest).
Proof.
  intros Hr Hws Hg Hname Hvalue.
  set (body := name ++ " " :: QUOTE :: value ++ [QUOTE]).
  assert (Htext : tagLine name value ++ rest
                  = "[" :: body ++ "]" :: LF :: rest).
  { unfold tagLine, body. simpl. rewrite <- !app_assoc. simpl.
    rewrite <- !app_assoc. reflexivity. }
  rewrite Htext in Hr.
  assert (Hbody : forallb tagChar body = true).
  { unfold body. rewrite forallb_app, Hname. simpl.
    rewrite forallb_app, (tagSafe_tagChars _ Hvalue). reflexivity. }
  pose proof (reading_skip s ws _ Hr Hws eq_refl) as Hr0.
  destruct (reading_char _ _ _ Hr0) as [_ Hr1].
  destruct (scans_tag_chars g body (advance 1 (skipWhiteSpace s))
                            ("]" :: LF :: rest) [] Hr1 Hbody)
    as (s1 & Hsc & Hr2).
  destruct (reading_char _ _ _ Hr2) as [_ Hr3].
  exists (advance 1 s1). split; [|exact Hr3].
  unfold readItem. change Scan_init with (outside PgnMove []).
  rewrite (scans_readItem_from g (outside PgnMove [])
                               (skipWhiteSpace s) (inTag 1 ([] ++ body)) s1).
  - apply readItem_from_break; [exact (proj1 Hr2)|].
    apply (pass_tag_close g s1 (LF :: rest)). exact Hr2.
  - eapply scans_pass; [exact (proj1 Hr0)| |exact Hsc].
    apply (pass_tag_open g _ (body ++ "]" :: LF :: rest)); assumption.
Qed.

End Items.

Section Finish.

Context {Board Move : Type} {CB : ChessBoard Board Move}.
Import TS TSFacts QStrFacts.

Lemma solidHead_forallb t :
  forallb (fun c => negb (QCh.isSpace c)) t = true -> solidHead t.
Proof.
  destruct t as [|c t]; simpl; [trivial|].
  rewrite andb_true_iff, negb_true_iff; tauto.
Qed.

Lemma forallb_rev {A} (f : A -> bool) l :
  forallb f l = true -> forallb f (rev l) = true.
Proof.
  rewrite !forallb_forall. intros H x Hx. apply H, in_rev, Hx.
Qed.

(** A token without white space is its own trimmed form. *)
Lemma trimmed_token t :
  forallb (fun c => negb (QCh.isSpace c)) t = true -> QStr.trimmed t = t.
Proof.
  intros H. apply trimmed_solid; apply solidHead_forallb;
    [exact H|apply forallb_rev, H].
Qed.

Lemma digit_not_space c : QCh.isDigit c = true -> QCh.isSpace c = false.
Proof.
  unfold QCh.isDigit, QCh.isSpace.
  rewrite andb_true_iff, !orb_false_iff, andb_false_iff.
  rewrite !Nat.leb_le, !Nat.leb_gt, !Nat.eqb_neq. lia.
Qed.

Lemma digit_plain c : QCh.isDigit c = true -> plainChar c = true.
Proof.
  intros H. unfold plainChar, QCh.isNull.
  rewrite (digit_not_space c H).
  replace (c =c? QCh.null) with false by (symmetry; differs c QCh.null).
  replace (c =c? "[") with false by (symmetry; differs c "[").
  replace (c =c? "(") with false by (symmetry; differs c "(").
  replace (c =c? "{") with false by (symmetry; differs c "{").
  reflexivity.
Qed.

Lemma digit_first c : QCh.isDigit c = true -> firstChar c = true.
Proof.
  intros H. unfold firstChar. rewrite (digit_plain c H).
  replace (c =c? ";") with false by (symmetry; differs c ";").
  replace (c =c? "%") with false by (symmetry; differs c "%").
  replace (c =c? ".") with false by (symmetry; differs c ".").
  replace (c =c? "$") with false by (symmetry; differs c "$").
  reflexivity.
Qed.

Lemma digits_plain t :
  forallb QCh.isDigit t = true ->
  forallb plainChar t = true /\ occurs "." t = false
  /\ forallb (fun c => negb (QCh.isSpace c)) t = true.
Proof.
  induction t as [|c t IH]; simpl; [auto|].
  rewrite andb_true_iff. intros [Hc Ht].
  destruct (IH Ht) as (-> & -> & ->).
  rewrite (digit_plain c Hc), (digit_not_space c Hc).
  replace (c =c? ".") with false by (symmetry; differs c ".").
  auto.
Qed.

Lemma plain_not_space t :
  forallb plainChar t = true ->
  forallb (fun c => negb (QCh.isSpace c)) t = true.
Proof.
  induction t as [|c t IH]; simpl; [auto|].
  rewrite andb_true_iff. intros [Hc Ht].
  destruct (plainChar_facts c Hc) as (-> & _). rewrite (IH Ht). reflexivity.
Qed.

(** A numeral is none of the four results. *)
Lemma digits_not_result t :
  forallb QCh.isDigit t = true -> isResultToken t = false.
Proof.
  intros H. unfold isResultToken.
  assert (E : forall k, forallb QCh.isDigit k = false -> (t =s? k) = false).
  { intros k Hk. apply QStr_eqb_neq. intros ->. congruence. }
  rewrite !E; reflexivity.
Qed.

(** What [readItem] does with a move number. *)
Lemma finish_number (g : PgnGame Move) t s (b : Board) :
  forallb QCh.isDigit t = true -> t <> [] ->
  readItem_finish g (outside PgnMoveNumber t) s b
  = mkRead PgnMoveNumber g s b [].
Proof.
  intros Hd Hne. unfold readItem_finish. simpl str.
  destruct (digits_plain t Hd) as (_ & _ & Hsp).
  rewrite (trimmed_token t Hsp), (digits_not_result t Hd).
  destruct t; [congruence|reflexivity].
Qed.

(** What [readItem] does with the notation of a move. *)
Lemma finish_move (g : PgnGame Move) t s (b : Board) :
  moveToken t = true ->
  readItem_finish g (outside PgnMove t) s b = readMove t g s b.
Proof.
  intros Ht. unfold readItem_finish. simpl str.
  destruct t as [|c t]; [discriminate|].
  unfold moveToken in Ht. rewrite !andb_true_iff, !negb_true_iff in Ht.
  destruct Ht as (((Hc & Hd) & Hp) & Hr).
  assert (Hsp : forallb (fun c => negb (QCh.isSpace c)) (c :: t) = true).
  { apply plain_not_space. simpl. rewrite Hp, andb_true_r.
    unfold firstChar in Hc. apply andb_true_iff in Hc. tauto. }
  rewrite (trimmed_token _ Hsp), Hr. simpl QStr.isEmpty. cbv iota.
  rewrite andb_false_r. reflexivity.
Qed.

(** What [readItem] does with the result the writer puts after the
    moves. *)
Lemma finish_result (g : PgnGame Move) r s (b : Board) t :
  t = PgnMove \/ t = PgnMoveNumber ->
  readItem_finish g (outside t (resultToString r)) s b
  = mkRead PgnResult
           (setResult (resultFromString (resultToString r)) g) s b
           (if negb (Result_eqb (resultFromString (resultToString r))
                                (m_result g))
            then [TerminationMarkerDiffers] else []).
Proof. intros [->| ->]; destruct r; reflexivity. Qed.

(** What [readItem] does with a tag pair. *)
Lemma finish_tag (g : PgnGame Move) name value s (b : Board) :
  tagName name = true -> tagSafe value = true ->
  readItem_finish g (inTag 0 (name ++ " " :: QUOTE :: value ++ [QUOTE])) s b
  = applyTag name value g s b.
Proof.
  intros Hn Hv. unfold tagName in Hn.
  rewrite !andb_true_iff, negb_true_iff in Hn. destruct Hn as ((Hh & _) & Hsp).
  set (body := name ++ " " :: QUOTE :: value ++ [QUOTE]).
  assert (Hbody : solidHead body /\ QStr.isEmpty body = false).
  { subst body. destruct name as [|c name]; [discriminate|].
    apply negb_true_iff in Hh. split; [exact Hh|reflexivity]. }
  assert (Hlast : solidHead (rev body)).
  { subst body.
    replace (name ++ " " :: QUOTE :: value ++ [QUOTE])
      with ((name ++ " " :: QUOTE :: value) ++ [QUOTE])
      by (rewrite <- app_assoc; reflexivity).
    apply solidHead_rev_last. reflexivity. }
  unfold readItem_finish. simpl str.
  rewrite (trimmed_solid body (proj1 Hbody) Hlast), (proj2 Hbody).
  simpl itemType. simpl andb. cbv iota.
  unfold readTag, body.
  rewrite (section_name " " name), (section_rest " " name) by exact Hsp.
  rewrite (remove_quoted value (tagSafe_unquoted _ Hv)). reflexivity.
Qed.

End Finish.

Section RoundTrip.

Context {Board Move : Type} {CB : ChessBoard Board Move}.
Import TS TSFacts QStrFacts.

Lemma runs_trans maxMoves (p p1 p2 : Parser Board Move) :
  runs maxMoves p p1 -> runs maxMoves p1 p2 -> runs maxMoves p p2.
Proof.
  induction 1; intros; [assumption|].
  eapply runs_pass; eauto.
Qed.

Lemma runs_loop maxMoves (p p' : Parser Board Move) :
  runs maxMoves p p' ->
  forall fuel q, parse_loop fuel maxMoves p' = Some q ->
                 exists fuel', parse_loop fuel' maxMoves p = Some q.
Proof.
  induction 1 as [|p p1 p' Hc Hb _ IH]; intros fuel q H; [eauto|].
  destruct (IH _ _ H) as [f Hf]. exists (S f); simpl.
  rewrite Hc, Hb; exact Hf.
Qed.

(** The body of the constructor's loop, by the item [readItem] gives. *)
Lemma parse_body_item (g : PgnGame Move) s (b : Board) d :
  let r := readItem g s b in
  parse_body (mkParser g s b d)
  = (match item r with PgnError | PgnResult => false | _ => true end,
     mkParser (match item r with
               | PgnTag => setIsEmpty false (game r)
               | _ => game r
               end) (stream r) (board r) (d ++ debug r)).
Proof.
  intros r. unfold parse_body. simpl. fold r. destruct (item r); reflexivity.
Qed.

Lemma parse_cond_reading maxMoves (g : PgnGame Move) s (b : Board) d text :
  reading s text -> (Z.of_nat (length (m_moves g)) < maxMoves)%Z ->
  parse_cond maxMoves (mkParser g s b d) = true.
Proof.
  intros [Hs _] Hm. unfold parse_cond. simpl. rewrite Hs. simpl.
  apply Z.ltb_lt, Hm.
Qed.

(** A pass of the constructor's loop over a tag pair that [readItem]
    accepts. *)
Lemma runs_tag maxMoves (g : PgnGame Move) s (b : Board) d ws name value rest
      g1 b1 d1 :
  reading s (ws ++ tagLine name value ++ rest) ->
  forallb QCh.isSpace ws = true -> m_moves g = [] -> (0 < maxMoves)%Z ->
  tagName name = true -> tagSafe value = true ->
  (forall s', applyTag name value g s' b = mkRead PgnTag g1 s' b1 d1) ->
  exists s' d',
    runs maxMoves (mkParser g s b d) (mkParser (setIsEmpty false g1) s' b1 d')
    /\ reading s' (LF :: rest).
Proof.
  intros Hr Hws Hg Hmax Hn Hv Happ.
  assert (Hn' : forallb tagChar name = true).
  { unfold tagName in Hn. rewrite !andb_true_iff in Hn. tauto. }
  destruct (readItem_tagLine g s b ws name value rest Hr Hws Hg Hn' Hv)
    as (s' & E & Hr').
  rewrite (finish_tag g name value s' b Hn Hv), Happ in E.
  exists s', (d ++ d1). split; [|exact Hr'].
  eapply runs_pass; [| |apply runs_here].
  - apply (parse_cond_reading _ _ _ _ _ _ Hr). rewrite Hg. exact Hmax.
  - rewrite parse_body_item, E. reflexivity.
Qed.

(** The same for a tag pair that is written or not. *)
Lemma runs_optional_tag maxMoves (g : PgnGame Move) s (b : Board) d ws
      (written : bool) name value rest g1 b1 d1 :
  reading s (ws ++ (if written then tagLine name value else []) ++ rest) ->
  forallb QCh.isSpace ws = true -> m_moves g = [] -> (0 < maxMoves)%Z ->
  tagName name = true -> tagSafe value = true ->
  (forall s', applyTag name value g s' b = mkRead PgnTag g1 s' b1 d1) ->
  exists s' d' ws',
    runs maxMoves (mkParser g s b d)
         (mkParser (if written then setIsEmpty false g1 else g) s'
                   (if written then b1 else b) d')
    /\ reading s' (ws' ++ rest) /\ forallb QCh.isSpace ws' = true.
Proof.
  intros Hr Hws Hg Hmax Hn Hv Happ. destruct written.
  - destruct (runs_tag maxMoves g s b d ws name value rest g1 b1 d1)
      as (s' & d' & Hruns & Hr'); try assumption.
    exists s', d', [LF]. auto.
  - exists s, d, ws. split; [apply runs_here|]. auto.
Qed.

(** A pass over a move number and its period. *)
Lemma runs_number maxMoves (g : PgnGame Move) s (b : Board) d ws k rest :
  reading s (ws ++ QStr.number (Z.of_nat k) ++ "." :: rest) ->
  forallb QCh.isSpace ws = true -> m_isEmpty g = false ->
  (Z.of_nat (length (m_moves g)) < maxMoves)%Z ->
  exists s' d',
    runs maxMoves (mkParser g s b d) (mkParser g s' b d') /\ reading s' rest.
Proof.
  intros Hr Hws Hg Hmax.
  destruct (number_of_nat k) as [Hd Hne].
  destruct (QStr.number (Z.of_nat k)) as [|c cs] eqn:En; [congruence|].
  simpl in Hd. apply andb_true_iff in Hd. destruct Hd as [Hc Hcs].
  destruct (digits_plain cs Hcs) as (Hp & Hdot & _).
  destruct (readItem_token g s b ws c cs "." rest Hr Hws Hg
                           (digit_first c Hc) Hp)
    as (s' & E & Hr'); [right; auto|].
  rewrite Hc, finish_number in E;
    [|simpl; rewrite Hc, Hcs; reflexivity|discriminate].
  exists s', (d ++ []). split; [|exact Hr'].
  eapply runs_pass; [| |apply runs_here].
  - apply (parse_cond_reading _ _ _ _ _ _ Hr Hmax).
  - rewrite parse_body_item, E. reflexivity.
Qed.

(** A pass over the notation of a legal move. *)
Lemma runs_move maxMoves (g : PgnGame Move) s (b : Board) d ws tok rest :
  reading s (ws ++ tok ++ " " :: rest) ->
  forallb QCh.isSpace ws = true -> m_isEmpty g = false ->
  (Z.of_nat (length (m_moves g)) < maxMoves)%Z ->
  moveToken tok = true -> isLegalMove b (moveFromString b tok) = true ->
  exists s' d',
    runs maxMoves (mkParser g s b d)
         (mkParser (setMoves (m_moves g ++ [moveFromString b tok]) g) s'
                   (makeMove b (moveFromString b tok)) d')
    /\ reading s' rest.
Proof.
  intros Hr Hws Hg Hmax Htok Hlegal.
  pose proof Htok as Htok'.
  destruct tok as [|c cs]; [discriminate|].
  unfold moveToken in Htok. rewrite !andb_true_iff, !negb_true_iff in Htok.
  destruct Htok as (((Hc & Hd) & Hp) & _).
  destruct (readItem_token g s b ws c cs " " rest Hr Hws Hg Hc Hp)
    as (s' & E & Hr'); [left; auto|].
  rewrite Hd, (finish_move g _ s' b Htok') in E.
  unfold readMove in E. rewrite Hg, Hlegal in E.
  exists s', (d ++ []). split; [|exact Hr'].
  eapply runs_pass; [| |apply runs_here].
  - apply (parse_cond_reading _ _ _ _ _ _ Hr Hmax).
  - rewrite parse_body_item, E. reflexivity.
Qed.

Lemma setMoves_same (g : PgnGame Move) : setMoves (m_moves g) g = g.
Proof. destruct g; reflexivity. Qed.

(** The passes over the move text of the writer: the moves are read back
    one by one, on the board the writer replayed them on. *)
Lemma runs_moves maxMoves post :
  forall pre (g : PgnGame Move) s (b : Board) d ws tail,
    m_moves g = pre -> m_isEmpty g = false -> playable b post ->
    reading s (ws ++ write_moves b (Z.of_nat (length pre)) post ++ tail) ->
    forallb QCh.isSpace ws = true ->
    (Z.of_nat (length pre + length post) < maxMoves)%Z ->
    exists s' d' ws',
      runs maxMoves (mkParser g s b d)
           (mkParser (setMoves (pre ++ post) g) s'
                     (fold_left makeMove post b) d')
      /\ reading s' (ws' ++ tail) /\ forallb QCh.isSpace ws' = true.
Proof.
  induction post as [|m post IH]; intros pre g s b d ws tail Hg He Hp Hr Hws
                                         Hmax.
  - exists s, d, ws. rewrite app_nil_r, <- Hg, setMoves_same.
    split; [apply runs_here|]. auto.
  - destruct Hp as (Htok & Hdec & Hleg & Hp).
    set (tok := moveString b m StandardAlgebraic) in *.
    cbn [write_moves] in Hr. fold tok in Hr.
    rewrite quot_of_nat in Hr.
    set (nl := if (Z.rem (Z.of_nat (length pre)) 8 =? 0)%Z then [LF] else [])
      in Hr.
    assert (Hnl : forallb QCh.isSpace (ws ++ nl) = true).
    { rewrite forallb_app, Hws. subst nl.
      destruct (_ =? _)%Z; reflexivity. }
    assert (Hlt : (Z.of_nat (length (m_moves g)) < maxMoves)%Z)
      by (rewrite Hg; simpl in Hmax; lia).
    assert (Hleg' : isLegalMove b (moveFromString b tok) = true)
      by (rewrite Hdec; exact Hleg).
    clearbody nl tok.
    (* the move number, when there is one, then the move *)
    assert (Hmove : exists s1 d1,
               runs maxMoves (mkParser g s b d)
                    (mkParser (setMoves (m_moves g ++ [m]) g) s1
                              (makeMove b m) d1)
               /\ reading s1 (write_moves (makeMove b m)
                                          (Z.of_nat (length pre) + 1) post
                              ++ tail)).
    { destruct (Z.rem (Z.of_nat (length pre)) 2 =? 0)%Z.
      - assert (Hr1 : reading s ((ws ++ nl)
                       ++ QStr.number (Z.of_nat (length pre / 2 + 1))
                       ++ "." :: [" "] ++ tok ++ " "
                       :: write_moves (makeMove b m)
                            (Z.of_nat (length pre) + 1) post ++ tail)).
        { split; [exact (proj1 Hr)|]. rewrite (proj2 Hr).
          repeat (rewrite <- !app_assoc; simpl). reflexivity. }
        destruct (runs_number maxMoves g s b d _ _ _ Hr1 Hnl He Hlt)
          as (s1 & d1 & Hruns1 & Hr2).
        destruct (runs_move maxMoves g s1 b d1 [" "] tok _ Hr2 eq_refl He Hlt
                            Htok Hleg')
          as (s2 & d2 & Hruns2 & Hr3).
        rewrite Hdec in Hruns2.
        exists s2, d2. split; [|exact Hr3].
        eapply runs_trans; eassumption.
      - assert (Hr1 : reading s ((ws ++ nl) ++ tok ++ " "
                       :: write_moves (makeMove b m)
                            (Z.of_nat (length pre) + 1) post ++ tail)).
        { split; [exact (proj1 Hr)|]. rewrite (proj2 Hr).
          repeat (rewrite <- !app_assoc; simpl). reflexivity. }
        destruct (runs_move maxMoves g s b d (ws ++ nl) tok _ Hr1 Hnl He Hlt
                            Htok Hleg')
          as (s2 & d2 & Hruns2 & Hr3).
        rewrite Hdec in Hruns2.
        exists s2, d2. split; assumption. }
    destruct Hmove as (s1 & d1 & Hruns & Hr1).
    replace (Z.of_nat (length pre) + 1)%Z
      with (Z.of_nat (length (pre ++ [m]))) in Hr1
      by (rewrite length_app; simpl; lia).
    assert (Hg1 : m_moves (setMoves (m_moves g ++ [m]) g) = pre ++ [m])
      by (simpl; rewrite Hg; reflexivity).
    assert (Hmax1 : (Z.of_nat (length (pre ++ [m]) + length post)
                     < maxMoves)%Z)
      by (rewrite length_app; simpl in Hmax |- *; lia).
    destruct (IH (pre ++ [m]) (setMoves (m_moves g ++ [m]) g) s1
                 (makeMove b m) d1 [] tail Hg1 He Hp Hr1 eq_refl Hmax1)
      as (s' & d' & ws' & Hruns' & Hr' & Hws').
    exists s', d', ws'. split; [|auto].
    eapply runs_trans; [exact Hruns|].
    rewrite <- app_assoc in Hruns'. exact Hruns'.
Qed.

(** The pass over the result after the moves: the loop ends there. *)
Lemma parse_result maxMoves (g : PgnGame Move) s (b : Board) d ws r :
  reading s (ws ++ resultToString r ++ [LF; LF]) ->
  forallb QCh.isSpace ws = true -> m_isEmpty g = false ->
  (Z.of_nat (length (m_moves g)) < maxMoves)%Z ->
  exists s' d',
    parse_loop 1 maxMoves (mkParser g s b d)
    = Some (mkParser (setResult (resultFromString (resultToString r)) g)
                     s' b d').
Proof.
  intros Hr Hws Hg Hmax.
  assert (Htok : exists c cs,
             resultToString r = c :: cs /\ firstChar c = true
             /\ forallb plainChar cs = true
             /\ (QCh.isDigit c = true -> occurs "." cs = false)).
  { destruct r; eexists; eexists; repeat split; reflexivity. }
  destruct Htok as (c & cs & Er & Hc & Hcs & Hdot).
  assert (Hr' : reading s (ws ++ c :: cs ++ LF :: [LF])).
  { destruct Hr as [Hs Hr]. split; [exact Hs|]. rewrite Hr, Er.
    rewrite <- app_comm_cons. reflexivity. }
  destruct (readItem_token g s b ws c cs LF [LF] Hr' Hws Hg Hc Hcs)
    as (s' & E & _).
  { destruct (QCh.isDigit c); [right|left]; auto. }
  rewrite <- Er in E. rewrite finish_result in E
    by (destruct (QCh.isDigit c); auto).
  eexists s', _. simpl.
  rewrite (parse_cond_reading _ _ _ _ _ _ Hr Hmax).
  rewrite parse_body_item, E. reflexivity.
Qed.

Lemma write_tags_standard (g : PgnGame Move) date :
  m_variant g = StandardChess ->
  write_tags g date
  = tagLine (qs "Date") date
    ++ tagLine (qs "White") (m_whitePlayer g)
    ++ tagLine (qs "Black") (m_blackPlayer g)
    ++ tagLine (qs "Result") (resultToString (m_result g))
    ++ (if m_isRandomVariant g
        then tagLine (qs "Variant") (qs "Fischerandom") else [])
    ++ (if negb (m_fen g =s? standardFen)
        then tagLine (qs "FEN") (m_fen g) else []).
Proof.
  intros Hv. unfold write_tags, variantAndFen. rewrite Hv.
  destruct (m_isRandomVariant g); reflexivity.
Qed.

(** The passes over the tags of a record of the standard variant: they
    leave the reader with the players, the result and the start position
    of the record, on the board the writer replays the game on. *)
Lemma runs_header maxMoves (g : PgnGame Move) today s tail :
  m_variant g = StandardChess ->
  tagSafe (m_whitePlayer g) = true -> tagSafe (m_blackPlayer g) = true ->
  tagSafe (m_fen g) = true -> startsAlike g -> (0 < maxMoves)%Z ->
  reading s (write_tags g (Date.toString today) ++ tail) ->
  exists s' d' ws' g',
    runs maxMoves (mkParser startGame s startBoard [])
         (mkParser g' s' (replayBoard g) d')
    /\ reading s' (ws' ++ tail) /\ forallb QCh.isSpace ws' = true
    /\ m_whitePlayer g' = m_whitePlayer g
    /\ m_blackPlayer g' = m_blackPlayer g
    /\ m_result g' = resultFromString (resultToString (m_result g))
    /\ m_fen g' = m_fen g /\ m_variant g' = StandardChess
    /\ m_moves g' = [] /\ m_isEmpty g' = false.
Proof.
  intros Hv Hw Hb Hf Hstart Hmax Hr.
  rewrite (write_tags_standard g _ Hv) in Hr.
  repeat rewrite <- app_assoc in Hr.
  destruct (runs_tag maxMoves startGame s startBoard [] [] (qs "Date")
                     (Date.toString today) _ startGame startBoard []
                     Hr eq_refl eq_refl Hmax eq_refl (date_safe today)
                     (fun _ => eq_refl))
    as (s1 & d1 & R1 & Hr1).
  set (g1 := setIsEmpty false startGame) in R1.
  destruct (runs_tag maxMoves g1 s1 startBoard d1 [LF] (qs "White")
                     (m_whitePlayer g) _
                     (setWhitePlayer (m_whitePlayer g) g1) startBoard []
                     Hr1 eq_refl eq_refl Hmax eq_refl Hw (fun _ => eq_refl))
    as (s2 & d2 & R2 & Hr2).
  set (g2 := setIsEmpty false (setWhitePlayer (m_whitePlayer g) g1)) in R2.
  destruct (runs_tag maxMoves g2 s2 startBoard d2 [LF] (qs "Black")
                     (m_blackPlayer g) _
                     (setBlackPlayer (m_blackPlayer g) g2) startBoard []
                     Hr2 eq_refl eq_refl Hmax eq_refl Hb (fun _ => eq_refl))
    as (s3 & d3 & R3 & Hr3).
  set (g3 := setIsEmpty false (setBlackPlayer (m_blackPlayer g) g2)) in R3.
  destruct (runs_tag maxMoves g3 s3 startBoard d3 [LF] (qs "Result")
                     (resultToString (m_result g)) _
                     (setResult (resultFromString
                                   (resultToString (m_result g))) g3)
                     startBoard _
                     Hr3 eq_refl eq_refl Hmax eq_refl
                     (result_safe (m_result g)) (fun _ => eq_refl))
    as (s4 & d4 & R4 & Hr4).
  set (g4 := setIsEmpty false
               (setResult (resultFromString (resultToString (m_result g)))
                          g3)) in R4.
  destruct (runs_optional_tag maxMoves g4 s4 startBoard d4 [LF]
                     (m_isRandomVariant g) (qs "Variant")
                     (qs "Fischerandom") _ g4 startBoard []
                     Hr4 eq_refl eq_refl Hmax eq_refl eq_refl
                     (fun _ => eq_refl))
    as (s5 & d5 & ws5 & R5 & Hr5 & Hws5).
  set (g5 := if m_isRandomVariant g then setIsEmpty false g4 else g4) in R5.
  replace (if m_isRandomVariant g then startBoard else startBoard)
    with (startBoard (Board:=Board)) in R5 by (destruct (m_isRandomVariant g); reflexivity).
  assert (H5 : m_moves g5 = [] /\ m_isEmpty g5 = false
               /\ m_whitePlayer g5 = m_whitePlayer g
               /\ m_blackPlayer g5 = m_blackPlayer g
               /\ m_result g5 = resultFromString (resultToString (m_result g))
               /\ m_variant g5 = StandardChess
               /\ m_fen g5 = fenString (startBoard (Board:=Board))).
  { subst g5. destruct (m_isRandomVariant g); repeat split; reflexivity. }
  destruct H5 as (M5 & E5 & W5 & B5 & Res5 & V5 & F5).
  assert (R : runs maxMoves (mkParser startGame s startBoard [])
                   (mkParser g5 s5 startBoard d5)).
  { repeat (eapply runs_trans; [eassumption|]). apply runs_here. }
  unfold startsAlike in Hstart.
  destruct (m_fen g =s? standardFen) eqn:Ef.
  - apply QStr_eqb_eq in Ef.
    assert (Hboard : replayBoard g = startBoard).
    { unfold replayBoard, startBoard. rewrite Hv, Ef. reflexivity. }
    rewrite Hboard.
    assert (F : m_fen g5 = m_fen g) by (rewrite F5, Hstart, Ef; reflexivity).
    exists s5, d5, ws5, g5.
    exact (conj R (conj Hr5 (conj Hws5 (conj W5 (conj B5 (conj Res5
            (conj F (conj V5 (conj M5 E5))))))))).
  - destruct (runs_tag maxMoves g5 s5 startBoard d5 ws5 (qs "FEN")
                       (m_fen g) tail (setFen (m_fen g) g5) (replayBoard g)
                       [] Hr5 Hws5 M5 Hmax eq_refl Hf)
      as (s6 & d6 & R6 & Hr6).
    { intros s'. unfold applyTag.
      change (qs "FEN" =s? qs "White") with false.
      change (qs "FEN" =s? qs "Black") with false.
      change (qs "FEN" =s? qs "Result") with false.
      change (qs "FEN" =s? qs "FEN") with true. cbv iota. simpl m_fen.
      rewrite Hstart. reflexivity. }
    exists s6, d6, [LF], (setIsEmpty false (setFen (m_fen g) g5)).
    exact (conj (runs_trans _ _ _ _ R R6)
             (conj Hr6 (conj eq_refl (conj W5 (conj B5 (conj Res5
               (conj eq_refl (conj V5 (conj M5 eq_refl))))))))).
Qed.

(** The four results that have a token of their own are read back. *)
Lemma result_read_back r :
  In r [WhiteMates; BlackMates; DrawByAgreement; NoResult] ->
  resultFromString (resultToString r) = r.
Proof. intros [<-|[<-|[<-|[<-|[]]]]]; reflexivity. Qed.

(** C1, as amended: take a record that is not empty, of the standard
    variant, whose player names and start position have no bracket of a
    tag, no quote and no end of line in them, whose start position is one
    the reader arrives at ([startsAlike]) and whose moves the board plays
    and decodes from their notation ([playable]).  Written to a new file
    and read back with [maxMoves] above the number of its moves, it gives
    a record that is not empty, with the same players, start position,
    variant and moves (so the same notation), and with the result that has
    the same token: the same result when it is one of the four of
    [result_read_back].  The mark of a random start position is lost: it
    is written as the [Variant] tag, which the reader does not look at,
    so the record read back is not marked, and has the mark of [g] only
    when [g] is not marked either. *)
Theorem write_then_read (g : PgnGame Move) (filename : QString)
        (today : QDate) (fs : Files) (maxMoves : Z) :
  m_isEmpty g = false -> m_variant g = StandardChess ->
  tagSafe (m_whitePlayer g) = true -> tagSafe (m_blackPlayer g) = true ->
  tagSafe (m_fen g) = true ->
  startsAlike g -> playable (replayBoard g) (m_moves g) ->
  (Z.of_nat (length (m_moves g)) < maxMoves)%Z ->
  contents fs filename = None -> appendable fs filename = true ->
  exists text,
    contents (write g filename today fs) filename = Some text
    /\ let g' := PgnGame_read (Board:=Board) (TS.open text) maxMoves in
       m_isEmpty g' = false
       /\ m_whitePlayer g' = m_whitePlayer g
       /\ m_blackPlayer g' = m_blackPlayer g
       /\ m_result g' = resultFromString (resultToString (m_result g))
       /\ m_fen g' = m_fen g /\ m_variant g' = m_variant g
       /\ m_moves g' = m_moves g
       /\ m_isRandomVariant g' = false
       /\ (m_isRandomVariant g' = m_isRandomVariant g
           <-> m_isRandomVariant g = false).
Proof.
  intros He Hv Hw Hb Hf Hstart Hplay Hmax Hnew Hopen.
  exists (write_text g today). split.
  { unfold write. rewrite He, Hopen. simpl.
    rewrite QStr_eqb_refl, Hnew. reflexivity. }
  pose proof (proj2 (read_standard (Board:=Board)
                                   (TS.open (write_text g today)) maxMoves))
    as Hrand.
  cbv zeta. rewrite Hrand.
  assert (Hflag : false = m_isRandomVariant g <-> m_isRandomVariant g = false)
    by (split; congruence).
  assert (Hr0 : reading (TS.open (write_text g today)) (write_text g today))
    by (split; reflexivity).
  unfold write_text at 2 in Hr0.
  assert (Hpos : (0 < maxMoves)%Z) by lia.
  destruct (runs_header maxMoves g today _ _ Hv Hw Hb Hf Hstart Hpos Hr0)
    as (s1 & d1 & ws1 & g1 & R1 & Hr1 & Hws1 & W1 & B1 & Res1 & F1 & V1
        & M1 & E1).
  destruct (runs_moves maxMoves (m_moves g) [] g1 s1 (replayBoard g) d1 ws1
                       _ M1 E1 Hplay Hr1 Hws1 Hmax)
    as (s2 & d2 & ws2 & R2 & Hr2 & Hws2).
  simpl app in R2.
  destruct (parse_result maxMoves (setMoves (m_moves g) g1) s2
                         (fold_left makeMove (m_moves g) (replayBoard g))
                         d2 ws2 (m_result g) Hr2 Hws2 E1 Hmax)
    as (s3 & d3 & Hend).
  destruct (runs_loop maxMoves _ _ (runs_trans _ _ _ _ R1 R2) _ _ Hend)
    as (fuel & Hloop).
  unfold PgnGame_read.
  rewrite (parse_loop_parse fuel maxMoves _ _ Hloop). simpl.
  rewrite Hv. auto 12.
Qed.

End RoundTrip.

(** * Further properties of the code *)

(** ** Results and their tokens *)

(** [resultFromString] knows exactly the four result tokens: each is read
    as a result that is written as that token again, and anything else is
    [ResultError]. *)
Theorem resultFromString_tokens (t : QString) :
  if isResultToken t then resultToString (resultFromString t) = t
  else resultFromString t = ResultError.
Proof.
  unfold isResultToken, resultFromString.
  destruct (t =s? qs "*") eqn:E1.
  { apply QStr_eqb_eq in E1. subst t. reflexivity. }
  destruct (t =s? qs "1/2-1/2") eqn:E2.
  { apply QStr_eqb_eq in E2. subst t. reflexivity. }
  destruct (t =s? qs "1-0") eqn:E3.
  { apply QStr_eqb_eq in E3. subst t. reflexivity. }
  destruct (t =s? qs "0-1") eqn:E4.
  { apply QStr_eqb_eq in E4. subst t. reflexivity. }
  reflexivity.
Qed.

Lemma resultFromString_error (t : QString) :
  resultFromString t = ResultError <-> isResultToken t = false.
Proof.
  unfold isResultToken, resultFromString.
  destruct (t =s? qs "*"); [split; discriminate|].
  destruct (t =s? qs "1-0"); [rewrite orb_true_r; split; discriminate|].
  destruct (t =s? qs "0-1"); [rewrite !orb_true_r; split; discriminate|].
  destruct (t =s? qs "1/2-1/2"); [split; discriminate|].
  split; reflexivity.
Qed.

(** ** What one call of [readItem] does to the stream and the record *)

Section CallFacts.

Context {Board Move : Type} {CB : ChessBoard Board Move}.
Import TS TSFacts.

(** The [return] of line 137 happens on a [[] only. *)
Lemma readItem_body_return_bracket (g : PgnGame Move) sc s it s' d :
  readItem_body g sc s = Return it s' d -> fst (readChar s) = "[".
Proof.
  unfold readItem_body. destruct (readChar s) as [c s1]; simpl.
  destruct (_ && _ && _); [discriminate|].
  destruct (_ && _); [discriminate|].
  assert (Hacc : forall sc1, accumulate c sc1 s1 <> Return it s' d).
  { intros sc1; unfold accumulate.
    repeat match goal with
           | |- context [if ?b then _ else _] => destruct b
           end; discriminate. }
  assert (Hbr : forall sc0,
             andThen (atBracket g c sc0 s1) (fun sc1 => accumulate c sc1 s1)
             = Return it s' d -> c = "[").
  { intros sc0; unfold atBracket; cbv zeta.
    destruct (c =c? "[") eqn:Hc; [intros _; apply QCh_eqb_eq, Hc|].
    repeat match goal with
           | |- context [if ?b then _ else _] => destruct b
           end; simpl; intros H; destruct (Hacc _ H). }
  destruct (QCh.isNull (openingBracket sc)); simpl;
    [|intros H; destruct (Hacc _ H)].
  destruct (QStr.isEmpty (str sc)); simpl; [|apply Hbr].
  unfold atTokenStart.
  destruct (c =c? ";"); [destruct (readLine s1); discriminate|].
  destruct (c =c? "%"); [discriminate|].
  destruct (c =c? "."); [discriminate|].
  destruct (c =c? "$"); [discriminate|].
  destruct (_ && _); simpl; apply Hbr.
Qed.

(** So the stream it leaves is the stream the pass began with. *)
Lemma readItem_body_return_stream (g : PgnGame Move) sc s it s' d :
  readItem_body g sc s = Return it s' d -> s' = s.
Proof.
  intros H. pose proof (readItem_body_return_bracket _ _ _ _ _ _ H) as Hc.
  destruct (readItem_body_return _ _ _ _ _ _ H) as (_ & _ & _ & ->).
  unfold readChar in *. destruct (remaining s) as [|c rest] eqn:E.
  - simpl in Hc. discriminate Hc.
  - simpl. apply (seek_back s c rest E).
Qed.

Lemma readChar_forward s :
  buffer (snd (readChar s)) = buffer s
  /\ position s <= position (snd (readChar s)).
Proof.
  unfold readChar. destruct (remaining s); simpl.
  - unfold setStatus. destruct (status s); simpl; auto.
  - split; [reflexivity|lia].
Qed.

Lemma readItem_loop_forward fuel (g : PgnGame Move) sc s r :
  readItem_loop fuel g sc s = Some r ->
  match r with
  | Stopped _ s' | Returned _ s' _ =>
      buffer s' = buffer s /\ position s <= position s'
  end.
Proof.
  revert sc s; induction fuel as [|fuel IH]; intros sc s; [discriminate|].
  simpl. destruct (Status_eqb (status s) Ok); [|intros [= <-]; auto].
  destruct (readChar_forward s) as [Hb Hp].
  destruct (readItem_body g sc s) as [sc1 s1|sc1 s1|it s1 d] eqn:E.
  - assert (Ha : ahead (snd (readChar s)) s1)
      by (apply (readItem_body_ahead g sc); rewrite E; reflexivity).
    destruct Ha as (Hb1 & _ & Hp1).
    intros H. apply IH in H. destruct r; destruct H as [H1 H2];
      split; try congruence; lia.
  - assert (Ha : ahead (snd (readChar s)) s1)
      by (apply (readItem_body_ahead g sc); rewrite E; reflexivity).
    destruct Ha as (Hb1 & _ & Hp1).
    intros [= <-]. split; [congruence|lia].
  - apply readItem_body_return_stream in E. subst s1.
    intros [= <-]. auto.
Qed.

(** [readItem] reads forward: it leaves the text as it is and the
    position where it was or further on, also when it puts the stream
    back by one character. *)
Theorem readItem_reads_forward (g : PgnGame Move) (s : QTextStream)
        (b : Board) :
  buffer (stream (readItem g s b)) = buffer s
  /\ position s <= position (stream (readItem g s b)).
Proof.
  unfold readItem, readItem_from.
  destruct (ahead_skipWhiteSpace s) as (Hb & _ & Hp).
  destruct (readItem_loop _ _ _ _) as [r|] eqn:E; simpl; [|split; [exact Hb|exact Hp]].
  apply readItem_loop_forward in E.
  destruct r as [sc' s'|it s' d]; simpl; rewrite ?readItem_finish_stream;
    destruct E as [E1 E2]; split; try congruence; lia.
Qed.

Ltac split_cases :=
  repeat match goal with
         | |- context [if ?c then _ else _] => destruct c
         | |- context [match ?c with _ => _ end] => destruct c
         end.

(** What the code after the loop does to the moves: a [PgnMove] needs a
    record that is not empty and appends one move, legal on the board,
    which it makes on the board; any other item leaves the moves. *)
Lemma readItem_finish_move (g : PgnGame Move) sc s (b : Board) :
  (item (readItem_finish g sc s b) = PgnMove ->
   m_isEmpty g = false
   /\ exists m, isLegalMove b m = true
                /\ game (readItem_finish g sc s b)
                   = setMoves (m_moves g ++ [m]) g
                /\ board (readItem_finish g sc s b) = makeMove b m)
  /\ (item (readItem_finish g sc s b) <> PgnMove ->
      m_moves (game (readItem_finish g sc s b)) = m_moves g).
Proof.
  unfold readItem_finish.
  destruct (QStr.isEmpty _); [simpl; split; [discriminate|reflexivity]|].
  destruct (_ && _); [simpl; split; [discriminate|reflexivity]|].
  destruct (itemType sc); try (simpl; split; [discriminate|reflexivity]).
  - unfold readMove. destruct (m_isEmpty g) eqn:He;
      [simpl; split; [discriminate|reflexivity]|].
    destruct (isLegalMove b _) eqn:Hl; simpl.
    + split; [|congruence]. intros _. split; [reflexivity|].
      eexists. split; [exact Hl|]. split; reflexivity.
    + split; [discriminate|reflexivity].
  - unfold readTag, applyTag. split_cases; simpl;
      (split; [discriminate|reflexivity]).
  - unfold readNag. split_cases; simpl; (split; [discriminate|reflexivity]).
Qed.

Lemma readItem_move_effect (g : PgnGame Move) (s : QTextStream)
      (b : Board) :
  (item (readItem g s b) = PgnMove ->
   m_isEmpty g = false
   /\ exists m, isLegalMove b m = true
                /\ game (readItem g s b) = setMoves (m_moves g ++ [m]) g
                /\ board (readItem g s b) = makeMove b m)
  /\ (item (readItem g s b) <> PgnMove ->
      m_moves (game (readItem g s b)) = m_moves g).
Proof.
  unfold readItem, readItem_from.
  destruct (readItem_loop _ _ _ _) as [[sc' s'|it s' d]|] eqn:E; simpl.
  - apply readItem_finish_move.
  - apply readItem_loop_returned in E. destruct E as (-> & _).
    split; [discriminate|reflexivity].
  - split; [discriminate|reflexivity].
Qed.

(** A call of [readItem] changes the moves of the record in one way only:
    either the item is no move and the moves are as before, or it is
    [PgnMove], the record was not empty, and the call has appended one
    move that is legal on the board and has made it on the board, the
    rest of the record being as before. *)
Theorem readItem_appends_legal_move (g : PgnGame Move) (s : QTextStream)
        (b : Board) :
  (item (readItem g s b) <> PgnMove
   /\ m_moves (game (readItem g s b)) = m_moves g)
  \/ (item (readItem g s b) = PgnMove /\ m_isEmpty g = false
      /\ exists m, isLegalMove b m = true
                   /\ game (readItem g s b) = setMoves (m_moves g ++ [m]) g
                   /\ board (readItem g s b) = makeMove b m).
Proof.
  destruct (readItem_move_effect g s b) as [Hm Hn].
  destruct (item (readItem g s b) =i? PgnMove) eqn:E.
  - right. assert (Hi : item (readItem g s b) = PgnMove)
      by (destruct (item (readItem g s b)); try discriminate; reflexivity).
    destruct (Hm Hi) as (He & m & Hl & Hg & Hb).
    split; [exact Hi|]. split; [exact He|]. exists m. auto.
  - left. assert (Hi : item (readItem g s b) <> PgnMove)
      by (intros Hi; rewrite Hi in E; discriminate).
    split; [exact Hi|apply Hn, Hi].
Qed.

(** With moves in the record no pass of the loop turns to a tag. *)
Lemma readItem_body_no_tag (g : PgnGame Move) sc s :
  m_moves g <> [] -> itemType sc <> PgnTag ->
  match readItem_body g sc s with
  | Continue sc' _ | Break sc' _ => itemType sc' <> PgnTag
  | Return _ _ _ => True
  end.
Proof.
  intros Hm Ht. unfold readItem_body. destruct (readChar s) as [c s1].
  destruct (_ && _ && _); [exact Ht|].
  destruct (_ && _); [exact Ht|].
  assert (Hacc : forall sc1, itemType sc1 <> PgnTag ->
             match accumulate c sc1 s1 with
             | Continue sc' _ | Break sc' _ => itemType sc' <> PgnTag
             | Return _ _ _ => True
             end).
  { intros sc1 H1. pose proof (accumulate_keeps c sc1 s1) as H.
    destruct (accumulate c sc1 s1); try exact I; destruct H; congruence. }
  assert (Hbr : forall sc0, itemType sc0 <> PgnTag ->
             match andThen (atBracket g c sc0 s1)
                           (fun sc1 => accumulate c sc1 s1) with
             | Continue sc' _ | Break sc' _ => itemType sc' <> PgnTag
             | Return _ _ _ => True
             end).
  { intros sc0 H0. unfold atBracket; cbv zeta.
    destruct (m_moves g) as [|m ms]; [congruence|].
    change (0 <? length (m :: ms)) with true. cbv iota.
    destruct (c =c? "["); [exact I|].
    destruct (c =c? "("); [|destruct (c =c? "{")];
      match goal with
      | |- context [if ?b then _ else _] => destruct b
      end; simpl; apply Hacc; simpl; try discriminate; exact H0. }
  destruct (QCh.isNull (openingBracket sc)); simpl; [|apply Hacc, Ht].
  destruct (QStr.isEmpty (str sc)); simpl; [|apply Hbr, Ht].
  unfold atTokenStart.
  destruct (c =c? ";"); [destruct (readLine s1); simpl; discriminate|].
  destruct (c =c? "%"); [exact Ht|].
  destruct (c =c? "."); [exact Ht|].
  destruct (c =c? "$"); [simpl; discriminate|].
  destruct (_ && _); simpl; apply Hbr; simpl; [discriminate|exact Ht].
Qed.

Lemma readItem_loop_no_tag fuel (g : PgnGame Move) sc s sc' s' :
  m_moves g <> [] -> itemType sc <> PgnTag ->
  readItem_loop fuel g sc s = Some (Stopped sc' s') ->
  itemType sc' <> PgnTag.
Proof.
  intros Hm. revert sc s; induction fuel as [|fuel IH]; intros sc s Ht;
    [discriminate|].
  simpl. destruct (Status_eqb (status s) Ok); [|intros [= <- <-]; exact Ht].
  pose proof (readItem_body_no_tag g sc s Hm Ht) as H.
  destruct (readItem_body g sc s) as [sc1 s1|sc1 s1|]; [|intros [= <- <-]|].
  - apply IH, H.
  - exact H.
  - discriminate.
Qed.

Lemma readItem_finish_tag_item (g : PgnGame Move) sc s (b : Board) :
  item (readItem_finish g sc s b) = PgnTag -> itemType sc = PgnTag.
Proof.
  unfold readItem_finish.
  destruct (QStr.isEmpty _); [discriminate|].
  destruct (_ && _); [discriminate|].
  destruct (itemType sc); try discriminate; try reflexivity.
  - unfold readMove. split_cases; discriminate.
  - unfold readNag. split_cases; discriminate.
Qed.

(** No tag is accepted once a move has been read: [readItem] gives
    [PgnTag] only for a record without moves. *)
Theorem readItem_tag_without_moves (g : PgnGame Move) (s : QTextStream)
        (b : Board) :
  item (readItem g s b) = PgnTag -> m_moves g = [].
Proof.
  destruct (m_moves g) as [|m ms] eqn:Hm; [reflexivity|].
  assert (Hne : m_moves g <> []) by congruence.
  unfold readItem, readItem_from.
  destruct (readItem_loop _ _ _ _) as [[sc' s'|it s' d]|] eqn:E; simpl.
  - intros H. apply readItem_finish_tag_item in H.
    apply (readItem_loop_no_tag _ _ _ _ _ _ Hne) in E;
      [contradiction|discriminate].
  - apply readItem_loop_returned in E. destruct E as (-> & _). discriminate.
  - discriminate.
Qed.

(** [readItem] itself never touches the empty flag. *)
Lemma readItem_keeps_isEmpty (g : PgnGame Move) s (b : Board) :
  m_isEmpty (game (readItem g s b)) = m_isEmpty g.
Proof.
  unfold readItem, readItem_from.
  destruct (readItem_loop _ _ _ _) as [[sc' s'|it s' d]|]; simpl; auto.
  unfold readItem_finish, readTag, applyTag, readMove, readNag.
  repeat match goal with
         | |- context [if ?c then _ else _] => destruct c eqn:?
         | |- context [match ?c with _ => _ end] => destruct c eqn:?
         end; simpl; congruence.
Qed.

End CallFacts.

(** ** Records the constructor builds *)

Section RecordFacts.

Context {Board Move : Type} {CB : ChessBoard Board Move}.
Import TS TSFacts.

Lemma parse_body_moves_kept (p : Parser Board Move) :
  (m_isEmpty (p_game p) = true -> m_moves (p_game p) = []) ->
  m_isEmpty (p_game (snd (parse_body p))) = true ->
  m_moves (p_game (snd (parse_body p))) = [].
Proof.
  intros Hp.
  pose proof (readItem_move_effect (p_game p) (p_stream p) (p_board p))
    as [H1 H2].
  pose proof (readItem_keeps_isEmpty (p_game p) (p_stream p) (p_board p))
    as He.
  unfold parse_body.
  destruct (item (readItem (p_game p) (p_stream p) (p_board p))) eqn:Ei;
    simpl; try discriminate;
    try (rewrite He; intros H; rewrite H2 by discriminate; apply Hp, H).
  destruct (H1 eq_refl) as (Hne & _). rewrite He, Hne. discriminate.
Qed.

Lemma parse_loop_moves_kept fuel maxMoves (p q : Parser Board Move) :
  (m_isEmpty (p_game p) = true -> m_moves (p_game p) = []) ->
  parse_loop fuel maxMoves p = Some q ->
  m_isEmpty (p_game q) = true -> m_moves (p_game q) = [].
Proof.
  revert p; induction fuel as [|fuel IH]; intros p Hp; [discriminate|].
  simpl. destruct (parse_cond maxMoves p); [|intros [= <-]; exact Hp].
  pose proof (parse_body_moves_kept p Hp) as Hb.
  destruct (parse_body p) as [[|] p']; simpl in Hb.
  - apply IH, Hb.
  - intros [= <-]. exact Hb.
Qed.

(** A record the constructor leaves empty has no moves: moves are only
    read after a tag. *)
Theorem read_empty_without_moves (s : QTextStream) (maxMoves : Z) :
  m_isEmpty (PgnGame_read (Board:=Board) s maxMoves) = true ->
  m_moves (PgnGame_read (Board:=Board) s maxMoves) = [].
Proof.
  unfold PgnGame_read, parse.
  destruct (parse_loop _ _ _) as [q|] eqn:E; [|reflexivity].
  apply (parse_loop_moves_kept (passes s) maxMoves (parse_start s) q);
    [|exact E].
  intros _. reflexivity.
Qed.

End RecordFacts.

(** ** The moves of a record that was read *)

Ltac split_all :=
  repeat match goal with
         | |- context [if ?c then _ else _] => destruct c eqn:?
         | |- context [match ?c with _ => _ end] => destruct c eqn:?
         end.

Section ReplayFacts.

Context {Board Move : Type} {CB : ChessBoard Board Move}.
Import TS TSFacts.

Lemma legalFrom_app (b : Board) (ms : list Move) m :
  legalFrom b (ms ++ [m])
  = legalFrom b ms && isLegalMove (fold_left makeMove ms b) m.
Proof.
  revert b; induction ms as [|x ms IH]; intros b; simpl.
  - apply andb_true_r.
  - rewrite IH, andb_assoc. reflexivity.
Qed.

(** What the code after the loop does to the start position and to the
    board: nothing, or a move is made, or, for a tag, [setBoard] is
    called with the position the record then holds, and the call fails
    unless [setBoard] accepts. *)
Lemma readItem_finish_position (g : PgnGame Move) sc s (b : Board) :
  item (readItem_finish g sc s b) = PgnMove
  \/ (m_fen (game (readItem_finish g sc s b)) = m_fen g
      /\ board (readItem_finish g sc s b) = b)
  \/ (itemType sc = PgnTag
      /\ exists ok,
          setBoard b (m_fen (game (readItem_finish g sc s b)))
          = (ok, board (readItem_finish g sc s b))
          /\ (ok = true \/ item (readItem_finish g sc s b) = PgnError)).
Proof.
  unfold readItem_finish.
  destruct (QStr.isEmpty _); [right; left; split; reflexivity|].
  destruct (_ && _); [right; left; split; reflexivity|].
  destruct (itemType sc) eqn:Ht; try (right; left; split; reflexivity).
  - unfold readMove. split_all; simpl; auto.
  - unfold readTag, applyTag.
    destruct (_ =s? qs "White"); [right; left; split; reflexivity|].
    destruct (_ =s? qs "Black"); [right; left; split; reflexivity|].
    destruct (_ =s? qs "Result"); [right; left; split; reflexivity|].
    destruct (_ =s? qs "FEN"); [|right; left; split; reflexivity].
    right; right. split; [reflexivity|].
    set (v := QStr.remove QUOTE _). cbn [m_fen setFen].
    destruct (setBoard b v) as [[|] b'] eqn:E; simpl; rewrite E.
    + exists true. auto.
    + exists false. auto.
  - unfold readNag. split_all; simpl; auto.
Qed.

Lemma readItem_position (g : PgnGame Move) s (b : Board) :
  item (readItem g s b) = PgnMove
  \/ (m_fen (game (readItem g s b)) = m_fen g /\ board (readItem g s b) = b)
  \/ (m_moves g = []
      /\ exists ok,
          setBoard b (m_fen (game (readItem g s b)))
          = (ok, board (readItem g s b))
          /\ (ok = true \/ item (readItem g s b) = PgnError)).
Proof.
  unfold readItem, readItem_from.
  destruct (readItem_loop _ _ _ _) as [[sc' s'|it s' d]|] eqn:E; simpl;
    [|right; left; split; reflexivity..].
  destruct (readItem_finish_position g sc' s' b) as [H|[H|[Ht H]]]; auto.
  right; right. split; [|exact H].
  destruct (m_moves g) as [|m ms] eqn:Hm; [reflexivity|exfalso].
  apply (readItem_loop_no_tag _ _ _ _ _ _) in E;
    [contradiction|rewrite Hm; discriminate|discriminate].
Qed.

Lemma startsFrom_fen (g g' : PgnGame Move) (b0 : Board) :
  m_fen g' = m_fen g -> startsFrom g b0 -> startsFrom g' b0.
Proof. unfold startsFrom. intros ->. auto. Qed.

(** A pass of the constructor's loop keeps the board in step with the
    moves, unless it ends the loop on a position that was refused, when
    there are no moves. *)
Lemma parse_body_replays (p : Parser Board Move) :
  replays p ->
  replays (snd (parse_body p))
  \/ (fst (parse_body p) = false /\ m_moves (p_game (snd (parse_body p))) = []).
Proof.
  intros (b0 & Hstart & Hlegal & Hboard).
  pose proof (readItem_move_effect (p_game p) (p_stream p) (p_board p))
    as [Hm Hn].
  pose proof (readItem_position (p_game p) (p_stream p) (p_board p)) as Hpos.
  unfold parse_body.
  set (r := readItem (p_game p) (p_stream p) (p_board p)) in *.
  destruct (item r) eqn:Ei.
  - (* a move *)
    left. destruct (Hm eq_refl) as (_ & m & Hl & Hg & Hb).
    exists b0. simpl. rewrite Hg, Hb. simpl.
    split; [exact Hstart|]. split.
    + rewrite legalFrom_app, Hlegal, <- Hboard. exact Hl.
    + rewrite fold_left_app, <- Hboard. reflexivity.
  - destruct Hpos as [H|[[Hf Hb]|(H0 & ok & Hset & Hok)]]; [discriminate| |].
    + left. exists b0. simpl. rewrite Hn, Hb by discriminate.
      split; [exact (startsFrom_fen _ _ _ Hf Hstart)|]. auto.
    + destruct Hok as [->|H]; [|discriminate].
      left. exists (board r). simpl. rewrite Hn, H0 by discriminate.
      split; [right; eexists; exact Hset|]. auto.
  - (* a tag *)
    destruct Hpos as [H|[[Hf Hb]|(H0 & ok & Hset & Hok)]]; [discriminate| |].
    + left. exists b0. simpl. rewrite Hn, Hb by discriminate.
      split; [exact (startsFrom_fen _ _ _ Hf Hstart)|]. auto.
    + destruct Hok as [->|H]; [|discriminate].
      left. exists (board r). simpl. rewrite Hn, H0 by discriminate.
      split; [right; eexists; exact Hset|]. auto.
  - destruct Hpos as [H|[[Hf Hb]|(H0 & ok & Hset & Hok)]]; [discriminate| |].
    + left. exists b0. simpl. rewrite Hn, Hb by discriminate.
      split; [exact (startsFrom_fen _ _ _ Hf Hstart)|]. auto.
    + destruct Hok as [->|H]; [|discriminate].
      left. exists (board r). simpl. rewrite Hn, H0 by discriminate.
      split; [right; eexists; exact Hset|]. auto.
  - destruct Hpos as [H|[[Hf Hb]|(H0 & ok & Hset & Hok)]]; [discriminate| |].
    + left. exists b0. simpl. rewrite Hn, Hb by discriminate.
      split; [exact (startsFrom_fen _ _ _ Hf Hstart)|]. auto.
    + destruct Hok as [->|H]; [|discriminate].
      left. exists (board r). simpl. rewrite Hn, H0 by discriminate.
      split; [right; eexists; exact Hset|]. auto.
  - destruct Hpos as [H|[[Hf Hb]|(H0 & ok & Hset & Hok)]]; [discriminate| |].
    + left. exists b0. simpl. rewrite Hn, Hb by discriminate.
      split; [exact (startsFrom_fen _ _ _ Hf Hstart)|]. auto.
    + destruct Hok as [->|H]; [|discriminate].
      left. exists (board r). simpl. rewrite Hn, H0 by discriminate.
      split; [right; eexists; exact Hset|]. auto.
  - (* an error *)
    destruct Hpos as [H|[[Hf Hb]|(H0 & ok & Hset & Hok)]]; [discriminate| |].
    + left. exists b0. simpl. rewrite Hn, Hb by discriminate.
      split; [exact (startsFrom_fen _ _ _ Hf Hstart)|]. auto.
    + right. simpl. split; [reflexivity|].
      rewrite Hn by discriminate. exact H0.
Qed.

Lemma parse_loop_replays fuel maxMoves (p q : Parser Board Move) :
  replays p -> parse_loop fuel maxMoves p = Some q ->
  replays q \/ m_moves (p_game q) = [].
Proof.
  revert p; induction fuel as [|fuel IH]; intros p Hp; [discriminate|].
  simpl. destruct (parse_cond maxMoves p); [|intros [= <-]; auto].
  pose proof (parse_body_replays p Hp) as Hb.
  destruct (parse_body p) as [[|] p']; simpl in Hb.
  - destruct Hb as [Hb|[Hb _]]; [apply IH, Hb|discriminate].
  - intros [= <-]. destruct Hb as [Hb|[_ Hb]]; auto.
Qed.

(** In a record the constructor has read moves into, every move was legal
    when it was made: there is a board of the record's start position
    from which the moves are legal one after the other, and the
    constructor's board is that board after them. *)
Theorem read_moves_legal (s : QTextStream) (maxMoves : Z) :
  m_moves (p_game (parse (Board:=Board) s maxMoves)) <> [] ->
  exists b0,
    startsFrom (p_game (parse s maxMoves)) b0
    /\ legalFrom b0 (m_moves (p_game (parse s maxMoves))) = true
    /\ p_board (parse s maxMoves)
       = fold_left makeMove (m_moves (p_game (parse s maxMoves))) b0.
Proof.
  assert (H0 : replays (parse_start (Board:=Board) (Move:=Move) s)).
  { exists startBoard. simpl. split; [left; split; reflexivity|]. auto. }
  unfold parse.
  destruct (parse_loop _ _ _) as [q|] eqn:E.
  - intros Hne. destruct (parse_loop_replays _ _ _ _ H0 E) as [H|H];
      [exact H|contradiction].
  - intros _. exact H0.
Qed.

End ReplayFacts.

(** ** The loops end *)

Section EndFacts.

Context {Board Move : Type} {CB : ChessBoard Board Move}.
Import TS TSFacts.

(** Both loops end: on a stream with [n] characters left, [n + 2] passes
    are enough for the loop of [readItem], whatever its locals, and for
    the loop of the constructor, and more passes give the same. *)
Theorem loops_end (g : PgnGame Move) (sc : Scan) (s : QTextStream)
        (maxMoves : Z) (fuel : nat) :
  S (S (length (remaining s))) <= fuel ->
  (exists r, readItem_loop fuel g sc s = Some r
             /\ forall b : Board, readItem_from sc g s b = readItem_after g b r)
  /\ parse_loop fuel maxMoves (parse_start s)
     = Some (parse (Board:=Board) s maxMoves).
Proof.
  intros Hf. split.
  - destruct (readItem_loop_total g sc s) as [r Hr].
    exists r. split.
    + apply (readItem_loop_mono _ _ _ _ _ Hr). exact Hf.
    + intros b. apply (readItem_from_loop _ _ _ _ _ _ Hr).
  - destruct (parse_loop_total (Board:=Board) maxMoves s) as [q Hq].
    rewrite (parse_loop_mono _ _ _ _ Hq fuel Hf).
    rewrite (parse_loop_parse _ _ _ _ Hq). reflexivity.
Qed.

(** *** White space before a game *)

Lemma spaces_skipn r : spaces (skipn (spaces r) r) = 0.
Proof.
  induction r as [|c r IH]; [reflexivity|].
  simpl. destruct (QCh.isSpace c) eqn:E; simpl; [exact IH|].
  rewrite E. reflexivity.
Qed.

Lemma skipWhiteSpace_twice s :
  skipWhiteSpace (skipWhiteSpace s) = skipWhiteSpace s.
Proof.
  unfold skipWhiteSpace. rewrite remaining_advance, spaces_skipn.
  unfold advance. simpl. f_equal. lia.
Qed.

Lemma readItem_skip (g : PgnGame Move) s (b : Board) :
  readItem g (skipWhiteSpace s) b = readItem g s b.
Proof. unfold readItem. rewrite skipWhiteSpace_twice. reflexivity. Qed.

Lemma parse_body_skip (g : PgnGame Move) s (b : Board) d :
  parse_body (mkParser g (skipWhiteSpace s) b d)
  = parse_body (mkParser g s b d).
Proof. unfold parse_body. simpl. rewrite readItem_skip. reflexivity. Qed.

(** When the loop is entered at all, it does not matter whether white
    space was skipped before. *)
Lemma parse_skip (s : QTextStream) (maxMoves : Z) :
  parse_cond maxMoves (parse_start (Board:=Board) (Move:=Move) s) = true ->
  parse (Board:=Board) (skipWhiteSpace s) maxMoves = parse s maxMoves.
Proof.
  intros Hc.
  destruct (parse_loop_total (Board:=Board) maxMoves s) as [q Hq].
  rewrite (parse_loop_parse _ _ _ _ Hq).
  apply (parse_loop_parse (passes s)).
  unfold passes in *. simpl in Hq |- *.
  rewrite Hc in Hq.
  assert (Hc' : parse_cond maxMoves
                  (parse_start (Board:=Board) (Move:=Move)
                               (skipWhiteSpace s)) = true) by exact Hc.
  rewrite Hc'. unfold parse_start in *. rewrite parse_body_skip. exact Hq.
Qed.

(** White space before a game does not matter to the record that is
    read. *)
Theorem read_after_white_space (s : QTextStream) (maxMoves : Z) :
  PgnGame_read (Board:=Board) (skipWhiteSpace s) maxMoves
  = PgnGame_read s maxMoves.
Proof.
  unfold PgnGame_read.
  destruct (parse_cond maxMoves (parse_start (Board:=Board) (Move:=Move) s))
    eqn:Hc.
  - rewrite (parse_skip s maxMoves Hc). reflexivity.
  - assert (Hc' : parse_cond maxMoves
                    (parse_start (Board:=Board) (Move:=Move)
                                 (skipWhiteSpace s)) = false) by exact Hc.
    unfold parse, passes. simpl. rewrite Hc, Hc'. reflexivity.
Qed.

End EndFacts.

(** ** Files of several games, and games cut short *)

Section FileFacts.

Context {Board Move : Type} {CB : ChessBoard Board Move}.
Import TS TSFacts QStrFacts.

(** The pass over the result of a game that is followed by more text. *)
Lemma parse_result_then maxMoves (g : PgnGame Move) s (b : Board) d ws r
      rest :
  reading s (ws ++ resultToString r ++ LF :: rest) ->
  forallb QCh.isSpace ws = true -> m_isEmpty g = false ->
  (Z.of_nat (length (m_moves g)) < maxMoves)%Z ->
  exists s' d',
    parse_loop 1 maxMoves (mkParser g s b d)
    = Some (mkParser (setResult (resultFromString (resultToString r)) g)
                     s' b d')
    /\ reading s' rest.
Proof.
  intros Hr Hws Hg Hmax.
  assert (Htok : exists c cs,
             resultToString r = c :: cs /\ firstChar c = true
             /\ forallb plainChar cs = true
             /\ (QCh.isDigit c = true -> occurs "." cs = false)).
  { destruct r; eexists; eexists; repeat split; reflexivity. }
  destruct Htok as (c & cs & Er & Hc & Hcs & Hdot).
  assert (Hr' : reading s (ws ++ c :: cs ++ LF :: rest)).
  { destruct Hr as [Hs Hr]. split; [exact Hs|]. rewrite Hr, Er.
    rewrite <- app_comm_cons. reflexivity. }
  destruct (readItem_token g s b ws c cs LF rest Hr' Hws Hg Hc Hcs)
    as (s' & E & Hrest).
  { destruct (QCh.isDigit c); [right|left]; auto. }
  rewrite <- Er in E. rewrite finish_result in E
    by (destruct (QCh.isDigit c); auto).
  exists s'. eexists. split; [|exact Hrest]. simpl.
  rewrite (parse_cond_reading _ _ _ _ _ _ Hr Hmax).
  rewrite parse_body_item, E. reflexivity.
Qed.

Lemma write_text_solid (g : PgnGame Move) today tail :
  solidHead (write_text g today ++ tail).
Proof.
  unfold write_text, write_tags. destruct (variantAndFen g). reflexivity.
Qed.

(** A written game in a stream, white space before it and more text
    after it: the constructor reads the game and leaves the stream at
    the second of the two line feeds that end it, before that text. *)
Lemma read_written_game_from (g : PgnGame Move) today maxMoves s ws tail :
  readable g -> (Z.of_nat (length (m_moves g)) < maxMoves)%Z ->
  reading s (ws ++ write_text g today ++ tail) ->
  forallb QCh.isSpace ws = true ->
  headerOf (p_game (parse s maxMoves)) g
  /\ m_moves (p_game (parse s maxMoves)) = m_moves g
  /\ reading (p_stream (parse (Board:=Board) s maxMoves)) (LF :: tail).
Proof.
  intros (He & Hv & Hw & Hb & Hf & Hstart & Hplay) Hmax Hr Hws.
  assert (Hpos : (0 < maxMoves)%Z) by lia.
  rewrite <- (parse_skip s maxMoves)
    by (apply (parse_cond_reading _ _ _ _ _ _ Hr); exact Hpos).
  pose proof (reading_skip s ws _ Hr Hws (write_text_solid g today tail))
    as Hr0.
  unfold write_text in Hr0. repeat rewrite <- app_assoc in Hr0.
  destruct (runs_header maxMoves g today _ _ Hv Hw Hb Hf Hstart Hpos Hr0)
    as (s1 & d1 & ws1 & g1 & R1 & Hr1 & Hws1 & W1 & B1 & Res1 & F1 & V1
        & M1 & E1).
  destruct (runs_moves maxMoves (m_moves g) [] g1 s1 (replayBoard g) d1 ws1
                       _ M1 E1 Hplay Hr1 Hws1 Hmax)
    as (s2 & d2 & ws2 & R2 & Hr2 & Hws2).
  simpl app in R2.
  destruct (parse_result_then maxMoves (setMoves (m_moves g) g1) s2
                         (fold_left makeMove (m_moves g) (replayBoard g))
                         d2 ws2 (m_result g) (LF :: tail) Hr2 Hws2 E1 Hmax)
    as (s3 & d3 & Hend & Hr3).
  destruct (runs_loop maxMoves _ _ (runs_trans _ _ _ _ R1 R2) _ _ Hend)
    as (fuel & Hloop).
  rewrite (parse_loop_parse fuel maxMoves _ _ Hloop). simpl.
  unfold headerOf. simpl. rewrite Hv. auto 10.
Qed.

Lemma appendTo_contents name text fs :
  contents (appendTo name text fs) name
  = Some (match contents fs name with
          | Some old => old ++ text
          | None => text
          end).
Proof. unfold appendTo. simpl. rewrite QStr_eqb_refl. reflexivity. Qed.

(** Two records written one after the other to a new file are read back
    one after the other: the constructor on the text of the file gives
    the first, and the constructor on the stream it leaves gives the
    second. *)
Theorem read_two_written_games (g1 g2 : PgnGame Move) (filename : QString)
        (today : QDate) (fs : Files) (maxMoves : Z) :
  readable g1 -> readable g2 ->
  (Z.of_nat (length (m_moves g1)) < maxMoves)%Z ->
  (Z.of_nat (length (m_moves g2)) < maxMoves)%Z ->
  contents fs filename = None -> appendable fs filename = true ->
  exists text,
    contents (write g2 filename today (write g1 filename today fs)) filename
    = Some text
    /\ headerOf (p_game (parse (Board:=Board) (TS.open text) maxMoves)) g1
    /\ m_moves (p_game (parse (Board:=Board) (TS.open text) maxMoves))
       = m_moves g1
    /\ headerOf
         (p_game (parse (p_stream (parse (Board:=Board) (TS.open text)
                                         maxMoves)) maxMoves)) g2
    /\ m_moves
         (p_game (parse (p_stream (parse (Board:=Board) (TS.open text)
                                         maxMoves)) maxMoves))
       = m_moves g2.
Proof.
  intros H1 H2 Hm1 Hm2 Hnew Hopen.
  exists (write_text g1 today ++ write_text g2 today). split.
  { unfold write. rewrite (proj1 H1), (proj1 H2), Hopen.
    change (appendable (appendTo filename (write_text g1 today) fs) filename)
      with (appendable fs filename).
    rewrite Hopen, !appendTo_contents, Hnew. reflexivity. }
  set (text := write_text g1 today ++ write_text g2 today).
  assert (Hr : reading (TS.open text)
                       ([] ++ write_text g1 today ++ write_text g2 today))
    by (split; reflexivity).
  destruct (read_written_game_from g1 today maxMoves _ [] _ H1 Hm1 Hr eq_refl)
    as (Hh1 & Hmv1 & Hr1).
  split; [exact Hh1|]. split; [exact Hmv1|].
  assert (Hr2 : reading (p_stream (parse (Board:=Board) (TS.open text)
                                         maxMoves))
                        ([LF] ++ write_text g2 today ++ [])).
  { rewrite app_nil_r. exact Hr1. }
  destruct (read_written_game_from g2 today maxMoves _ [LF] _ H2 Hm2 Hr2
                                   eq_refl)
    as (Hh2 & Hmv2 & _).
  split; assumption.
Qed.

(** *** Fewer moves than were written *)

Lemma playable_app (b : Board) (ms more : list Move) :
  playable b (ms ++ more) -> playable b ms.
Proof.
  revert b; induction ms as [|m ms IH]; intros b; simpl; [trivial|].
  intros (H1 & H2 & H3 & H4). auto.
Qed.

(** The passes over one ply of the writer's move text, with the moves
    after it still to come. *)
Lemma runs_ply maxMoves (g : PgnGame Move) s (b : Board) d ws m more tail :
  m_isEmpty g = false ->
  moveToken (moveString b m StandardAlgebraic) = true ->
  moveFromString b (moveString b m StandardAlgebraic) = m ->
  isLegalMove b m = true ->
  reading s (ws ++ write_moves b (Z.of_nat (length (m_moves g))) (m :: more)
             ++ tail) ->
  forallb QCh.isSpace ws = true ->
  (Z.of_nat (length (m_moves g)) < maxMoves)%Z ->
  exists s1 d1,
    runs maxMoves (mkParser g s b d)
         (mkParser (setMoves (m_moves g ++ [m]) g) s1 (makeMove b m) d1)
    /\ reading s1 (write_moves (makeMove b m)
                               (Z.of_nat (length (m_moves g ++ [m]))) more
                   ++ tail).
Proof.
  intros He Htok Hdec Hleg Hr Hws Hlt.
  set (tok := moveString b m StandardAlgebraic) in *.
  cbn [write_moves] in Hr. fold tok in Hr. rewrite quot_of_nat in Hr.
  replace (Z.of_nat (length (m_moves g ++ [m])))
    with (Z.of_nat (length (m_moves g)) + 1)%Z
    by (rewrite length_app; simpl; lia).
  set (nl := if (Z.rem (Z.of_nat (length (m_moves g))) 8 =? 0)%Z
             then [LF] else []) in Hr.
  assert (Hnl : forallb QCh.isSpace (ws ++ nl) = true).
  { rewrite forallb_app, Hws. subst nl. destruct (_ =? _)%Z; reflexivity. }
  assert (Hleg' : isLegalMove b (moveFromString b tok) = true)
    by (rewrite Hdec; exact Hleg).
  clearbody nl tok.
  destruct (Z.rem (Z.of_nat (length (m_moves g))) 2 =? 0)%Z.
  - assert (Hr1 : reading s ((ws ++ nl)
                   ++ QStr.number (Z.of_nat (length (m_moves g) / 2 + 1))
                   ++ "." :: [" "] ++ tok ++ " "
                   :: write_moves (makeMove b m)
                        (Z.of_nat (length (m_moves g)) + 1) more ++ tail)).
    { split; [exact (proj1 Hr)|]. rewrite (proj2 Hr).
      repeat (rewrite <- !app_assoc; simpl). reflexivity. }
    destruct (runs_number maxMoves g s b d _ _ _ Hr1 Hnl He Hlt)
      as (s1 & d1 & Hruns1 & Hr2).
    destruct (runs_move maxMoves g s1 b d1 [" "] tok _ Hr2 eq_refl He Hlt
                        Htok Hleg')
      as (s2 & d2 & Hruns2 & Hr3).
    rewrite Hdec in Hruns2.
    exists s2, d2. split; [|exact Hr3].
    eapply runs_trans; eassumption.
  - assert (Hr1 : reading s ((ws ++ nl) ++ tok ++ " "
                   :: write_moves (makeMove b m)
                        (Z.of_nat (length (m_moves g)) + 1) more ++ tail)).
    { split; [exact (proj1 Hr)|]. rewrite (proj2 Hr).
      repeat (rewrite <- !app_assoc; simpl). reflexivity. }
    destruct (runs_move maxMoves g s b d (ws ++ nl) tok _ Hr1 Hnl He Hlt
                        Htok Hleg')
      as (s2 & d2 & Hruns2 & Hr3).
    rewrite Hdec in Hruns2.
    exists s2, d2. split; assumption.
Qed.

(** The passes over the first plies of the move text, as many as
    [maxMoves] lets through. *)
Lemma runs_first_moves maxMoves post :
  forall (g : PgnGame Move) s (b : Board) d ws more tail,
    m_isEmpty g = false -> playable b post ->
    reading s (ws ++ write_moves b (Z.of_nat (length (m_moves g)))
                                 (post ++ more) ++ tail) ->
    forallb QCh.isSpace ws = true ->
    (Z.of_nat (length (m_moves g) + length post) <= maxMoves)%Z ->
    exists s' d' ws',
      runs maxMoves (mkParser g s b d)
           (mkParser (setMoves (m_moves g ++ post) g) s'
                     (fold_left makeMove post b) d')
      /\ reading s' (ws' ++ write_moves (fold_left makeMove post b)
                              (Z.of_nat (length (m_moves g ++ post))) more
                     ++ tail)
      /\ forallb QCh.isSpace ws' = true.
Proof.
  induction post as [|m post IH]; intros g s b d ws more tail He Hp Hr Hws
                                         Hmax.
  - exists s, d, ws. rewrite !app_nil_r, setMoves_same.
    split; [apply runs_here|]. auto.
  - destruct Hp as (Htok & Hdec & Hleg & Hp).
    assert (Hlt : (Z.of_nat (length (m_moves g)) < maxMoves)%Z)
      by (simpl in Hmax; lia).
    destruct (runs_ply maxMoves g s b d ws m (post ++ more) tail He Htok Hdec
                       Hleg Hr Hws Hlt)
      as (s1 & d1 & R1 & Hr1).
    assert (Hmax1 : (Z.of_nat (length (m_moves (setMoves (m_moves g ++ [m]) g))
                               + length post) <= maxMoves)%Z)
      by (simpl; rewrite length_app; simpl in Hmax |- *; lia).
    destruct (IH (setMoves (m_moves g ++ [m]) g) s1 (makeMove b m) d1 []
                 more tail He Hp Hr1 eq_refl Hmax1)
      as (s' & d' & ws' & R' & Hr' & Hws').
    simpl m_moves in R', Hr'. rewrite <- app_assoc in R', Hr'.
    exists s', d', ws'. split; [|auto].
    eapply runs_trans; [exact R1|exact R'].
Qed.

(** A written game read with [maxMoves] not above the number of its
    moves, but above 0: the record has the players, the start position
    and the result of the tags, and the first [maxMoves] moves. *)
Theorem read_first_moves (g : PgnGame Move) (today : QDate) (maxMoves : Z) :
  readable g ->
  (0 < maxMoves <= Z.of_nat (length (m_moves g)))%Z ->
  headerOf (PgnGame_read (Board:=Board) (TS.open (write_text g today))
                         maxMoves) g
  /\ m_moves (PgnGame_read (Board:=Board) (TS.open (write_text g today))
                           maxMoves)
     = firstn (Z.to_nat maxMoves) (m_moves g).
Proof.
  intros (He & Hv & Hw & Hb & Hf & Hstart & Hplay) [Hpos Hle].
  assert (Hr0 : reading (TS.open (write_text g today)) (write_text g today))
    by (split; reflexivity).
  unfold write_text at 2 in Hr0.
  destruct (runs_header maxMoves g today _ _ Hv Hw Hb Hf Hstart Hpos Hr0)
    as (s1 & d1 & ws1 & g1 & R1 & Hr1 & Hws1 & W1 & B1 & Res1 & F1 & V1
        & M1 & E1).
  set (k := Z.to_nat maxMoves).
  assert (Hk : length (firstn k (m_moves g)) = k)
    by (apply firstn_length_le; lia).
  rewrite <- (firstn_skipn k (m_moves g)) in Hr1, Hplay.
  apply playable_app in Hplay.
  assert (Hr1' : reading s1
                    (ws1 ++ write_moves (replayBoard g)
                                        (Z.of_nat (length (m_moves g1)))
                                        (firstn k (m_moves g)
                                         ++ skipn k (m_moves g))
                     ++ resultToString (m_result g) ++ [LF; LF]))
    by (rewrite M1; exact Hr1).
  destruct (runs_first_moves maxMoves (firstn k (m_moves g)) g1 s1
                             (replayBoard g) d1 ws1 _ _ E1 Hplay Hr1' Hws1)
    as (s2 & d2 & ws2 & R2 & _ & _).
  { rewrite M1, Hk. simpl. lia. }
  rewrite M1 in R2. simpl app in R2.
  assert (Hend : parse_loop 1 maxMoves
                   (mkParser (setMoves (firstn k (m_moves g)) g1) s2
                      (fold_left makeMove (firstn k (m_moves g))
                                 (replayBoard g)) d2)
                 = Some (mkParser (setMoves (firstn k (m_moves g)) g1) s2
                           (fold_left makeMove (firstn k (m_moves g))
                                      (replayBoard g)) d2)).
  { simpl. unfold parse_cond. simpl. rewrite Hk.
    replace (Z.of_nat k <? maxMoves)%Z with false
      by (symmetry; apply Z.ltb_ge; lia).
    rewrite andb_false_r. reflexivity. }
  destruct (runs_loop maxMoves _ _ (runs_trans _ _ _ _ R1 R2) _ _ Hend)
    as (fuel & Hloop).
  unfold PgnGame_read.
  rewrite (parse_loop_parse fuel maxMoves _ _ Hloop). simpl.
  unfold headerOf. simpl. rewrite Hv. auto 10.
Qed.

End FileFacts.

(** ** Items as they stand in the text *)

Section ItemFacts.

Context {Board Move : Type} {CB : ChessBoard Board Move}.
Import TS TSFacts QStrFacts.

(** A move token with white space before and after it is handed to the
    board as it stands: if the board finds the move it decodes legal, the
    move is appended and made; if not, the call fails, reporting the
    token, and the record and the board are as before. *)
Theorem readItem_move_token (g : PgnGame Move) (s : QTextStream) (b : Board)
        (ws tok : QString) (term : QChar) (rest : QString) :
  reading s (ws ++ tok ++ term :: rest) ->
  forallb QCh.isSpace ws = true -> QCh.isSpace term = true ->
  m_isEmpty g = false -> moveToken tok = true ->
  exists s',
    reading s' rest
    /\ readItem g s b
       = if isLegalMove b (moveFromString b tok)
         then mkRead PgnMove
                     (setMoves (m_moves g ++ [moveFromString b tok]) g) s'
                     (makeMove b (moveFromString b tok)) []
         else mkRead PgnError g s' b [IllegalMove tok].
Proof.
  intros Hr Hws Hterm Hg Htok.
  pose proof Htok as Htok'.
  destruct tok as [|c cs]; [discriminate|].
  unfold moveToken in Htok. rewrite !andb_true_iff, !negb_true_iff in Htok.
  destruct Htok as (((Hc & Hd) & Hp) & _).
  destruct (readItem_token g s b ws c cs term rest Hr Hws Hg Hc Hp)
    as (s' & E & Hr'); [left; auto|].
  rewrite Hd, (finish_move g _ s' b Htok') in E.
  unfold readMove in E. rewrite Hg in E.
  exists s'. split; [exact Hr'|exact E].
Qed.

(** A tag pair on a line, with no move in the record yet, is taken apart
    into its name and its value, the quotes dropped, and dealt with by
    name; the stream is left at the end of the line. *)
Theorem readItem_tag_pair (g : PgnGame Move) (s : QTextStream) (b : Board)
        (ws name value rest : QString) :
  reading s (ws ++ tagLine name value ++ rest) ->
  forallb QCh.isSpace ws = true -> m_moves g = [] ->
  tagName name = true -> tagSafe value = true ->
  exists s',
    reading s' (LF :: rest)
    /\ readItem g s b = applyTag name value g s' b.
Proof.
  intros Hr Hws Hg Hn Hv.
  assert (Hn' : forallb tagChar name = true).
  { unfold tagName in Hn. rewrite !andb_true_iff in Hn. tauto. }
  destruct (readItem_tagLine g s b ws name value rest Hr Hws Hg Hn' Hv)
    as (s' & E & Hr').
  exists s'. split; [exact Hr'|].
  rewrite E. apply finish_tag; assumption.
Qed.

(** A pass of the constructor's loop over a tag pair with another name
    than White, Black, Result and FEN: the loop goes on, and nothing of
    the record has changed but that it is no longer empty. *)
Theorem parse_body_other_tag (g : PgnGame Move) (s : QTextStream) (b : Board)
        (d : list Diagnostic) (ws name value rest : QString) :
  reading s (ws ++ tagLine name value ++ rest) ->
  forallb QCh.isSpace ws = true -> m_moves g = [] ->
  tagName name = true -> tagSafe value = true ->
  existsb (QStr.eqb name) [qs "White"; qs "Black"; qs "Result"; qs "FEN"]
  = false ->
  exists s',
    reading s' (LF :: rest)
    /\ parse_body (mkParser g s b d)
       = (true, mkParser (setIsEmpty false g) s' b d).
Proof.
  intros Hr Hws Hg Hn Hv Hother.
  cbn [existsb] in Hother. rewrite !orb_false_iff in Hother.
  destruct Hother as (N1 & N2 & N3 & N4 & _).
  assert (Hn' : forallb tagChar name = true).
  { unfold tagName in Hn. rewrite !andb_true_iff in Hn. tauto. }
  destruct (readItem_tagLine g s b ws name value rest Hr Hws Hg Hn' Hv)
    as (s' & E & Hr').
  rewrite (finish_tag g name value s' b Hn Hv) in E.
  unfold applyTag in E. rewrite N1, N2, N3, N4 in E.
  exists s'. split; [exact Hr'|].
  rewrite parse_body_item, E. simpl. rewrite app_nil_r. reflexivity.
Qed.

(** A Result tag never fails: whatever its value, [readItem] gives
    [PgnTag] and the record takes the result [resultFromString] makes of
    the value, which is [ResultError], with a report, when the value is
    no result token. *)
Theorem readItem_result_tag (g : PgnGame Move) (s : QTextStream) (b : Board)
        (ws value rest : QString) :
  reading s (ws ++ tagLine (qs "Result") value ++ rest) ->
  forallb QCh.isSpace ws = true -> m_moves g = [] ->
  tagSafe value = true ->
  exists s',
    reading s' (LF :: rest)
    /\ readItem g s b
       = mkRead PgnTag (setResult (resultFromString value) g) s' b
                (if isResultToken value then [] else [InvalidResult value]).
Proof.
  intros Hr Hws Hg Hv.
  destruct (readItem_tagLine g s b ws (qs "Result") value rest Hr Hws Hg
                             eq_refl Hv)
    as (s' & E & Hr').
  rewrite (finish_tag g (qs "Result") value s' b eq_refl Hv) in E.
  exists s'. split; [exact Hr'|]. rewrite E.
  unfold applyTag.
  change (qs "Result" =s? qs "White") with false.
  change (qs "Result" =s? qs "Black") with false.
  change (qs "Result" =s? qs "Result") with true. cbv iota zeta.
  simpl m_result.
  pose proof (resultFromString_error value) as Ht.
  destruct (isResultToken value) eqn:Hk.
  - destruct (resultFromString value) eqn:Er; try reflexivity.
    destruct Ht as [Ht _]. discriminate (Ht eq_refl).
  - rewrite (proj2 Ht eq_refl). reflexivity.
Qed.

End ItemFacts.

(** ** Comments and escaped lines *)

Section CommentFacts.

Context {Board Move : Type} {CB : ChessBoard Board Move}.
Import TS TSFacts QStrFacts.

(** The bracket that opens a comment. *)
Lemma pass_comment_open (g : PgnGame Move) s o cl rest :
  (o = "(" /\ cl = ")") \/ (o = "{" /\ cl = "}") ->
  reading s (o :: rest) -> m_isEmpty g = false ->
  readItem_body g (outside PgnMove []) s
  = Continue (inComment o cl 1 []) (advance 1 s).
Proof.
  intros Ho Hr Hg. destruct (reading_char _ _ _ Hr) as [E _].
  unfold readItem_body. rewrite E, Hg.
  destruct Ho as [[-> ->]|[-> ->]]; reflexivity.
Qed.

(** Inside a comment: one more character of it, a bracket that opens a
    comment inside it, and a bracket that closes one. *)
Lemma pass_comment_char (g : PgnGame Move) s o cl level acc c rest :
  reading s (c :: rest) -> m_isEmpty g = false -> QCh.isNull o = false ->
  (c =c? o) = false -> (c =c? cl) = false ->
  readItem_body g (inComment o cl level acc) s
  = Continue (inComment o cl level (acc ++ [c])) (advance 1 s).
Proof.
  intros Hr Hg Ho H1 H2. destruct (reading_char _ _ _ Hr) as [E _].
  unfold readItem_body. rewrite E, Hg. simpl.
  rewrite andb_false_r, Ho. simpl.
  unfold accumulate. simpl. rewrite H1, H2. reflexivity.
Qed.

Lemma pass_comment_deeper (g : PgnGame Move) s o cl level acc rest :
  reading s (o :: rest) -> m_isEmpty g = false -> QCh.isNull o = false ->
  readItem_body g (inComment o cl level acc) s
  = Continue (inComment o cl (level + 1) acc) (advance 1 s).
Proof.
  intros Hr Hg Ho. destruct (reading_char _ _ _ Hr) as [E _].
  unfold readItem_body. rewrite E, Hg. simpl.
  rewrite andb_false_r, Ho. simpl.
  unfold accumulate. simpl. rewrite QCh_eqb_refl. reflexivity.
Qed.

Lemma pass_comment_close (g : PgnGame Move) s o cl level acc rest :
  reading s (cl :: rest) -> m_isEmpty g = false -> QCh.isNull o = false ->
  (cl =c? o) = false ->
  readItem_body g (inComment o cl level acc) s
  = if (level - 1 <=? 0)%Z
    then Break (inComment o cl (level - 1) acc) (advance 1 s)
    else Continue (inComment o cl (level - 1) acc) (advance 1 s).
Proof.
  intros Hr Hg Ho H1. destruct (reading_char _ _ _ Hr) as [E _].
  unfold readItem_body. rewrite E, Hg. simpl.
  rewrite andb_false_r, Ho. simpl.
  unfold accumulate. simpl. rewrite H1, QCh_eqb_refl. reflexivity.
Qed.

(** The passes over what is inside a comment. *)
Lemma scans_comment (g : PgnGame Move) o cl body :
  m_isEmpty g = false -> QCh.isNull o = false -> (cl =c? o) = false ->
  forall s rest level acc,
    reading s (body ++ cl :: rest) -> (1 <= level)%Z ->
    nested o cl level body = true ->
    exists s',
      scans g (inComment o cl level acc) s
            (inComment o cl 1 (acc ++ commentText o cl body)) s'
      /\ reading s' (cl :: rest).
Proof.
  intros Hg Ho Hcl.
  induction body as [|c body IH]; intros s rest level acc Hr Hl Hn.
  - simpl in Hn. apply Z.eqb_eq in Hn. subst level.
    exists s. simpl. rewrite app_nil_r. split; [constructor|exact Hr].
  - destruct (reading_char _ _ _ Hr) as [_ Hr1].
    simpl in Hn. unfold commentText. simpl.
    destruct (c =c? o) eqn:E1.
    + apply QCh_eqb_eq in E1. subst c. simpl.
      destruct (IH _ rest (level + 1)%Z acc Hr1) as (s' & Hsc & Hr');
        [lia|exact Hn|].
      exists s'. split; [|exact Hr'].
      eapply scans_pass; [exact (proj1 Hr)| |exact Hsc].
      apply (pass_comment_deeper g s o cl level acc (body ++ cl :: rest));
        assumption.
    + destruct (c =c? cl) eqn:E2.
      * apply QCh_eqb_eq in E2. subst c. simpl.
        apply andb_true_iff in Hn. destruct Hn as [Hlt Hn].
        apply Z.ltb_lt in Hlt.
        destruct (IH _ rest (level - 1)%Z acc Hr1) as (s' & Hsc & Hr');
          [lia|exact Hn|].
        exists s'. split; [|exact Hr'].
        eapply scans_pass; [exact (proj1 Hr)| |exact Hsc].
        rewrite (pass_comment_close g s o cl level acc (body ++ cl :: rest))
          by assumption.
        replace (level - 1 <=? 0)%Z with false
          by (symmetry; apply Z.leb_gt; lia).
        reflexivity.
      * simpl.
        destruct (IH _ rest level (acc ++ [c]) Hr1 Hl Hn)
          as (s' & Hsc & Hr').
        exists s'. split; [|exact Hr'].
        eapply scans_pass; [exact (proj1 Hr)| |].
        -- apply (pass_comment_char g s o cl level acc c
                                     (body ++ cl :: rest)); assumption.
        -- rewrite <- app_assoc in Hsc. exact Hsc.
Qed.

(** A comment in brackets, which may hold comments in brackets of the
    same kind, line ends and square brackets: [readItem] reads up to the
    bracket that closes it and leaves the record and the board as they
    are.  It gives [PgnComment], unless the comment without its brackets
    is empty or white space, when the call fails. *)
Theorem readItem_comment (g : PgnGame Move) (s : QTextStream) (b : Board)
        (ws : QString) (o cl : QChar) (body rest : QString) :
  (o = "(" /\ cl = ")") \/ (o = "{" /\ cl = "}") ->
  reading s (ws ++ o :: body ++ cl :: rest) ->
  forallb QCh.isSpace ws = true -> m_isEmpty g = false ->
  nested o cl 1 body = true ->
  exists s',
    reading s' rest
    /\ readItem g s b
       = mkRead (if QStr.isEmpty (QStr.trimmed (commentText o cl body))
                 then PgnError else PgnComment) g s' b [].
Proof.
  intros Ho Hr Hws Hg Hn.
  assert (Hfacts : QCh.isNull o = false /\ (cl =c? o) = false
                   /\ QCh.isSpace o = false).
  { destruct Ho as [[-> ->]|[-> ->]]; repeat split; reflexivity. }
  destruct Hfacts as (Hnull & Hcl & Hsp).
  pose proof (reading_skip s ws _ Hr Hws Hsp) as Hr0.
  destruct (reading_char _ _ _ Hr0) as [_ Hr1].
  destruct (scans_comment g o cl body Hg Hnull Hcl _ rest 1%Z [] Hr1)
    as (s1 & Hsc & Hr2); [lia|exact Hn|].
  destruct (reading_char _ _ _ Hr2) as [_ Hr3].
  exists (advance 1 s1). split; [exact Hr3|].
  unfold readItem. change Scan_init with (outside PgnMove []).
  rewrite (scans_readItem_from g (outside PgnMove []) (skipWhiteSpace s)
                               (inComment o cl 1 ([] ++ commentText o cl body))
                               s1).
  - rewrite (readItem_from_break g _ s1
               (inComment o cl 0 ([] ++ commentText o cl body))
               (advance 1 s1)).
    + unfold readItem_finish. simpl.
      destruct (QStr.isEmpty _); reflexivity.
    + exact (proj1 Hr2).
    + rewrite (pass_comment_close g s1 o cl 1 _ rest) by assumption.
      reflexivity.
  - eapply scans_pass; [exact (proj1 Hr0)| |exact Hsc].
    apply (pass_comment_open g _ o cl (body ++ cl :: rest)); assumption.
Qed.

(** *** To the end of the line *)

Lemma upToLF_app line rest :
  occurs LF line = false -> upToLF (line ++ LF :: rest) = line.
Proof.
  unfold occurs. induction line as [|c line IH]; intros H.
  - reflexivity.
  - cbn [existsb] in H. apply orb_false_iff in H. destruct H as [Hc Hl].
    cbn [app upToLF]. rewrite Hc, (IH Hl). reflexivity.
Qed.

(** [readLine] on a line that ends in a line feed. *)
Lemma readLine_line s line rest :
  reading s (line ++ LF :: rest) -> occurs LF line = false ->
  fst (readLine s) = chopCR line /\ reading (snd (readLine s)) rest.
Proof.
  intros [Hs Hr] Hl. unfold readLine. rewrite Hr, (upToLF_app _ _ Hl).
  rewrite skipn_app, Nat.sub_diag, skipn_all. simpl.
  split; [reflexivity|]. split; [exact Hs|].
  rewrite remaining_advance, Hr.
  change (S (length line)) with (1 + length line).
  rewrite <- skipn_skipn, skipn_app, Nat.sub_diag, skipn_all. reflexivity.
Qed.

(** A comment from a semicolon to the end of the line: [readItem] reads
    the line with its line feed and leaves the record and the board as
    they are.  It gives [PgnComment], unless nothing or white space only
    follows the semicolon, when the call fails. *)
Theorem readItem_line_comment (g : PgnGame Move) (s : QTextStream)
        (b : Board) (ws line rest : QString) :
  reading s (ws ++ ";" :: line ++ LF :: rest) ->
  forallb QCh.isSpace ws = true -> m_isEmpty g = false ->
  occurs LF line = false ->
  exists s',
    reading s' rest
    /\ readItem g s b
       = mkRead (if QStr.isEmpty (QStr.trimmed (chopCR line))
                 then PgnError else PgnComment) g s' b [].
Proof.
  intros Hr Hws Hg Hl.
  pose proof (reading_skip s ws _ Hr Hws eq_refl) as Hr0.
  destruct (reading_char _ _ _ Hr0) as [E Hr1].
  destruct (readLine_line _ line rest Hr1 Hl) as [Hline Hr2].
  exists (snd (readLine (advance 1 (skipWhiteSpace s)))).
  split; [exact Hr2|].
  unfold readItem.
  rewrite (readItem_from_break g Scan_init (skipWhiteSpace s)
             (setStr (chopCR line) (setItemType PgnComment Scan_init))
             (snd (readLine (advance 1 (skipWhiteSpace s))))).
  - unfold readItem_finish. simpl.
    destruct (QStr.isEmpty _); reflexivity.
  - exact (proj1 Hr0).
  - unfold readItem_body. rewrite E, Hg. simpl.
    unfold atTokenStart. change (";" =c? ";") with true. cbv iota.
    destruct (readLine (advance 1 (skipWhiteSpace s))) as [l s2].
    simpl in Hline. subst l. reflexivity.
Qed.

Lemma skipWhiteSpace_solid s text :
  reading s text -> solidHead text -> skipWhiteSpace s = s.
Proof.
  intros [_ Hr] Hh. unfold skipWhiteSpace. rewrite Hr.
  assert (E : spaces text = 0).
  { destruct text as [|c t]; [reflexivity|]. simpl in *. rewrite Hh.
    reflexivity. }
  rewrite E. unfold advance. destruct s; simpl. f_equal. lia.
Qed.

(** A line escaped by a percent sign where an item would begin is
    dropped with its line feed: when the next line begins with no white
    space, [readItem] gives what it gives from there. *)
Theorem readItem_escaped_line (g : PgnGame Move) (s : QTextStream)
        (b : Board) (ws line rest : QString) :
  reading s (ws ++ "%" :: line ++ LF :: rest) ->
  forallb QCh.isSpace ws = true -> m_isEmpty g = false ->
  occurs LF line = false -> solidHead rest ->
  exists s', reading s' rest /\ readItem g s b = readItem g s' b.
Proof.
  intros Hr Hws Hg Hl Hrest.
  pose proof (reading_skip s ws _ Hr Hws eq_refl) as Hr0.
  destruct (reading_char _ _ _ Hr0) as [E Hr1].
  destruct (readLine_line _ line rest Hr1 Hl) as [_ Hr2].
  exists (snd (readLine (advance 1 (skipWhiteSpace s)))).
  split; [exact Hr2|].
  unfold readItem at 2. rewrite (skipWhiteSpace_solid _ _ Hr2 Hrest).
  unfold readItem. apply scans_readItem_from.
  eapply scans_pass; [exact (proj1 Hr0)| |apply scans_here].
  unfold readItem_body. rewrite E, Hg. reflexivity.
Qed.

(** White space where the token of an item would begin ends the item
    with nothing in it. *)
Lemma pass_space_first (g : PgnGame Move) s c rest t :
  reading s (c :: rest) -> m_isEmpty g = false -> QCh.isSpace c = true ->
  t = PgnMove \/ t = PgnNag ->
  readItem_body g (outside t []) s = Break (outside t []) (advance 1 s).
Proof.
  intros Hr Hg Hc Ht. destruct (reading_char _ _ _ Hr) as [E _].
  unfold readItem_body. rewrite E, Hg. simpl.
  assert (Htc : (t =i? PgnComment) = false)
    by (destruct Ht as [-> | ->]; reflexivity).
  rewrite Htc. simpl. rewrite andb_true_r.
  destruct ((c =c? LF) || (c =c? CR)); [reflexivity|].
  destruct (space_facts c Hc) as (S1 & S2 & S3 & S4).
  unfold atTokenStart.
  replace (c =c? ";") with false by (symmetry; differs c ";").
  replace (c =c? "%") with false by (symmetry; differs c "%").
  replace (c =c? ".") with false by (symmetry; differs c ".").
  replace (c =c? "$") with false by (symmetry; differs c "$").
  replace (QCh.isDigit c) with false
    by (symmetry; destruct (QCh.isDigit c) eqn:Ed; [|reflexivity];
        rewrite (digit_not_space c Ed) in Hc; discriminate).
  simpl. unfold atBracket; cbv zeta. rewrite S2, S3, S4. simpl.
  unfold accumulate; simpl. unfold QCh.isNull in S1. rewrite S1, Hc.
  destruct Ht as [-> | ->]; reflexivity.
Qed.

(** But when white space follows the escaped line, be it an empty line,
    the call fails: the item that begins after the line is empty. *)
Theorem readItem_escaped_line_then_space (g : PgnGame Move)
        (s : QTextStream) (b : Board) (ws line : QString) (c : QChar)
        (rest : QString) :
  reading s (ws ++ "%" :: line ++ LF :: c :: rest) ->
  forallb QCh.isSpace ws = true -> m_isEmpty g = false ->
  occurs LF line = false -> QCh.isSpace c = true ->
  exists s', reading s' rest /\ readItem g s b = mkRead PgnError g s' b [].
Proof.
  intros Hr Hws Hg Hl Hc.
  pose proof (reading_skip s ws _ Hr Hws eq_refl) as Hr0.
  destruct (reading_char _ _ _ Hr0) as [E Hr1].
  destruct (readLine_line _ line (c :: rest) Hr1 Hl) as [_ Hr2].
  destruct (reading_char _ _ _ Hr2) as [_ Hr3].
  exists (advance 1 (snd (readLine (advance 1 (skipWhiteSpace s))))).
  split; [exact Hr3|].
  unfold readItem. change Scan_init with (outside PgnMove []).
  rewrite (scans_readItem_from g (outside PgnMove []) (skipWhiteSpace s)
             (outside PgnMove [])
             (snd (readLine (advance 1 (skipWhiteSpace s))))).
  - rewrite (readItem_from_break g _ _ (outside PgnMove [])
               (advance 1 (snd (readLine (advance 1 (skipWhiteSpace s)))))).
    + reflexivity.
    + exact (proj1 Hr2).
    + apply (pass_space_first g _ c rest); auto.
  - eapply scans_pass; [exact (proj1 Hr0)| |apply scans_here].
    unfold readItem_body. rewrite E, Hg. reflexivity.
Qed.

End CommentFacts.

(** ** Move numbers, periods and termination markers *)

Section TokenFacts.

Context {Board Move : Type} {CB : ChessBoard Board Move}.
Import TS TSFacts QStrFacts.

(** A move number, that is digits up to white space or a period:
    [readItem] reads it with what ends it, gives [PgnMoveNumber] and
    leaves the record and the board as they are. *)
Theorem readItem_move_number (g : PgnGame Move) (s : QTextStream)
        (b : Board) (ws digits : QString) (term : QChar) (rest : QString) :
  reading s (ws ++ digits ++ term :: rest) ->
  forallb QCh.isSpace ws = true -> m_isEmpty g = false ->
  forallb QCh.isDigit digits = true -> digits <> [] ->
  QCh.isSpace term = true \/ term = "." ->
  exists s',
    reading s' rest /\ readItem g s b = mkRead PgnMoveNumber g s' b [].
Proof.
  intros Hr Hws Hg Hd Hne Hterm.
  destruct digits as [|c cs]; [congruence|].
  pose proof Hd as Hd'.
  simpl in Hd. apply andb_true_iff in Hd. destruct Hd as [Hc Hcs].
  destruct (digits_plain cs Hcs) as (Hp & Hdot & _).
  destruct (readItem_token g s b ws c cs term rest Hr Hws Hg
                           (digit_first c Hc) Hp)
    as (s' & E & Hr'); [right; auto|].
  exists s'. split; [exact Hr'|].
  rewrite E, Hc. apply finish_number; [exact Hd'|discriminate].
Qed.

(** The tokens that are results, by the result each is written for. *)
Lemma result_token t :
  isResultToken t = true -> exists r, t = resultToString r.
Proof.
  unfold isResultToken. rewrite !orb_true_iff, !QStr_eqb_eq.
  intros [[[-> | ->] | ->] | ->].
  - exists NoResult. reflexivity.
  - exists DrawByAgreement. reflexivity.
  - exists WhiteMates. reflexivity.
  - exists BlackMates. reflexivity.
Qed.

(** A termination marker where a move would stand: [readItem] reads it
    with the white space that ends it, gives [PgnResult] and makes its
    result the result of the record, whatever a [Result] tag said; when
    the two differ there is a message and nothing more. *)
Theorem readItem_termination_marker (g : PgnGame Move) (s : QTextStream)
        (b : Board) (ws tok : QString) (term : QChar) (rest : QString) :
  reading s (ws ++ tok ++ term :: rest) ->
  forallb QCh.isSpace ws = true -> m_isEmpty g = false ->
  isResultToken tok = true -> QCh.isSpace term = true ->
  exists s',
    reading s' rest
    /\ readItem g s b
       = mkRead PgnResult (setResult (resultFromString tok) g) s' b
                (if Result_eqb (resultFromString tok) (m_result g)
                 then [] else [TerminationMarkerDiffers]).
Proof.
  intros Hr Hws Hg Htok Hterm.
  destruct (result_token tok Htok) as [r ->].
  assert (Hshape : exists c cs,
             resultToString r = c :: cs /\ firstChar c = true
             /\ forallb plainChar cs = true
             /\ (QCh.isDigit c = true -> occurs "." cs = false)).
  { destruct r; eexists; eexists; repeat split; reflexivity. }
  destruct Hshape as (c & cs & Er & Hc & Hcs & Hdot).
  assert (Hr' : reading s (ws ++ c :: cs ++ term :: rest)).
  { destruct Hr as [Hs Hr]. split; [exact Hs|]. rewrite Hr, Er.
    rewrite <- app_comm_cons. reflexivity. }
  destruct (readItem_token g s b ws c cs term rest Hr' Hws Hg Hc Hcs)
    as (s' & E & Hrest).
  { destruct (QCh.isDigit c); [right|left]; auto. }
  exists s'. split; [exact Hrest|].
  rewrite E, <- Er, finish_result by (destruct (QCh.isDigit c); auto).
  destruct (Result_eqb _ _); reflexivity.
Qed.

(** A period where an item would begin is dropped with the white space
    after it, and [readItem] gives what it gives from there: the periods
    after a move number are no items of their own. *)
Theorem readItem_leading_period (g : PgnGame Move) (s : QTextStream)
        (b : Board) (ws gap rest : QString) :
  reading s (ws ++ "." :: gap ++ rest) ->
  forallb QCh.isSpace ws = true -> m_isEmpty g = false ->
  forallb QCh.isSpace gap = true -> solidHead rest ->
  exists s', reading s' rest /\ readItem g s b = readItem g s' b.
Proof.
  intros Hr Hws Hg Hgap Hrest.
  pose proof (reading_skip s ws _ Hr Hws eq_refl) as Hr0.
  destruct (reading_char _ _ _ Hr0) as [E Hr1].
  pose proof (reading_skip _ gap rest Hr1 Hgap Hrest) as Hr2.
  exists (skipWhiteSpace (advance 1 (skipWhiteSpace s))).
  split; [exact Hr2|].
  unfold readItem at 2. rewrite skipWhiteSpace_twice.
  unfold readItem. apply scans_readItem_from.
  eapply scans_pass; [exact (proj1 Hr0)| |apply scans_here].
  unfold readItem_body. rewrite E, Hg. reflexivity.
Qed.

End TokenFacts.


(** ** Members no text reaches *)

Section MemberFacts.

Context {Board Move : Type} {CB : ChessBoard Board Move}.

Lemma readItem_keeps_round (g : PgnGame Move) s (b : Board) :
  m_round (game (readItem g s b)) = m_round g.
Proof.
  unfold readItem, readItem_from.
  destruct (readItem_loop _ _ _ _) as [[sc' s'|it s' d]|]; simpl; auto.
  unfold readItem_finish, readTag, applyTag, readMove, readNag.
  repeat match goal with
         | |- context [if ?c then _ else _] => destruct c
         | |- context [match ?c with _ => _ end] => destruct c
         end; reflexivity.
Qed.

Lemma parse_loop_keeps_round fuel maxMoves (p q : Parser Board Move) :
  parse_loop fuel maxMoves p = Some q ->
  m_round (p_game q) = m_round (p_game p).
Proof.
  revert p; induction fuel as [|fuel IH]; intros p; [discriminate|].
  simpl. destruct (parse_cond maxMoves p); [|intros [= <-]; reflexivity].
  assert (Hb : m_round (p_game (snd (parse_body p))) = m_round (p_game p)).
  { pose proof (readItem_keeps_round (p_game p) (p_stream p) (p_board p))
      as H.
    unfold parse_body. destruct (item _); exact H. }
  destruct (parse_body p) as [[|] p']; simpl in Hb.
  - intros H. apply IH in H. congruence.
  - intros [= <-]. exact Hb.
Qed.

(** Whatever the text holds, a [Variant] tag or a [Round] tag included,
    the record the constructor builds from it is of the standard variant,
    not of a random one, and of round 0. *)
Theorem read_is_standard (s : QTextStream) (maxMoves : Z) :
  m_variant (PgnGame_read (Board:=Board) s maxMoves) = StandardChess
  /\ m_isRandomVariant (PgnGame_read (Board:=Board) s maxMoves) = false
  /\ m_round (PgnGame_read (Board:=Board) s maxMoves) = 0%Z.
Proof.
  unfold PgnGame_read, parse.
  destruct (parse_loop _ _ _) as [q|] eqn:E; [|auto].
  pose proof (parse_loop_variant _ _ _ _ E) as [Hv Hr].
  pose proof (parse_loop_keeps_round _ _ _ _ E) as Hn.
  rewrite Hv, Hr, Hn. auto.
Qed.

(** The round, which the constructor from a game leaves as it finds it,
    does not reach the file: whatever it holds, the same is written. *)
Theorem write_ignores_round (game : ChessGame Board) (r1 r2 : Z)
        (filename : QString) (today : QDate) (fs : Files) :
  write (PgnGame_ofGame (Move:=Move) game r1) filename today fs
  = write (PgnGame_ofGame (Move:=Move) game r2) filename today fs.
Proof.
  unfold write. rewrite !ofGame_not_empty.
  destruct (appendable fs filename); [|reflexivity].
  f_equal.
Qed.

End MemberFacts.


(** ** The properties at work *)

Section Examples.

Import TestBoard Sample.

(** Scenario 1 of the specification. *)
Example read_scenario1 :
  PgnGame_read (Board:=TestBoard.Board) (TS.open scenario1) 1000
  = mkPgnGame (qs "A") (qs "B") [qs "e4"; qs "e5"; qs "Nf3"] standardFen
              StandardChess false WhiteMates false 0.
Proof. vm_compute. reflexivity. Qed.

(** Scenario 2: the game stops at the illegal move. *)
Example read_illegal_move :
  m_moves (PgnGame_read (Board:=TestBoard.Board) (TS.open illegalMove) 1000)
  = [qs "e4"]
  /\ p_debug (parse (Board:=TestBoard.Board) (TS.open illegalMove) 1000)
     = [IllegalMove (qs "e9")].
Proof. split; vm_compute; reflexivity. Qed.

(** Scenario 4: before ply 16 there are a line break and a move number,
    before ply 15 neither. *)
Example seventeen_plies :
  plyText board0 (m_moves seventeenPlies) 16 = LF :: qs "9. h3 "
  /\ plyText board0 (m_moves seventeenPlies) 15 = qs "O-O ".
Proof. split; vm_compute; reflexivity. Qed.

Lemma write_then_read_witness :
  exists text,
    contents (write threePlies (qs "games.pgn") today noFiles)
             (qs "games.pgn") = Some text
    /\ let g' := PgnGame_read (Board:=TestBoard.Board) (TS.open text) 1000 in
       m_isEmpty g' = false
       /\ m_whitePlayer g' = m_whitePlayer threePlies
       /\ m_blackPlayer g' = m_blackPlayer threePlies
       /\ m_result g'
          = resultFromString (resultToString (m_result threePlies))
       /\ m_fen g' = m_fen threePlies
       /\ m_variant g' = m_variant threePlies
       /\ m_moves g' = m_moves threePlies
       /\ m_isRandomVariant g' = false
       /\ (m_isRandomVariant g' = m_isRandomVariant threePlies
           <-> m_isRandomVariant threePlies = false).
Proof.
  apply (write_then_read threePlies (qs "games.pgn") today noFiles 1000);
    try reflexivity.
  simpl. repeat split; reflexivity.
Defined.

(** The same for a start position of its own; the record is marked as
    of a random start position, and the one read back is not. *)
Example write_then_read_shuffled :
  exists text,
    contents (write shuffled (qs "games.pgn") today noFiles)
             (qs "games.pgn") = Some text
    /\ PgnGame_read (Board:=TestBoard.Board) (TS.open text) 1000
       = mkPgnGame (qs "Anna Linn") (qs "Bo") [qs "e4"; qs "e5"]
                   (m_fen shuffled) StandardChess false DrawByAgreement
                   false 0.
Proof.
  exists (write_text shuffled today).
  split; vm_compute; reflexivity.
Qed.

(** Against C1 as it stands: the reader knows one variant only, and a
    Capablanca game comes back as a standard one from the standard start
    position. *)
Lemma write_then_read_capablanca :
  m_isEmpty capablanca = false
  /\ m_variant capablanca = CapablancaChess
  /\ m_variant (readBack capablanca) = StandardChess
  /\ m_fen capablanca = capablancaFen
  /\ m_fen (readBack capablanca) = standardFen
  /\ ~ (m_whitePlayer (readBack capablanca) = m_whitePlayer capablanca
        /\ m_blackPlayer (readBack capablanca) = m_blackPlayer capablanca
        /\ m_result (readBack capablanca) = m_result capablanca
        /\ m_fen (readBack capablanca) = m_fen capablanca
        /\ m_variant (readBack capablanca) = m_variant capablanca).
Proof.
  vm_compute. repeat split; try reflexivity.
  intros (_ & _ & _ & _ & H). discriminate H.
Qed.

(** And results come back as the result their token stands for. *)
Example write_then_read_resigned :
  m_result (readBack resigned) = WhiteMates
  /\ m_result resigned = BlackResigns.
Proof. split; vm_compute; reflexivity. Qed.

(** Against C2 as it stands: with a negative [maxMoves] the record has no
    move, which is more than [maxMoves]. *)
Lemma parse_negative_maxMoves :
  ~ (Z.of_nat (length (m_moves (PgnGame_read (Board:=TestBoard.Board)
                                             (TS.open scenario1) (-1))))
     <= -1)%Z.
Proof. vm_compute. intros H; apply H; reflexivity. Qed.

(** Against C3 as it stands: inside a comment the bracket is text, nothing
    fails and the stream is past it. *)
Lemma bracket_inside_comment :
  m_moves oneMoveIn <> [] /\ nth_error bracketComment 1 = Some "["%char
  /\ item atBracketComment = PgnComment /\ game atBracketComment = oneMoveIn
  /\ TS.pos (stream atBracketComment) = 16%Z.
Proof. vm_compute. repeat split; try reflexivity. discriminate. Qed.

Lemma readItem_tag_after_moves_witness :
  item atNextGame = PgnError /\ debug atNextGame = [NoTerminationMarker]
  /\ game atNextGame = oneMoveIn /\ board atNextGame = board0
  /\ stream atNextGame = mkStream nextGame 2 Ok
  /\ TS.pos (stream atNextGame)
     = (TS.pos (snd (TS.readChar (mkStream nextGame 2 Ok))) - 1)%Z
  /\ fst (TS.readChar (stream atNextGame)) = "["%char.
Proof.
  apply (readItem_tag_after_moves oneMoveIn (TS.open nextGame) board0 2
           (outside PgnMove (qs "e5")) (mkStream nextGame 2 Ok)
           (skipn 3 nextGame)).
  - discriminate.
  - reflexivity.
  - reflexivity.
  - reflexivity.
  - reflexivity.
Defined.

Lemma readItem_fen_tag_witness :
  item atEmptyFen = PgnError /\ debug atEmptyFen = [InvalidFen []]
  /\ m_fen (game atEmptyFen) = []
  /\ parse_loop 5 1000 beforeEmptyFen
     = Some (mkParser (setFen [] startGame) (mkStream emptyFen 8 Ok) board0
                      [InvalidFen []]).
Proof.
  destruct (readItem_fen_tag 1000 beforeEmptyFen 20 4
              (inTag 0 (qs "FEN " ++ [QUOTE; QUOTE]))
              (mkStream emptyFen 8 Ok) [] eq_refl eq_refl eq_refl eq_refl
              eq_refl)
    as (_ & H2 & _ & _ & H5).
  change (fst (setBoard (p_board beforeEmptyFen) [])) with false in H5.
  destruct H5 as (H3 & H4 & H6).
  exact (conj H3 (conj H4 (conj H2 H6))).
Defined.

(** The other half of C4: a position the board accepts. *)
Example readItem_fen_accepted :
  PgnGame_read (Board:=TestBoard.Board)
               (TS.open (tagLine (qs "FEN") (m_fen shuffled)
                         ++ qs "1. e4 *")) 1000
  = mkPgnGame [] [] [qs "e4"] (m_fen shuffled) StandardChess false NoResult
              false 0.
Proof. vm_compute. reflexivity. Qed.

Lemma parse_without_bracket_witness :
  m_isEmpty (PgnGame_read (Board:=TestBoard.Board)
                          (TS.open (qs "1. e4 e5 2. Nf3 1-0")) 1000) = true
  /\ m_moves (PgnGame_read (Board:=TestBoard.Board)
                           (TS.open (qs "1. e4 e5 2. Nf3 1-0")) 1000) = [].
Proof. apply parse_without_bracket. reflexivity. Defined.

Lemma write_empty_witness :
  write (startGame (Board:=TestBoard.Board)) (qs "games.pgn") today noFiles
  = noFiles.
Proof. apply write_empty. reflexivity. Defined.

Lemma write_move_text_witness :
  write seventeenPlies (qs "games.pgn") today noFiles
  = appendTo (qs "games.pgn")
             (write_tags seventeenPlies (Date.toString today)
              ++ moveText (replayBoard seventeenPlies)
                          (m_moves seventeenPlies)
              ++ resultToString (m_result seventeenPlies) ++ [LF; LF])
             noFiles.
Proof. apply write_move_text; reflexivity. Defined.


Example write_gothic_random :
  write_text (gothic true) today
  = tagLine (qs "Date") (qs "2009.03.14")
    ++ tagLine (qs "White") (qs "A") ++ tagLine (qs "Black") (qs "B")
    ++ tagLine (qs "Result") (qs "*")
    ++ tagLine (qs "Variant") (qs "Capablancarandom")
    ++ LF :: qs "1. e4 *" ++ [LF; LF].
Proof. vm_compute. reflexivity. Qed.

Lemma readItem_nag_witness :
  item atGlyph = PgnError /\ game atGlyph = oneMoveIn
  /\ board atGlyph = board0.
Proof.
  destruct (readItem_nag oneMoveIn (TS.open (qs "$256 e5")) board0 20
              (outside PgnNag (qs "256"))
              (mkStream (qs "$256 e5") 5 Ok) eq_refl eq_refl)
    as (H1 & _ & H3 & H4 & _).
  split; [|split; assumption].
  apply H1.
  change (QStr.toInt (QStr.trimmed (str (outside PgnNag (qs "256")))))
    with (Some 256%Z).
  right. reflexivity.
Defined.

Example readItem_nag_accepted :
  item (readItem oneMoveIn (TS.open (qs "$255 e5")) board0) = PgnNag
  /\ game (readItem oneMoveIn (TS.open (qs "$255 e5")) board0) = oneMoveIn.
Proof. vm_compute. split; reflexivity. Qed.

Lemma readItem_empty_record_witness :
  (item atEarlyMove = PgnTag \/ item atEarlyMove = PgnError)
  /\ ~ In NoTagsFound (debug atEarlyMove).
Proof.
  apply (readItem_empty_record startGame (TS.open (qs "1. e4 [White")) board0).
  reflexivity.
Defined.

End Examples.

(** ** The further properties at work *)

Section MoreExamples.

Import TestBoard Sample.

Lemma readItem_tag_without_moves_witness :
  item (readItem startGame (TS.open (tagLine (qs "White") (qs "A"))) board0)
  = PgnTag
  /\ m_moves (startGame (Board:=TestBoard.Board)) = [].
Proof.
  split; [reflexivity|].
  apply (readItem_tag_without_moves
           startGame (TS.open (tagLine (qs "White") (qs "A"))) board0).
  reflexivity.
Defined.

Lemma read_empty_without_moves_witness :
  m_isEmpty (PgnGame_read (Board:=TestBoard.Board)
                          (TS.open (qs "1. e4 e5")) 1000) = true
  /\ m_moves (PgnGame_read (Board:=TestBoard.Board)
                           (TS.open (qs "1. e4 e5")) 1000) = [].
Proof.
  split; [reflexivity|].
  apply (read_empty_without_moves (TS.open (qs "1. e4 e5")) 1000).
  reflexivity.
Defined.

Lemma read_moves_legal_witness :
  exists b0,
    startsFrom (p_game (parse (Board:=TestBoard.Board)
                              (TS.open scenario1) 1000)) b0
    /\ legalFrom b0 (m_moves (p_game (parse (Board:=TestBoard.Board)
                                            (TS.open scenario1) 1000)))
       = true
    /\ p_board (parse (Board:=TestBoard.Board) (TS.open scenario1) 1000)
       = fold_left makeMove
                   (m_moves (p_game (parse (Board:=TestBoard.Board)
                                           (TS.open scenario1) 1000))) b0.
Proof.
  apply (read_moves_legal (TS.open scenario1) 1000).
  vm_compute. discriminate.
Defined.

Lemma loops_end_witness :
  (exists r,
      readItem_loop 5 oneMoveIn Scan_init (TS.open (qs "e5 ")) = Some r
      /\ forall b : TestBoard.Board,
           readItem_from Scan_init oneMoveIn (TS.open (qs "e5 ")) b
           = readItem_after oneMoveIn b r)
  /\ parse_loop 5 1000 (parse_start (TS.open (qs "e5 ")))
     = Some (parse (Board:=TestBoard.Board) (TS.open (qs "e5 ")) 1000).
Proof.
  apply (loops_end oneMoveIn Scan_init (TS.open (qs "e5 ")) 1000 5).
  vm_compute. lia.
Defined.

Lemma read_two_written_games_witness :
  exists text,
    contents (write shuffled (qs "games.pgn") today
                    (write threePlies (qs "games.pgn") today noFiles))
             (qs "games.pgn")
    = Some text
    /\ headerOf (p_game (parse (Board:=TestBoard.Board) (TS.open text) 1000))
                threePlies
    /\ m_moves (p_game (parse (Board:=TestBoard.Board) (TS.open text) 1000))
       = m_moves threePlies
    /\ headerOf
         (p_game (parse (p_stream (parse (Board:=TestBoard.Board)
                                         (TS.open text) 1000)) 1000))
         shuffled
    /\ m_moves
         (p_game (parse (p_stream (parse (Board:=TestBoard.Board)
                                         (TS.open text) 1000)) 1000))
       = m_moves shuffled.
Proof.
  apply (read_two_written_games threePlies shuffled (qs "games.pgn") today
                                noFiles 1000).
  - unfold readable. simpl. repeat split; reflexivity.
  - unfold readable. simpl. repeat split; reflexivity.
  - reflexivity.
  - reflexivity.
  - reflexivity.
  - reflexivity.
Defined.

Lemma read_first_moves_witness :
  headerOf (PgnGame_read (Board:=TestBoard.Board)
                         (TS.open (write_text seventeenPlies today)) 5)
           seventeenPlies
  /\ m_moves (PgnGame_read (Board:=TestBoard.Board)
                           (TS.open (write_text seventeenPlies today)) 5)
     = firstn (Z.to_nat 5) (m_moves seventeenPlies).
Proof.
  apply (read_first_moves seventeenPlies today 5).
  - unfold readable. simpl. repeat split; reflexivity.
  - simpl. lia.
Defined.

Lemma readItem_move_token_witness :
  exists s',
    reading s' (qs "Nf3")
    /\ readItem oneMoveIn (TS.open (qs " e5 Nf3")) board0
       = if isLegalMove board0 (moveFromString board0 (qs "e5"))
         then mkRead PgnMove
                     (setMoves (m_moves oneMoveIn
                                ++ [moveFromString board0 (qs "e5")])
                               oneMoveIn) s'
                     (makeMove board0 (moveFromString board0 (qs "e5"))) []
         else mkRead PgnError oneMoveIn s' board0 [IllegalMove (qs "e5")].
Proof.
  apply (readItem_move_token oneMoveIn (TS.open (qs " e5 Nf3")) board0
                             (qs " ") (qs "e5") " "%char (qs "Nf3")).
  - split; reflexivity.
  - reflexivity.
  - reflexivity.
  - reflexivity.
  - reflexivity.
Defined.

Lemma readItem_tag_pair_witness :
  exists s',
    reading s' (LF :: qs "1. e4")
    /\ readItem startGame
                (TS.open (tagLine (qs "Black") (qs "B") ++ qs "1. e4"))
                board0
       = applyTag (qs "Black") (qs "B") startGame s' board0.
Proof.
  apply (readItem_tag_pair startGame
           (TS.open (tagLine (qs "Black") (qs "B") ++ qs "1. e4")) board0
           [] (qs "Black") (qs "B") (qs "1. e4")).
  - split; reflexivity.
  - reflexivity.
  - reflexivity.
  - reflexivity.
  - reflexivity.
Defined.

Lemma parse_body_other_tag_witness :
  exists s',
    reading s' (LF :: qs "1. e4")
    /\ parse_body
         (mkParser startGame
                   (TS.open (tagLine (qs "Event") (qs "Open") ++ qs "1. e4"))
                   board0 [])
       = (true, mkParser (setIsEmpty false startGame) s' board0 []).
Proof.
  apply (parse_body_other_tag startGame
           (TS.open (tagLine (qs "Event") (qs "Open") ++ qs "1. e4")) board0
           [] [] (qs "Event") (qs "Open") (qs "1. e4")).
  - split; reflexivity.
  - reflexivity.
  - reflexivity.
  - reflexivity.
  - reflexivity.
  - reflexivity.
Defined.

Lemma readItem_result_tag_witness :
  exists s',
    reading s' (LF :: qs "1. e4")
    /\ readItem startGame
                (TS.open (tagLine (qs "Result") (qs "draw") ++ qs "1. e4"))
                board0
       = mkRead PgnTag (setResult (resultFromString (qs "draw")) startGame)
                s' board0
                (if isResultToken (qs "draw") then []
                 else [InvalidResult (qs "draw")]).
Proof.
  apply (readItem_result_tag startGame
           (TS.open (tagLine (qs "Result") (qs "draw") ++ qs "1. e4")) board0
           [] (qs "draw") (qs "1. e4")).
  - split; reflexivity.
  - reflexivity.
  - reflexivity.
  - reflexivity.
Defined.

Lemma readItem_comment_witness :
  exists s',
    reading s' (qs " e5")
    /\ readItem oneMoveIn (TS.open (qs "{a {b} [c} e5")) board0
       = mkRead (if QStr.isEmpty
                      (QStr.trimmed (commentText "{" "}" (qs "a {b} [c")))
                 then PgnError else PgnComment) oneMoveIn s' board0 [].
Proof.
  apply (readItem_comment oneMoveIn (TS.open (qs "{a {b} [c} e5")) board0
                          [] "{"%char "}"%char (qs "a {b} [c") (qs " e5")).
  - right. split; reflexivity.
  - split; reflexivity.
  - reflexivity.
  - reflexivity.
  - reflexivity.
Defined.

Lemma readItem_line_comment_witness :
  exists s',
    reading s' (qs "e5")
    /\ readItem oneMoveIn
                (TS.open (";"%char :: qs " book" ++ LF :: qs "e5")) board0
       = mkRead (if QStr.isEmpty (QStr.trimmed (TS.chopCR (qs " book")))
                 then PgnError else PgnComment) oneMoveIn s' board0 [].
Proof.
  apply (readItem_line_comment
           oneMoveIn (TS.open (";"%char :: qs " book" ++ LF :: qs "e5"))
           board0 [] (qs " book") (qs "e5")).
  - split; reflexivity.
  - reflexivity.
  - reflexivity.
  - reflexivity.
Defined.

Lemma readItem_escaped_line_witness :
  exists s',
    reading s' (qs "e5 ")
    /\ readItem oneMoveIn
                (TS.open ("%"%char :: qs "skip" ++ LF :: qs "e5 ")) board0
       = readItem oneMoveIn s' board0.
Proof.
  apply (readItem_escaped_line
           oneMoveIn (TS.open ("%"%char :: qs "skip" ++ LF :: qs "e5 "))
           board0 [] (qs "skip") (qs "e5 ")).
  - split; reflexivity.
  - reflexivity.
  - reflexivity.
  - reflexivity.
  - reflexivity.
Defined.

Lemma readItem_escaped_line_then_space_witness :
  exists s',
    reading s' (qs "e5 ")
    /\ readItem oneMoveIn
                (TS.open ("%"%char :: qs "skip" ++ LF :: LF :: qs "e5 "))
                board0
       = mkRead PgnError oneMoveIn s' board0 [].
Proof.
  apply (readItem_escaped_line_then_space
           oneMoveIn
           (TS.open ("%"%char :: qs "skip" ++ LF :: LF :: qs "e5 "))
           board0 [] (qs "skip") LF (qs "e5 ")).
  - split; reflexivity.
  - reflexivity.
  - reflexivity.
  - reflexivity.
  - reflexivity.
Defined.

Lemma readItem_move_number_witness :
  exists s',
    reading s' (qs " e4")
    /\ readItem oneMoveIn (TS.open (qs "12. e4")) board0
       = mkRead PgnMoveNumber oneMoveIn s' board0 [].
Proof.
  apply (readItem_move_number oneMoveIn (TS.open (qs "12. e4")) board0
                              [] (qs "12") "."%char (qs " e4")).
  - split; reflexivity.
  - reflexivity.
  - reflexivity.
  - reflexivity.
  - discriminate.
  - right. reflexivity.
Defined.

Lemma readItem_termination_marker_witness :
  exists s',
    reading s' []
    /\ readItem oneMoveIn (TS.open (qs "1/2-1/2 ")) board0
       = mkRead PgnResult
                (setResult (resultFromString (qs "1/2-1/2")) oneMoveIn)
                s' board0
                (if Result_eqb (resultFromString (qs "1/2-1/2"))
                               (m_result oneMoveIn)
                 then [] else [TerminationMarkerDiffers]).
Proof.
  apply (readItem_termination_marker
           oneMoveIn (TS.open (qs "1/2-1/2 ")) board0
           [] (qs "1/2-1/2") " "%char []).
  - split; reflexivity.
  - reflexivity.
  - reflexivity.
  - reflexivity.
  - reflexivity.
Defined.

Lemma readItem_leading_period_witness :
  exists s',
    reading s' (qs "e5 ")
    /\ readItem oneMoveIn (TS.open (qs ".  e5 ")) board0
       = readItem oneMoveIn s' board0.
Proof.
  apply (readItem_leading_period oneMoveIn (TS.open (qs ".  e5 ")) board0
                                 [] (qs "  ") (qs "e5 ")).
  - split; reflexivity.
  - reflexivity.
  - reflexivity.
  - reflexivity.
  - reflexivity.
Defined.

End MoreExamples.
